(** * Resource-state serialization and the construct adapter

  A shallow embedding of two Go sources of the Pulumi runtime:

  - the snapshot codec of package [stack] ([SerializeResource],
    [SerializeProperties], [SerializePropertyValue] and their inverses);
  - the construct adapter of package [pulumi] ([construct],
    [constructInputsSetArgs]).

  Go maps are finite maps ([gmap]); a map that may be [nil] is an
  [option] of one.  Go strings are byte strings, and so are Rocq's.  A Go
  function that can return an [error] or panic yields an [outcome]. *)

From Stdlib Require Import ZArith Ascii String List Lia.
From Stdlib Require SpecFloat.
From stdpp Require Import base option list list_monad strings gmap sorting.

#[local] Set Warnings "-register-all".
#[local] Open Scope string_scope.

(** ** Outcomes of a Go call *)

(** A call returns a value, returns a non-nil [error] (its message), or
  panics (the panic's message). *)
Inductive outcome (A : Type) : Type :=
| Ok (a : A)
| Err (e : string)
| Panic (msg : string).
Arguments Ok {A} a.
Arguments Err {A} e.
Arguments Panic {A} msg.

#[global] Instance outcome_ret : MRet outcome := @Ok.
#[global] Instance outcome_bind : MBind outcome := λ A B f m,
  match m with
  | Ok a => f a
  | Err e => Err e
  | Panic msg => Panic msg
  end.

Definition is_Ok {A} (o : outcome A) : bool :=
  match o with Ok _ => true | _ => false end.

(** A failure, at another result type. *)
Definition failAs {A B} (o : outcome A) : outcome B :=
  match o with
  | Ok _ => Panic "not a failure"
  | Err e => Err e
  | Panic msg => Panic msg
  end.

(** [contract.Assert] / [contract.Assertf]: panics when the condition is
  false. *)
Definition Assertf (cond : bool) (msg : string) : outcome unit :=
  if cond then Ok tt else Panic msg.
Definition Assert (cond : bool) : outcome unit :=
  Assertf cond "An assertion has failed".

(** [errors.Wrap(err, msg)] *)
Definition Wrap (err msg : string) : string := msg ++ ": " ++ err.

(** A callee with result type [(T, error)]: [inl] a value, [inr] an error. *)
Definition call {A} (r : A + string) : outcome A :=
  match r with inl a => Ok a | inr e => Err e end.

(** As [call], wrapping the error as [errors.Wrap] does. *)
Definition callWrap {A} (r : A + string) (msg : string) : outcome A :=
  match r with inl a => Ok a | inr e => Err (Wrap e msg) end.

(** ** Ranging over a Go map

    A [for k, v := range m] loop whose body computes one entry of a
    result map and may fail: [entries] holds the keys with the outcome of
    the body; the loop stops at the first failure.  Go leaves the order of
    the visit open; here it is the order of [map_to_list]. *)
Definition collectStep {A} (acc : outcome (gmap string A))
    (kv : string * outcome A) : outcome (gmap string A) :=
  result ← acc;
  v ← kv.2;
  Ok (<[kv.1 := v]> result).

Definition collectM {A} (entries : list (string * outcome A))
    : outcome (gmap string A) :=
  foldl collectStep (Ok ∅) entries.

Definition rangeM {A B} (body : string → A → outcome B) (m : gmap string A)
    : outcome (gmap string B) :=
  collectM ((λ kv, (kv.1, body kv.1 kv.2)) <$> map_to_list m).

(** ** Go's string order and [sort]

  Go compares strings bytewise, as [String.leb] does.  [sort.Strings] and
  [sort.Slice] with [<] on strings return the sorted permutation of their
  argument; they are modelled by a merge sort (see [Sorted_sortStrings]
  and [sortStrings_Permutation]). *)
Definition string_le (a b : string) : Prop := String.leb a b = true.

#[global] Instance string_le_dec : RelDecision string_le :=
  λ a b, decide (String.leb a b = true).

Definition sortStrings (l : list string) : list string :=
  merge_sort string_le l.

(** ** Property values (package [resource]) *)

(** A [float64]. *)
Abbreviation float64 := SpecFloat.spec_float.

Section Values.
Context {Asset Archive : Type}.

(** Modelled from the spec: [resource.PropertyValue], whose declaration is
    not among the sources.  The spec gives the tagged union
    [Null | Bool | Number | String | Array | Object | Asset | Archive |
    Secret | Computed]; [POutput] is the "output that hasn't materialized"
    of the comment in [SerializePropertyValue] (a "value lacking a
    materialized value" in the spec).  The payload types of assets and
    archives are left open. *)
Inductive PropertyValue : Type :=
| PNull
| PBool (b : bool)
| PNumber (f : float64)
| PString (s : string)
| PArray (arr : list PropertyValue)
| PObject (obj : gmap string PropertyValue)
| PAsset (a : Asset)
| PArchive (a : Archive)
| PSecret (v : PropertyValue)
| PComputed
| POutput.

(** The [interface{}] trees of a serialized record: [nil], [bool],
    [float64], [string], [[]interface{}], [map[string]interface{}], or any
    other Go value ([WRaw], the property value whose [V] it is). *)
Inductive wire : Type :=
| WNil
| WBool (b : bool)
| WNum (f : float64)
| WStr (s : string)
| WArr (arr : list wire)
| WMap (m : gmap string wire)
| WRaw (v : PropertyValue).
End Values.
Arguments PropertyValue : clear implicits.
Arguments wire : clear implicits.

(** Modelled from the spec: the asset and archive operations of package
  [resource] that the codec calls, not among the sources: [Serialize]
  ("their own self-describing representation") and [DeserializeAsset] /
  [DeserializeArchive] ("probe the map for the asset/archive type marker;
  if found, reconstruct the corresponding variant").  The probes stand for
  [resource.DeserializeAsset(obj.Mappable())] and its archive sibling. *)
Class AssetCodec (Asset Archive : Type) := {
  AssetSerialize : Asset → gmap string (wire Asset Archive);
  ArchiveSerialize : Archive → gmap string (wire Asset Archive);
  DeserializeAsset : gmap string (PropertyValue Asset Archive) → option Asset;
  DeserializeArchive : gmap string (PropertyValue Asset Archive) → option Archive
}.

Module resource.
Section resource.
Context {Asset Archive : Type}.
#[local] Abbreviation PropertyValue := (PropertyValue Asset Archive).
#[local] Abbreviation PropertyMap := (gmap string PropertyValue).

Definition IsNull (v : PropertyValue) : bool :=
  match v with PNull => true | _ => false end.
Definition IsComputed (v : PropertyValue) : bool :=
  match v with PComputed => true | _ => false end.
Definition IsOutput (v : PropertyValue) : bool :=
  match v with POutput => true | _ => false end.

(** Modelled from the spec: [PropertyValue.HasValue], not among the
    sources; false for "[Null] and any value lacking a materialized
    value" (nulls and outputs, in the words of its call site). *)
Definition HasValue (v : PropertyValue) : bool :=
  negb (IsNull v) && negb (IsOutput v).

(** [PropertyMap.StableKeys]: the keys in sorted order. *)
Definition StableKeys {A} (props : gmap string A) : list string :=
  sortStrings (map_to_list props).*1.

(** Modelled from the spec: [resource.State], the record the codec reads
    and rebuilds; the three property maps may be [nil]. *)
Record State : Type := NewState {
  Type_ : string;
  URN : string;
  Custom : bool;
  Delete : bool;
  ID : string;
  Inputs : option PropertyMap;
  Defaults : option PropertyMap;
  Outputs : option PropertyMap;
  Children : list string
}.
End resource.
Arguments State : clear implicits.
End resource.

(** ** Package [stack]: the snapshot codec *)
Module stack.
Section stack.
Context `{codec : AssetCodec Asset Archive}.
#[local] Abbreviation PropertyValue := (PropertyValue Asset Archive).
#[local] Abbreviation PropertyMap := (gmap string PropertyValue).
#[local] Abbreviation wire := (wire Asset Archive).

(** [Resource]: a serializable vertex; [omitempty] maps may be [nil]. *)
Record Resource : Type := mkResource {
  URN : string;
  Custom : bool;
  Delete : bool;
  ID : string;
  Type_ : string;
  Inputs : option (gmap string wire);
  Defaults : option (gmap string wire);
  Outputs : option (gmap string wire);
  Children : list string
}.

(** The value [prop.V] of a property that is none of array, object, asset
    or archive, as an [interface{}]. *)
Definition rawValue (prop : PropertyValue) : wire :=
  match prop with
  | PBool b => WBool b
  | PNumber f => WNum f
  | PString s => WStr s
  | _ => WRaw prop
  end.

(** The loop of [SerializeProperties] over the stable keys, given the
    serializer of values: [vals] holds the serialization of every entry,
    a key that is not in the map reads the zero value, which serializes
    to [nil]. *)
Definition serializeEntry (vals : gmap string (outcome wire))
    (acc : outcome (gmap string wire)) (k : string) : outcome (gmap string wire) :=
  dst ← acc;
  v ← default (Ok WNil) (vals !! k);
  match v with
  | WNil => Ok dst
  | _ => Ok (<[k := v]> dst)
  end.

Definition SerializeProperties_with (ser : PropertyValue → outcome wire)
    (props : PropertyMap) : outcome (gmap string wire) :=
  foldl (serializeEntry (ser <$> props)) (Ok ∅) (resource.StableKeys props).

Fixpoint SerializePropertyValue (prop : PropertyValue) : outcome wire :=
  _ ← Assert (negb (resource.IsComputed prop));
  if negb (resource.HasValue prop) then Ok WNil
  else match prop with
  | PArray srcarr =>
      dstarr ← mapM SerializePropertyValue srcarr; Ok (WArr dstarr)
  | PObject obj =>
      m ← SerializeProperties_with SerializePropertyValue obj; Ok (WMap m)
  | PAsset a => Ok (WMap (AssetSerialize a))
  | PArchive a => Ok (WMap (ArchiveSerialize a))
  | _ => Ok (rawValue prop)
  end.

Definition SerializeProperties (props : PropertyMap) : outcome (gmap string wire) :=
  SerializeProperties_with SerializePropertyValue props.

(** [if inp := res.Inputs; inp != nil { inputs = SerializeProperties(inp) }] *)
Definition serializeIfPresent (props : option PropertyMap)
    : outcome (option (gmap string wire)) :=
  match props with
  | None => Ok None
  | Some inp => m ← SerializeProperties inp; Ok (Some m)
  end.

Definition SerializeResource (res : option (resource.State Asset Archive))
    : outcome Resource :=
  _ ← Assert (bool_decide (res ≠ None));
  match res with
  | None => Panic "nil dereference"
  | Some res =>
    _ ← Assertf (negb (String.eqb (resource.URN res) ""))
          "Unexpected empty resource resource.URN";
    inputs ← serializeIfPresent (resource.Inputs res);
    defaults ← serializeIfPresent (resource.Defaults res);
    outputs ← serializeIfPresent (resource.Outputs res);
    let children := sortStrings (resource.Children res) in
    Ok {| URN := resource.URN res;
          Custom := resource.Custom res;
          Delete := resource.Delete res;
          ID := resource.ID res;
          Type_ := resource.Type_ res;
          Children := children;
          Inputs := inputs;
          Defaults := defaults;
          Outputs := outputs |}
  end.

(** The loop of [DeserializeProperties], given the deserializer of
    values. *)
Definition DeserializeProperties_with (deser : wire → outcome PropertyValue)
    (props : gmap string wire) : outcome PropertyMap :=
  collectM (map_to_list (deser <$> props)).

Fixpoint DeserializePropertyValue (v : wire) : outcome PropertyValue :=
  match v with
  | WNil => Ok PNull
  | WBool w => Ok (PBool w)
  | WNum w => Ok (PNumber w)
  | WStr w => Ok (PString w)
  | WArr w =>
      arr ← mapM DeserializePropertyValue w; Ok (PArray arr)
  | WMap w =>
      obj ← DeserializeProperties_with DeserializePropertyValue w;
      match DeserializeAsset obj with
      | Some asset => Ok (PAsset asset)
      | None =>
        match DeserializeArchive obj with
        | Some archive => Ok (PArchive archive)
        | None => Ok (PObject obj)
        end
      end
  | WRaw _ => Panic "Unrecognized property type"
  end.

(** A [nil] map is ranged over like an empty one; the result is made
    with [make] and is never [nil]. *)
Definition DeserializeProperties (props : option (gmap string wire))
    : outcome PropertyMap :=
  DeserializeProperties_with DeserializePropertyValue (default ∅ props).

Definition DeserializeResource (res : Resource)
    : outcome (resource.State Asset Archive) :=
  inputs ← DeserializeProperties (Inputs res);
  defaults ← DeserializeProperties (Defaults res);
  outputs ← DeserializeProperties (Outputs res);
  let children := Children res in
  Ok (resource.NewState (Type_ res) (URN res) (Custom res) (Delete res)
        (ID res) (Some inputs) (Some defaults) (Some outputs) children).
End stack.
Arguments Resource : clear implicits.
End stack.

(** ** Go strings: [strings.LastIndex], [strings.TrimSuffix], slicing *)

(** [s[lo:hi]]; panics unless [0 <= lo <= hi <= len(s)]. *)
Definition slice (s : string) (lo hi : Z) : outcome string :=
  if decide (0 ≤ lo ∧ lo ≤ hi ∧ hi ≤ Z.of_nat (String.length s))%Z
  then Ok (substring (Z.to_nat lo) (Z.to_nat (hi - lo)) s)
  else Panic "slice bounds out of range".

(** [s[lo:]] *)
Definition sliceFrom (s : string) (lo : Z) : outcome string :=
  slice s lo (Z.of_nat (String.length s)).

(** Does [substr] occur in [s] at byte offset [i]? *)
Definition occursAt (s substr : string) (i : nat) : bool :=
  String.eqb (substring i (String.length substr) s) substr.

(** The greatest offset [<= i] at which [substr] occurs in [s], or [-1]. *)
Fixpoint lastIndexFrom (s substr : string) (i : nat) : Z :=
  if occursAt s substr i then Z.of_nat i
  else match i with
       | O => (-1)%Z
       | S j => lastIndexFrom s substr j
       end.

(** [strings.LastIndex]: "the index of the last instance of substr in s,
    or -1 if substr is not present in s". *)
Definition LastIndex (s substr : string) : Z :=
  if decide (String.length substr ≤ String.length s)%nat
  then lastIndexFrom s substr (String.length s - String.length substr)
  else (-1)%Z.

(** [strings.HasSuffix] and [strings.TrimSuffix] *)
Definition HasSuffix (s suffix : string) : bool :=
  bool_decide (String.length suffix ≤ String.length s)%nat
  && occursAt s suffix (String.length s - String.length suffix).

Definition TrimSuffix (s suffix : string) : string :=
  if HasSuffix s suffix
  then substring 0 (String.length s - String.length suffix) s
  else s.

(** ** Package [pulumi]: the construct adapter *)
Module pulumi.

(** [RunInfo], with the fields [construct] sets. *)
Record RunInfo (Conn : Type) : Type := mkRunInfo {
  Project : string;
  Stack : string;
  Config : gmap string string;
  Parallel : Z;
  DryRun : bool;
  MonitorAddr : string;
  engineConn : Conn
}.
Arguments mkRunInfo {Conn}.

(** [plugin.MarshalOptions], with the fields [construct] sets. *)
Record MarshalOptions : Type := mkMarshalOptions {
  KeepSecrets : bool;
  KeepUnknowns : bool;
  KeepResources : bool
}.

(** A resource that only carries a URN, and a provider that only carries a
    URN and an ID. *)
Inductive Resource : Type :=
| newDependencyResource (urn : string).

Record ProviderResource : Type := newDependencyProviderResource {
  providerURN : string;
  providerID : string
}.

Record Alias : Type := mkAlias { Alias_URN : string }.

(** The part of [resourceOptions] that the option built by [construct]
    sets. *)
Record resourceOptions : Type := mkResourceOptions {
  Aliases : list Alias;
  DependsOn : list Resource;
  Protect : bool;
  Providers : gmap string ProviderResource;
  Parent : option Resource
}.

Record constructInput (Host : Type) : Type := mkConstructInput {
  value : Host;
  secret : bool;
  deps : list Resource
}.
Arguments mkConstructInput {Host}.
Arguments value {Host}.
Arguments secret {Host}.
Arguments deps {Host}.

(** An [interface{}] element of the inputs map: a [*constructInput], or a
    value of another type. *)
Inductive inputValue (Host : Type) : Type :=
| IConstructInput (val : constructInput Host)
| IOther.
Arguments IConstructInput {Host}.
Arguments IOther {Host}.

(** [pulumirpc.ConstructRequest], read through its getters. *)
Record ConstructRequest (Struct : Type) : Type := mkConstructRequest {
  GetProject : string;
  GetStack : string;
  GetConfig : gmap string string;
  GetParallel : Z;
  GetDryRun : bool;
  GetMonitorEndpoint : string;
  GetType : string;
  GetName : string;
  GetInputs : Struct;
  GetInputDependencies : gmap string (list string);
  GetAliases : list string;
  GetDependencies : list string;
  GetProviders : gmap string string;
  GetParent : string;
  GetProtect : bool
}.
Arguments mkConstructRequest {Struct}.
Arguments GetProject {Struct}.
Arguments GetStack {Struct}.
Arguments GetConfig {Struct}.
Arguments GetParallel {Struct}.
Arguments GetDryRun {Struct}.
Arguments GetMonitorEndpoint {Struct}.
Arguments GetType {Struct}.
Arguments GetName {Struct}.
Arguments GetInputs {Struct}.
Arguments GetInputDependencies {Struct}.
Arguments GetAliases {Struct}.
Arguments GetDependencies {Struct}.
Arguments GetProviders {Struct}.
Arguments GetParent {Struct}.
Arguments GetProtect {Struct}.

Record ConstructResponse (Struct : Type) : Type := mkConstructResponse {
  Urn : string;
  State : Struct;
  StateDependencies : gmap string (list string)
}.
Arguments mkConstructResponse {Struct}.
Arguments Urn {Struct}.
Arguments State {Struct}.
Arguments StateDependencies {Struct}.

(** The collaborators of [construct] that are not among the sources: the
    run context, the property marshaler of package [plugin], and the
    async-value engine.  [Struct] is the wire struct of the RPC.  A
    collaborator of result type [(T, error)] yields [inl] a value or [inr]
    an error; [waitForRPCs] returns the context once every outstanding RPC
    has completed, [rpcError] reads the error recorded in it.  The
    collaborators return: a panic inside one of them, or a [nil] value
    yielded without an error (on which [construct] would panic, as on
    [urn.ToURNOutput()] for a [nil] URN), is not modelled. *)
Class Runtime (Asset Archive Struct : Type) := {
  Context_ : Type;
  Conn : Type;
  Host : Type;
  URNInput : Type;
  Input : Type;
  NewContext : RunInfo Conn → Context_ + string;
  UnmarshalProperties :
    Struct → MarshalOptions → gmap string (PropertyValue Asset Archive) + string;
  unmarshalPropertyValue :
    Context_ → PropertyValue Asset Archive → (Host * bool) + string;
  waitForRPCs : Context_ → Context_;
  rpcError : Context_ → option string;
  keepResources : Context_ → bool;
  awaitURN : URNInput → string + string;
  marshalInputs :
    Input → (gmap string (PropertyValue Asset Archive) * gmap string (list string)) + string;
  MarshalProperties :
    gmap string (PropertyValue Asset Archive) → MarshalOptions → Struct + string
}.

Section construct.
Context `{rt : Runtime Asset Archive Struct}.
#[local] Abbreviation PropertyValue := (PropertyValue Asset Archive).

(** [constructFunc]; the routine may register resources, so it also
    yields the context as it leaves it. *)
Definition constructFunc : Type :=
  Context_ → string → string → gmap string (inputValue Host) → resourceOptions →
  Context_ * ((URNInput * Input) + string).

(** The body of the loop over the deserialized inputs. *)
Definition constructInputOf (pulumiCtx : Context_)
    (inputDependencies : gmap string (list string))
    (k : string) (input : PropertyValue) : outcome (inputValue Host) :=
  let deps :=
    match inputDependencies !! k with
    | Some inputDeps => newDependencyResource <$> inputDeps
    | None => []
    end in
  '(val, secret) ← callWrap (unmarshalPropertyValue pulumiCtx input)
                     ("unmarshaling input " ++ k);
  Ok (IConstructInput {| value := val; secret := secret; deps := deps |}).

(** The body of the loop over the providers: parse the URN and ID out of
    the provider reference. *)
Definition parseProviderReference (ref : string) : outcome ProviderResource :=
  let lastSep := LastIndex ref "::" in
  if decide (lastSep = -1)%Z
  then Err ("expected '::' in provider reference " ++ ref)
  else
    urn ← slice ref 0 lastSep;
    id ← sliceFrom ref (lastSep + 2);
    Ok (newDependencyProviderResource urn id).

(** [urns[i]]; panics when [i] is out of range. *)
Definition index (urns : list string) (i : nat) : outcome string :=
  match urns !! i with
  | Some u => Ok u
  | None => Panic "index out of range"
  end.

(** The inner loop [for i, d := range deps] that removes duplicates, from
    index [i] on, with [urns] as built so far. *)
Fixpoint dedupLoop (deps : list string) (i : nat) (urns : list string)
    : outcome (list string) :=
  match deps with
  | [] => Ok urns
  | d :: rest =>
    skip ← (if bool_decide (0 < i)%nat
            then prev ← index urns (i - 1); Ok (String.eqb prev d)
            else Ok false);
    if (skip : bool) then dedupLoop rest (S i) urns
    else dedupLoop rest (S i) (urns ++ [d])
  end.

(** The body of the loop over the property dependencies: sort, then
    remove duplicates. *)
Definition propertyDependencies (deps : list string) : outcome (list string) :=
  let deps := sortStrings deps in
  dedupLoop deps 0 [].

Definition unmarshalOptions (req : ConstructRequest Struct) : MarshalOptions :=
  {| KeepSecrets := true; KeepResources := true; KeepUnknowns := GetDryRun req |}.

Definition marshalOptions (req : ConstructRequest Struct) (pulumiCtx : Context_)
    : MarshalOptions :=
  let keepUnknowns := GetDryRun req in
  {| KeepSecrets := true; KeepUnknowns := keepUnknowns;
     KeepResources := keepResources pulumiCtx |}.

Definition construct (req : ConstructRequest Struct) (engineConn : Conn)
    (constructF : constructFunc) : outcome (ConstructResponse Struct) :=
  let runInfo :=
    {| Project := GetProject req; Stack := GetStack req;
       Config := GetConfig req; Parallel := GetParallel req;
       DryRun := GetDryRun req; MonitorAddr := GetMonitorEndpoint req;
       engineConn := engineConn |} in
  pulumiCtx ← callWrap (NewContext runInfo) "constructing run context";
  let inputDependencies := GetInputDependencies req in
  deserializedInputs ←
    callWrap (UnmarshalProperties (GetInputs req) (unmarshalOptions req))
      "unmarshaling inputs";
  inputs ← rangeM (constructInputOf pulumiCtx inputDependencies) deserializedInputs;
  let aliases := mkAlias <$> GetAliases req in
  let dependencies := newDependencyResource <$> GetDependencies req in
  providers ← rangeM (λ _ ref, parseProviderReference ref) (GetProviders req);
  let parent :=
    if String.eqb (GetParent req) "" then None
    else Some (newDependencyResource (GetParent req)) in
  let opts :=
    {| Aliases := aliases; DependsOn := dependencies; Protect := GetProtect req;
       Providers := providers; Parent := parent |} in
  let '(pulumiCtx, r) := constructF pulumiCtx (GetType req) (GetName req) inputs opts in
  '(urn, state) ← call r;
  let pulumiCtx := waitForRPCs pulumiCtx in
  _ ← match rpcError pulumiCtx with
      | Some e => Err (Wrap e "waiting for RPCs")
      | None => Ok tt
      end;
  rpcURN ← call (awaitURN urn);
  '(resolvedProps, propertyDeps) ←
    callWrap (marshalInputs state) "marshaling properties";
  rpcProps ←
    callWrap (MarshalProperties resolvedProps (marshalOptions req pulumiCtx))
      "marshaling properties";
  rpcPropertyDeps ← rangeM (λ _ deps, propertyDependencies deps) propertyDeps;
  Ok {| Urn := rpcURN; State := rpcProps; StateDependencies := rpcPropertyDeps |}.
End construct.

(** *** Reflection, as [constructInputsSetArgs] uses it *)

(** A [reflect.Type]: its name, whether it implements the interfaces
    [Input] and [Output], and its method set; a method is described by
    [NumIn] and the list of its result types (as [reflect] reports them
    for the method found by [MethodByName]). *)
Inductive rtype : Type :=
| RType (name : string) (implementsInput implementsOutput : bool)
        (methods : list (string * (nat * list rtype))).

Definition Type_Name (t : rtype) : string :=
  match t with RType name _ _ _ => name end.
Definition ImplementsInput (t : rtype) : bool :=
  match t with RType _ b _ _ => b end.
Definition ImplementsOutput (t : rtype) : bool :=
  match t with RType _ _ b _ => b end.
Definition Methods (t : rtype) : list (string * (nat * list rtype)) :=
  match t with RType _ _ _ ms => ms end.

(** [Type.MethodByName]: the method's [NumIn] and result types, if found. *)
Definition MethodByName (t : rtype) (name : string) : option (nat * list rtype) :=
  snd <$> List.find (λ m, String.eqb (fst m) name) (Methods t).

(** [StructTag.Lookup] on a tag given as its key/value pairs. *)
Definition Tag_Lookup (tag : list (string * string)) (key : string) : option string :=
  snd <$> List.find (λ kv, String.eqb (fst kv) key) tag.

(** The state of an output: unresolved, or resolved with a value, the
    known and secret flags and an error. *)
Record resolution (Host : Type) : Type := mkResolution {
  resValue : Host;
  resKnown : bool;
  resSecret : bool;
  resErr : option string
}.
Arguments mkResolution {Host}.

Record Output (Host : Type) : Type := mkOutput {
  outputType : rtype;
  outputDeps : list Resource;
  outputState : option (resolution Host)
}.
Arguments mkOutput {Host}.
Arguments outputType {Host}.
Arguments outputDeps {Host}.
Arguments outputState {Host}.

(** [newOutput(typ, deps...)]: a new unresolved output of type [typ]. *)
Definition newOutput {Host} (typ : rtype) (deps : list Resource) : Output Host :=
  {| outputType := typ; outputDeps := deps; outputState := None |}.

(** [output.getState().resolve(value, known, secret, err)] on a new
    output. *)
Definition resolve {Host} (o : Output Host) (value : Host) (known secret : bool)
    (err : option string) : Output Host :=
  {| outputType := outputType o; outputDeps := outputDeps o;
     outputState := Some (mkResolution value known secret err) |}.

(** The value held by a struct field: an output, or any other value. *)
Inductive fieldValue (Host : Type) : Type :=
| VOutput (o : Output Host)
| VOther (v : Host).
Arguments VOutput {Host}.
Arguments VOther {Host}.

(** A field of the struct behind [args]: [reflect.StructField] together
    with the field's value.  [CanSet] holds of the exported fields, the
    struct being reached through a pointer. *)
Record StructField (Host : Type) : Type := mkStructField {
  Name : string;
  CanSet : bool;
  Tag : list (string * string);
  Type_ : rtype;
  Value : fieldValue Host
}.
Arguments mkStructField {Host}.
Arguments Name {Host}.
Arguments CanSet {Host}.
Arguments Tag {Host}.
Arguments Type_ {Host}.
Arguments Value {Host}.

(** The [args interface{}] argument: [nil], a pointer to a struct (the
    struct's fields), or anything else.  A pointer to a struct points to
    an actual struct: a [nil] pointer of such a type, on which
    [reflect.Value.Field] panics, is not among the cases. *)
Inductive argsValue (Host : Type) : Type :=
| ArgsNil
| ArgsPtrToStruct (fields : list (StructField Host))
| ArgsOther.
Arguments ArgsNil {Host}.
Arguments ArgsPtrToStruct {Host}.
Arguments ArgsOther {Host}.

(** What [reflect] and the package leave open here: the type
    [anyOutputType], and assignability of a value of one type to a field
    of another ([Value.Set] panics without it). *)
Class Reflection := {
  anyOutputType : rtype;
  AssignableTo : rtype → rtype → bool
}.

Section constructInputsSetArgs.
Context {Host : Type} `{refl : Reflection}.

(** [fieldV.Set(reflect.ValueOf(output))] *)
Definition Set_ (field : StructField Host) (output : Output Host)
    : outcome (StructField Host) :=
  if AssignableTo (outputType output) (Type_ field)
  then Ok {| Name := Name field; CanSet := CanSet field; Tag := Tag field;
             Type_ := Type_ field; Value := VOutput output |}
  else Panic "reflect.Set: value is not assignable to the field's type".

(** The type of the output to build for a field, or [None] where the
    loop [continue]s. *)
Definition outputTypeFor (fieldType : rtype) : option rtype :=
  let toOutputMethodName :=
    "To" ++ TrimSuffix (Type_Name fieldType) "Input" ++ "Output" in
  match MethodByName fieldType toOutputMethodName with
  | Some (numIn, outs) =>
    if bool_decide (numIn ≠ 0%nat ∨ length outs ≠ 1%nat) then None
    else match outs with
         | outputType :: _ =>
           if negb (ImplementsOutput outputType) then None else Some outputType
         | [] => None
         end
  | None => Some anyOutputType
  end.

(** The body of the loop over the fields, for the input [k], [val]. *)
Definition setField (k : string) (val : constructInput Host)
    (field : StructField Host) : outcome (StructField Host) :=
  if negb (CanSet field) then Ok field
  else match Tag_Lookup (Tag field) "pulumi" with
  | None => Ok field
  | Some tag =>
    if negb (String.eqb tag k) then Ok field
    else if negb (ImplementsInput (Type_ field)) then Ok field
    else match outputTypeFor (Type_ field) with
    | None => Ok field
    | Some outputType =>
      let output := newOutput outputType (deps val) in
      let output := resolve output (value val) true (secret val) None in
      Set_ field output
    end
  end.

(** The body of the loop over the inputs; [v.( *constructInput)] panics on
    a value of another type. *)
Definition setInput (acc : outcome (list (StructField Host)))
    (kv : string * inputValue Host) : outcome (list (StructField Host)) :=
  fields ← acc;
  val ← match kv.2 with
        | IConstructInput val => Ok val
        | IOther => Panic "interface conversion: not *pulumi.constructInput"
        end;
  mapM (setField kv.1 val) fields.

(** [constructInputsSetArgs]: the struct behind [args] as it is left, when
    the returned error is [nil].  The inputs are visited in the order of
    [map_to_list]. *)
Definition constructInputsSetArgs (inputs : gmap string (inputValue Host))
    (args : argsValue Host) : outcome (list (StructField Host)) :=
  match args with
  | ArgsNil => Err "args must not be nil"
  | ArgsOther => Err "args must be a pointer to a struct"
  | ArgsPtrToStruct fields => foldl setInput (Ok fields) (map_to_list inputs)
  end.
End constructInputsSetArgs.
End pulumi.

(** ** Notions used to state the properties of the codec *)
Module stack_spec.
Import stack.
Section stack_spec.
Context `{codec : AssetCodec Asset Archive}.
#[local] Abbreviation PropertyValue := (PropertyValue Asset Archive).
#[local] Abbreviation PropertyMap := (gmap string PropertyValue).
#[local] Abbreviation wire := (wire Asset Archive).

(** What [SerializeProperties] stores for a serialized value: nothing for
    [nil]. *)
Definition dropNil (v : wire) : option wire :=
  match v with
  | WNil => None
  | _ => Some v
  end.

(** The serialization of a value that serializes without a panic. *)
Definition serialized (prop : PropertyValue) : wire :=
  match SerializePropertyValue prop with
  | Ok v => v
  | _ => WNil
  end.

Definition deserialized (v : wire) : PropertyValue :=
  match DeserializePropertyValue v with
  | Ok prop => prop
  | _ => PNull
  end.

(** Serialize, then deserialize. *)
Definition roundTrip (res : resource.State Asset Archive)
    : outcome (resource.State Asset Archive) :=
  r ← SerializeResource (Some res); DeserializeResource r.

(** Modelled from the spec: what the absent asset and archive operations
    owe the codec, their representation "must embed a recoverable type
    marker": the probes recover an asset, and an archive, from the
    deserialized form of its representation. *)
Definition RecoverableMarker : Prop :=
  (∀ a : Asset, ∃ obj,
      DeserializeProperties (Some (AssetSerialize a)) = Ok obj
      ∧ DeserializeAsset obj = Some a)
  ∧ (∀ a : Archive, ∃ obj,
      DeserializeProperties (Some (ArchiveSerialize a)) = Ok obj
      ∧ DeserializeAsset obj = None
      ∧ DeserializeArchive obj = Some a).

(** The values that a snapshot keeps: scalars, assets and archives, arrays
    of such values or nulls, and objects of such values that the probes do
    not take for an asset or an archive.  Left out are nulls and outputs
    (not serialized), computed values (refused), and secrets (no case in
    the codec). *)
Inductive Kept : PropertyValue → Prop :=
| Kept_bool b : Kept (PBool b)
| Kept_number f : Kept (PNumber f)
| Kept_string s : Kept (PString s)
| Kept_asset a : Kept (PAsset a)
| Kept_archive a : Kept (PArchive a)
| Kept_array arr :
    (∀ i v, arr !! i = Some v → v ≠ PNull → Kept v) →
    Kept (PArray arr)
| Kept_object obj :
    (∀ k v, obj !! k = Some v → Kept v) →
    DeserializeAsset obj = None →
    DeserializeArchive obj = None →
    Kept (PObject obj).

(** Every entry of a property map, if the map is present, is kept. *)
Definition KeptMap (props : option PropertyMap) : Prop :=
  ∀ m k v, props = Some m → m !! k = Some v → Kept v.

(** Value equality as the spec has it: in an object a null entry is an
    omitted one ("[Null] and any value lacking a materialized value →
    omitted", "object fields collapse sparsity, arrays preserve
    position").  [omitted v] is [v] without, at every object depth, the
    entries whose value is null or an output that has not materialized;
    in an array such an element stays in its place, as a null. *)
Definition nonNull (v : PropertyValue) : option PropertyValue :=
  match v with
  | PNull => None
  | _ => Some v
  end.

Fixpoint omitted (v : PropertyValue) : PropertyValue :=
  match v with
  | POutput => PNull
  | PArray arr => PArray (omitted <$> arr)
  | PObject obj => PObject (omap nonNull (omitted <$> obj))
  | _ => v
  end.

Definition omittedMap (m : PropertyMap) : PropertyMap :=
  omap nonNull (omitted <$> m).

(** The values that a snapshot can store: nulls and outputs, scalars,
    assets and archives, arrays of such values, and objects of such values
    that, once their null entries are omitted, the probes do not take for
    an asset or an archive.  Left out are computed values (refused) and
    secrets (no case in the codec). *)
Inductive Storable : PropertyValue → Prop :=
| Storable_null : Storable PNull
| Storable_output : Storable POutput
| Storable_bool b : Storable (PBool b)
| Storable_number f : Storable (PNumber f)
| Storable_string s : Storable (PString s)
| Storable_asset a : Storable (PAsset a)
| Storable_archive a : Storable (PArchive a)
| Storable_array arr :
    (∀ i v, arr !! i = Some v → Storable v) →
    Storable (PArray arr)
| Storable_object obj :
    (∀ k v, obj !! k = Some v → Storable v) →
    DeserializeAsset (omittedMap obj) = None →
    DeserializeArchive (omittedMap obj) = None →
    Storable (PObject obj).

(** Every entry of a property map, if the map is present, can be
    stored. *)
Definition StorableMap (props : option PropertyMap) : Prop :=
  ∀ m k v, props = Some m → m !! k = Some v → Storable v.
End stack_spec.
End stack_spec.

(** ** Package [plugin]: the property marshaler *)
Module plugin.
Import pulumi.
Section unknowns.
Context {Asset Archive : Type}.
#[local] Abbreviation PropertyValue := (PropertyValue Asset Archive).

(** Is there an unknown (computed) value in [v]? *)
Fixpoint containsUnknowns (v : PropertyValue) : bool :=
  match v with
  | PComputed => true
  | PArray arr => existsb containsUnknowns arr
  | PObject obj =>
      map_fold (λ _ (b acc : bool), b || acc) false (containsUnknowns <$> obj)
  | PSecret v => containsUnknowns v
  | _ => false
  end.

Definition anyUnknown (props : gmap string PropertyValue) : bool :=
  containsUnknowns (PObject props).

(** Modelled from the spec: [plugin.MarshalProperties], the marshaler of
    the response, which is not among the sources.  The spec: "marshal
    resolved values back to wire form preserving secret-ness; permit
    unknown markers only when dry-run (a resolved-unknown value in a
    non-dry-run response is a failure)".  The wire struct is modelled by
    the property map it encodes. *)
Definition MarshalProperties (props : gmap string PropertyValue)
    (opts : MarshalOptions) : gmap string PropertyValue + string :=
  if anyUnknown props && negb (KeepUnknowns opts)
  then inr "unexpected unknown property value"
  else inl props.

(** Modelled from the spec: [plugin.UnmarshalProperties], the marshaler of
    the request: "retain unknown markers only when dry-run is set (a
    non-dry-run call must never decode an unknown value)". *)
Definition UnmarshalProperties (props : gmap string PropertyValue)
    (opts : MarshalOptions) : gmap string PropertyValue + string :=
  if anyUnknown props && negb (KeepUnknowns opts)
  then inr "unexpected unknown property value"
  else inl props.
End unknowns.
End plugin.

(** ** Notions used to state the properties of the adapter *)
Module pulumi_spec.
Import pulumi.

(** [s] begins with [prefix]. *)
Definition HasPrefix (s prefix : string) : bool := occursAt s prefix 0.


(** The field [field] once it holds a new output of type [outputType],
    resolved with the value and secret flag of [val], known, with the
    dependencies of [val]. *)
Definition populated {Host} (field : StructField Host) (val : constructInput Host)
    (outputType : rtype) : StructField Host :=
  {| Name := Name field; CanSet := CanSet field; Tag := Tag field;
     Type_ := Type_ field;
     Value := VOutput {| outputType := outputType; outputDeps := deps val;
                         outputState := Some (mkResolution (value val) true
                                                (secret val) None) |} |}.

Section phases.
Context `{rt : Runtime Asset Archive Struct}.
#[local] Abbreviation PropertyValue := (PropertyValue Asset Archive).

(** The steps of [construct], as the spec names them.  Decode: the run
    context and the inputs. *)
Definition decodePhase (req : ConstructRequest Struct) (engineConn : Conn)
    : outcome (Context_ * gmap string (inputValue Host)) :=
  let runInfo :=
    {| Project := GetProject req; Stack := GetStack req;
       Config := GetConfig req; Parallel := GetParallel req;
       DryRun := GetDryRun req; MonitorAddr := GetMonitorEndpoint req;
       engineConn := engineConn |} in
  pulumiCtx ← callWrap (NewContext runInfo) "constructing run context";
  deserializedInputs ←
    callWrap (UnmarshalProperties (GetInputs req) (unmarshalOptions req))
      "unmarshaling inputs";
  inputs ← rangeM (constructInputOf pulumiCtx (GetInputDependencies req))
             deserializedInputs;
  Ok (pulumiCtx, inputs).

(** Rebuild options. *)
Definition optionsPhase (req : ConstructRequest Struct) : outcome resourceOptions :=
  providers ← rangeM (λ _ ref, parseProviderReference ref) (GetProviders req);
  Ok {| Aliases := mkAlias <$> GetAliases req;
        DependsOn := newDependencyResource <$> GetDependencies req;
        Protect := GetProtect req;
        Providers := providers;
        Parent := if String.eqb (GetParent req) "" then None
                  else Some (newDependencyResource (GetParent req)) |}.

(** Invoke, completion barrier, resolve. *)
Definition resolvePhase (req : ConstructRequest Struct) (constructF : constructFunc)
    (pulumiCtx : Context_) (inputs : gmap string (inputValue Host))
    (opts : resourceOptions)
    : outcome (Context_ * string * gmap string PropertyValue
               * gmap string (list string)) :=
  let '(pulumiCtx, r) := constructF pulumiCtx (GetType req) (GetName req) inputs opts in
  '(urn, state) ← call r;
  let pulumiCtx := waitForRPCs pulumiCtx in
  _ ← match rpcError pulumiCtx with
      | Some e => Err (Wrap e "waiting for RPCs")
      | None => Ok tt
      end;
  rpcURN ← call (awaitURN urn);
  '(resolvedProps, propertyDeps) ←
    callWrap (marshalInputs state) "marshaling properties";
  Ok (pulumiCtx, rpcURN, resolvedProps, propertyDeps).

(** Encode. *)
Definition encodePhase (req : ConstructRequest Struct) (pulumiCtx : Context_)
    (rpcURN : string) (resolvedProps : gmap string PropertyValue)
    (propertyDeps : gmap string (list string))
    : outcome (ConstructResponse Struct) :=
  rpcProps ←
    callWrap (MarshalProperties resolvedProps (marshalOptions req pulumiCtx))
      "marshaling properties";
  rpcPropertyDeps ← rangeM (λ _ deps, propertyDependencies deps) propertyDeps;
  Ok {| Urn := rpcURN; State := rpcProps; StateDependencies := rpcPropertyDeps |}.

(** The call reaches the encoding of the response, with this context,
    URN, resolved state and dependencies. *)
Definition reachesEncode (req : ConstructRequest Struct) (engineConn : Conn)
    (constructF : constructFunc) (pulumiCtx : Context_) (rpcURN : string)
    (resolvedProps : gmap string PropertyValue)
    (propertyDeps : gmap string (list string)) : Prop :=
  ∃ ctx0 inputs opts,
    decodePhase req engineConn = Ok (ctx0, inputs)
    ∧ optionsPhase req = Ok opts
    ∧ resolvePhase req constructF ctx0 inputs opts
      = Ok (pulumiCtx, rpcURN, resolvedProps, propertyDeps).
End phases.
End pulumi_spec.

(** ** Sample data *)
Module sample.

(** A small asset codec: a text asset and a path archive, each
    represented by a map that carries a type marker under [SigKey]. *)
Definition SigKey : string := "sig".

#[local] Open Scope bool_scope.

Definition probe (marker field : string)
    (obj : gmap string (PropertyValue string string)) : option string :=
  match obj !! SigKey, obj !! field with
  | Some (PString sig), Some (PString payload) =>
      if String.eqb sig marker then Some payload else None
  | _, _ => None
  end.

#[global] Instance textCodec : AssetCodec string string := {|
  AssetSerialize a := {[ SigKey := WStr "asset"; "text" := WStr a ]};
  ArchiveSerialize a := {[ SigKey := WStr "archive"; "path" := WStr a ]};
  DeserializeAsset := probe "asset" "text";
  DeserializeArchive := probe "archive" "path"
|}.

(** The number [1]. *)
Definition one : float64 := SpecFloat.S754_finite false 4503599627370496 (-52).

Definition state (urn : string)
    (inputs : option (gmap string (PropertyValue string string)))
    (children : list string) : resource.State string string :=
  {| resource.Type_ := "pkg:index:Thing"; resource.URN := urn;
     resource.Custom := true; resource.Delete := false; resource.ID := "id-1";
     resource.Inputs := inputs; resource.Defaults := None;
     resource.Outputs := Some ∅; resource.Children := children |}.

(** A record with none of the three maps, and the state it deserializes
    to. *)
Definition bareRecord : stack.Resource string string :=
  {| stack.URN := "urn:x"; stack.Custom := true; stack.Delete := false;
     stack.ID := "id-1"; stack.Type_ := "pkg:index:Thing";
     stack.Inputs := None; stack.Defaults := None; stack.Outputs := None;
     stack.Children := [] |}.

Definition bareState : resource.State string string :=
  {| resource.Type_ := "pkg:index:Thing"; resource.URN := "urn:x";
     resource.Custom := true; resource.Delete := false; resource.ID := "id-1";
     resource.Inputs := Some ∅; resource.Defaults := Some ∅;
     resource.Outputs := Some ∅; resource.Children := [] |}.

(** The record of [state "urn:x" None []]: only the outputs are present. *)
Definition outputsOnlyRecord : stack.Resource string string :=
  {| stack.URN := "urn:x"; stack.Custom := true; stack.Delete := false;
     stack.ID := "id-1"; stack.Type_ := "pkg:index:Thing";
     stack.Inputs := None; stack.Defaults := None; stack.Outputs := Some ∅;
     stack.Children := [] |}.

(** The property map [{x: null, y: "v"}] and the array [[1, null, "x"]]. *)
Definition nullAndString : gmap string (PropertyValue string string) :=
  {[ "x" := PNull; "y" := PString "v" ]}.

Definition mixedArray : list (PropertyValue string string) :=
  [PNumber one; PNull; PString "x"].

(** Inputs of every kept kind: a string, an array with a null in it, an
    object, and an asset. *)
Definition keptInputs : gmap string (PropertyValue string string) :=
  {[ "name" := PString "n";
     "tags" := PArray [PString "a"; PNull];
     "nested" := PObject {[ "k" := PBool true ]};
     "file" := PAsset "hello" ]}.

(** Inputs with a null entry. *)
Definition nullInputs : gmap string (PropertyValue string string) :=
  {[ "x" := PNull ]}.

(** A runtime for the adapter: contexts carry nothing, every collaborator
    succeeds, values are their own host values, a state bag is the pair
    of the resolved state and its dependencies, and the marshaler is the
    one of [plugin]. *)
#[global] Instance runtime :
    pulumi.Runtime string string (gmap string (PropertyValue string string)) := {|
  pulumi.Context_ := unit;
  pulumi.Conn := unit;
  pulumi.Host := PropertyValue string string;
  pulumi.URNInput := string;
  pulumi.Input :=
    (gmap string (PropertyValue string string) * gmap string (list string))%type;
  pulumi.NewContext _ := inl tt;
  pulumi.UnmarshalProperties := plugin.UnmarshalProperties;
  pulumi.unmarshalPropertyValue _ v := inl (v, false);
  pulumi.waitForRPCs c := c;
  pulumi.rpcError _ := None;
  pulumi.keepResources _ := true;
  pulumi.awaitURN u := inl u;
  pulumi.marshalInputs i := inl i;
  pulumi.MarshalProperties := plugin.MarshalProperties
|}.

(** A construction routine that returns the component [urn:comp] with the
    given state and dependencies. *)
Definition routine (state : gmap string (PropertyValue string string))
    (deps : gmap string (list string)) : pulumi.constructFunc :=
  λ ctx _ _ _ _, (ctx, inl ("urn:comp", (state, deps))).

Definition request (dryRun : bool) (providers : gmap string string)
    : pulumi.ConstructRequest (gmap string (PropertyValue string string)) :=
  {| pulumi.GetProject := "proj"; pulumi.GetStack := "dev";
     pulumi.GetConfig := ∅; pulumi.GetParallel := 1%Z;
     pulumi.GetDryRun := dryRun; pulumi.GetMonitorEndpoint := "127.0.0.1:0";
     pulumi.GetType := "pkg:index:Component"; pulumi.GetName := "comp";
     pulumi.GetInputs := {[ "size" := PString "small" ]};
     pulumi.GetInputDependencies := {[ "size" := ["urn:dep"] ]};
     pulumi.GetAliases := []; pulumi.GetDependencies := [];
     pulumi.GetProviders := providers; pulumi.GetParent := "";
     pulumi.GetProtect := false |}.

(** Reflection data: the interface [StringInput] with its method
    [ToStringOutput], the output types, and [int]. *)
Definition stringOutputT : pulumi.rtype :=
  pulumi.RType "StringOutput" true true [].
Definition stringInputT : pulumi.rtype :=
  pulumi.RType "StringInput" true false [("ToStringOutput", (0%nat, [stringOutputT]))].
Definition anyOutputT : pulumi.rtype := pulumi.RType "AnyOutput" true true [].
Definition intT : pulumi.rtype := pulumi.RType "int" false false [].

(** Outputs are assignable to fields of an input interface type. *)
#[global] Instance reflection : pulumi.Reflection := {|
  pulumi.anyOutputType := anyOutputT;
  pulumi.AssignableTo from to := pulumi.ImplementsOutput from && pulumi.ImplementsInput to
|}.

(** [struct { Name StringInput `pulumi:"name"`; Count int }], and the same
    with the tagged field unexported. *)
Definition taggedField (canSet : bool)
    : pulumi.StructField (PropertyValue string string) :=
  {| pulumi.Name := "Name"; pulumi.CanSet := canSet;
     pulumi.Tag := [("pulumi", "name")]; pulumi.Type_ := stringInputT;
     pulumi.Value := pulumi.VOther PNull |}.

Definition untaggedField : pulumi.StructField (PropertyValue string string) :=
  {| pulumi.Name := "Count"; pulumi.CanSet := true; pulumi.Tag := [];
     pulumi.Type_ := intT; pulumi.Value := pulumi.VOther (PNumber one) |}.

Definition nameInput : pulumi.constructInput (PropertyValue string string) :=
  {| pulumi.value := PString "web"; pulumi.secret := true;
     pulumi.deps := [pulumi.newDependencyResource "urn:dep"] |}.
End sample.

(** ** Package [stack]: deployments *)
Module deployment.
Import stack.
Section deployment.
Context `{codec : AssetCodec Asset Archive} {TimeT InfoT : Type}.

(** Modelled from the spec: [deploy.Snapshot], whose declaration is not
    among the sources, with the fields [SerializeDeployment] reads: the
    time, the opaque info and the resources in the order of the graph
    builder.  The resources are pointers, [None] is [nil]; the types of
    [Time] and [Info] are left open. *)
Record Snapshot : Type := mkSnapshot {
  snapTime : TimeT;
  snapInfo : InfoT;
  snapResources : list (option (resource.State Asset Archive))
}.

(** [Deployment]: a serializable deploy record. *)
Record Deployment : Type := mkDeployment {
  Time : TimeT;
  Info : InfoT;
  Resources : list (Resource Asset Archive)
}.

(** [SerializeDeployment]; [snap] is a pointer. *)
Definition SerializeDeployment (snap : option Snapshot) : outcome Deployment :=
  match snap with
  | None => Panic "nil dereference"
  | Some snap =>
    resources ← mapM SerializeResource (snapResources snap);
    Ok {| Time := snapTime snap; Info := snapInfo snap; Resources := resources |}
  end.
End deployment.
Arguments Snapshot : clear implicits.
Arguments Deployment : clear implicits.
End deployment.

(** ** Package [pulumi]: the inputs map and the construct result *)
Module adapter.
Import pulumi.
Section adapter.
Context {Host : Type} `{refl : Reflection}.

(** [v.( *constructInput)] *)
Definition assertConstructInput (v : inputValue Host) : outcome (constructInput Host) :=
  match v with
  | IConstructInput val => Ok val
  | IOther => Panic "interface conversion: not *pulumi.constructInput"
  end.

(** [constructInputsMap]: the inputs as a [Map] of outputs.  A
    [*constructInput] is not [nil] here, as [construct] builds them. *)
Definition constructInputsMap (inputs : gmap string (inputValue Host))
    : outcome (gmap string (Output Host)) :=
  rangeM (λ _ v,
            val ← assertConstructInput v;
            let output := newOutput anyOutputType (deps val) in
            let output := resolve output (value val) true (secret val) None in
            Ok output)
         inputs.

(** Whether a value of a field, as an [interface{}], implements [Input]:
    an output does; for the other values [isInput] says. *)
Definition implementsInput (isInput : Host → bool) (v : fieldValue Host) : bool :=
  match v with
  | VOutput _ => true
  | VOther h => isInput h
  end.

(** The body of the loop of [newConstructResult] over the fields.
    [fieldV.Interface()] panics on a field that is not exported; behind a
    pointer these are the fields for which [CanSet] is false. *)
Definition stateField (isInput : Host → bool)
    (acc : outcome (gmap string (fieldValue Host))) (field : StructField Host)
    : outcome (gmap string (fieldValue Host)) :=
  state ← acc;
  match Tag_Lookup (Tag field) "pulumi" with
  | None => Ok state
  | Some tag =>
    val ← (if CanSet field then Ok (Value field)
           else Panic "reflect.Value.Interface: cannot return value obtained from unexported field or method");
    if implementsInput isInput val then Ok (<[tag := val]> state) else Ok state
  end.

(** [newConstructResult]: the URN of the resource ([urn] stands for
    [resource.URN()]) and its state; [resource] is the component, seen
    through reflection; a pointer to a struct is not a [nil] pointer
    here. *)
Definition newConstructResult {U : Type} (isInput : Host → bool)
    (resource : argsValue Host) (urn : U)
    : outcome (U * gmap string (fieldValue Host)) :=
  match resource with
  | ArgsNil => Err "resource must not be nil"
  | ArgsOther => Err "resource must be a pointer to a struct"
  | ArgsPtrToStruct fields =>
    state ← foldl (stateField isInput) (Ok ∅) fields;
    Ok (urn, state)
  end.
End adapter.
End adapter.

(** ** Further notions used to state properties *)
Module codec_spec.
Import stack stack_spec.
Section codec_spec.
Context `{codec : AssetCodec Asset Archive}.
#[local] Abbreviation PropertyValue := (PropertyValue Asset Archive).
#[local] Abbreviation wire := (wire Asset Archive).

(** Is a computed value reached from [v] through arrays and objects?
    (The serializer does not look into secrets, assets or archives.) *)
Fixpoint reachesComputed (v : PropertyValue) : bool :=
  match v with
  | PComputed => true
  | PArray arr => existsb reachesComputed arr
  | PObject obj =>
      map_fold (λ _ (b acc : bool), b || acc) false (reachesComputed <$> obj)
  | _ => false
  end.

Definition anyComputed (props : option (gmap string PropertyValue)) : bool :=
  match props with
  | None => false
  | Some m => reachesComputed (PObject m)
  end.

(** Is there a value of an unrecognized Go type in [v]? *)
Fixpoint hasRaw (v : wire) : bool :=
  match v with
  | WRaw _ => true
  | WArr arr => existsb hasRaw arr
  | WMap m => map_fold (λ _ (b acc : bool), b || acc) false (hasRaw <$> m)
  | _ => false
  end.

Definition anyRaw (props : option (gmap string wire)) : bool :=
  hasRaw (WMap (default ∅ props)).

(** The serialization of a map whose values serialize: the non-[nil]
    serializations, under the same keys. *)
Definition serializedMap (props : gmap string PropertyValue) : gmap string wire :=
  omap (dropNil ∘ serialized) props.

(** Sizes, for induction on values. *)
Fixpoint PropertyValue_size (v : PropertyValue) : nat :=
  match v with
  | PArray arr => S (list_sum (PropertyValue_size <$> arr))
  | PObject obj =>
      S (map_fold (λ _ (n acc : nat), n + acc)%nat 0%nat (PropertyValue_size <$> obj))
  | PSecret v => S (PropertyValue_size v)
  | _ => 1%nat
  end.

Fixpoint wire_size (v : wire) : nat :=
  match v with
  | WArr arr => S (list_sum (wire_size <$> arr))
  | WMap m => S (map_fold (λ _ (n acc : nat), n + acc)%nat 0%nat (wire_size <$> m))
  | _ => 1%nat
  end.

(** The trees that a record read back from its persisted form holds, and
    that deserialize to an object rather than to an asset or archive:
    scalars, [nil], arrays of such trees, and maps of such trees without
    [nil] values on which both probes answer no. *)
Inductive PlainWire : wire → Prop :=
| PlainWire_nil : PlainWire WNil
| PlainWire_bool b : PlainWire (WBool b)
| PlainWire_num f : PlainWire (WNum f)
| PlainWire_str s : PlainWire (WStr s)
| PlainWire_arr arr :
    (∀ i v, arr !! i = Some v → PlainWire v) → PlainWire (WArr arr)
| PlainWire_map m :
    (∀ k v, m !! k = Some v → PlainWire v) →
    (∀ k v, m !! k = Some v → v ≠ WNil) →
    DeserializeAsset (deserialized <$> m) = None →
    DeserializeArchive (deserialized <$> m) = None →
    PlainWire (WMap m).
End codec_spec.
End codec_spec.

(** ** Further notions used to state properties of the adapter *)
Module adapter_spec.
Import pulumi pulumi_spec adapter.
Section adapter_spec.
Context {Host : Type} `{refl : Reflection}.

(** The output built for the input [val]: of type [typ], resolved with
    the value and secret flag of [val], known, with its dependencies. *)
Definition outputOf (typ : rtype) (val : constructInput Host) : Output Host :=
  {| outputType := typ; outputDeps := deps val;
     outputState := Some (mkResolution (value val) true (secret val) None) |}.

Definition isOther (v : inputValue Host) : bool :=
  match v with IOther => true | IConstructInput _ => false end.

(** The entry of the [Map] for an element of the inputs. *)
Definition mapEntry (v : inputValue Host) : option (Output Host) :=
  match v with
  | IConstructInput val => Some (outputOf anyOutputType val)
  | IOther => None
  end.

(** The field [field] once the inputs are bound to the struct: populated
    from the input under its tag, when there is one and the field passes
    the checks of the loop; unchanged otherwise. *)
Definition bound (inputs : gmap string (inputValue Host)) (field : StructField Host)
    : StructField Host :=
  match Tag_Lookup (Tag field) "pulumi" with
  | Some tag =>
    match inputs !! tag with
    | Some (IConstructInput val) =>
      if CanSet field && ImplementsInput (Type_ field)
      then match outputTypeFor (Type_ field) with
           | Some outputType => populated field val outputType
           | None => field
           end
      else field
    | _ => field
    end
  | None => field
  end.

(** [constructInputsSetArgs] when the [range] over the inputs visits
    them in the order of [order], a list of the entries of the map: Go
    leaves the order open. *)
Definition constructInputsSetArgsIn (order : list (string * inputValue Host))
    (args : argsValue Host) : outcome (list (StructField Host)) :=
  match args with
  | ArgsNil => Err "args must not be nil"
  | ArgsOther => Err "args must be a pointer to a struct"
  | ArgsPtrToStruct fields => foldl setInput (Ok fields) order
  end.

(** What the loops do to one field: the turns of the loop over the
    fields for this field, one for each input. *)
Definition fieldStep (acc : outcome (StructField Host))
    (kv : string * inputValue Host) : outcome (StructField Host) :=
  field ← acc;
  val ← assertConstructInput kv.2;
  setField kv.1 val field.

(** The fields that contribute to the state under [tag]: those tagged
    [pulumi:"tag"] whose value implements [Input]. *)
Definition stateFieldsFor (isInput : Host → bool) (tag : string)
    (fields : list (StructField Host)) : list (StructField Host) :=
  filter (λ f, Tag_Lookup (Tag f) "pulumi" = Some tag
               ∧ implementsInput isInput (Value f) = true) fields.
End adapter_spec.
End adapter_spec.

(** ** Further sample data *)
Module fixtures.

(** The record of [sample.state urn None children], with the children
    as given. *)
Definition record (urn : string) (children : list string)
    : stack.Resource string string :=
  {| stack.URN := urn; stack.Custom := true; stack.Delete := false;
     stack.ID := "id-1"; stack.Type_ := "pkg:index:Thing";
     stack.Inputs := None; stack.Defaults := None; stack.Outputs := Some ∅;
     stack.Children := children |}.

(** A snapshot of two resources, and its deployment; times are numbers,
    the info is empty. *)
Definition snapshot : deployment.Snapshot string string Z unit :=
  {| deployment.snapTime := 42%Z; deployment.snapInfo := tt;
     deployment.snapResources :=
       [Some (sample.state "urn:x" None ["b"; "a"]);
        Some (sample.state "urn:y" None [])] |}.

Definition deployed : deployment.Deployment string string Z unit :=
  {| deployment.Time := 42%Z; deployment.Info := tt;
     deployment.Resources := [record "urn:x" ["a"; "b"]; record "urn:y" []] |}.

(** A persisted tree: an object with an array in it. *)
Definition plainTree : wire string string :=
  WMap {[ "k" := WArr [WStr "a"; WNil] ]}.

(** The input that [construct] builds for the request of [sample]. *)
Definition sizeInput : pulumi.constructInput (PropertyValue string string) :=
  {| pulumi.value := PString "small"; pulumi.secret := false;
     pulumi.deps := [pulumi.newDependencyResource "urn:dep"] |}.

(** The response for a state [{out: "v"}] that depends on [a], [b], [c]. *)
Definition response
    : pulumi.ConstructResponse (gmap string (PropertyValue string string)) :=
  {| pulumi.Urn := "urn:comp"; pulumi.State := {[ "out" := PString "v" ]};
     pulumi.StateDependencies := {[ "out" := ["a"; "b"; "c"] ]} |}.

(** A component [struct { Name StringOutput `pulumi:"name"`; Count int }]
    whose output is resolved; strings are the only other inputs. *)
Definition nameOutput : pulumi.Output (PropertyValue string string) :=
  adapter_spec.outputOf sample.stringOutputT sample.nameInput.

Definition component : list (pulumi.StructField (PropertyValue string string)) :=
  [ {| pulumi.Name := "Name"; pulumi.CanSet := true;
       pulumi.Tag := [("pulumi", "name")]; pulumi.Type_ := sample.stringOutputT;
       pulumi.Value := pulumi.VOutput nameOutput |};
    sample.untaggedField ].

Definition isStringInput (v : PropertyValue string string) : bool :=
  match v with PString _ => true | _ => false end.

(** Inputs with null and unmaterialized entries, at two depths, and the
    same inputs with these entries omitted. *)
Definition sparseInputs : gmap string (PropertyValue string string) :=
  {[ "x" := PNull;
     "y" := PString "v";
     "o" := PObject {[ "a" := PNull; "b" := PBool true ]};
     "tags" := PArray [PString "a"; PNull];
     "pending" := POutput;
     "file" := PAsset "hello" ]}.

Definition denseInputs : gmap string (PropertyValue string string) :=
  {[ "y" := PString "v";
     "o" := PObject {[ "b" := PBool true ]};
     "tags" := PArray [PString "a"; PNull];
     "file" := PAsset "hello" ]}.

(** Two inputs, of which [sample.taggedField] takes the first. *)
Definition twoInputs : gmap string (pulumi.inputValue (PropertyValue string string)) :=
  {[ "name" := pulumi.IConstructInput sample.nameInput;
     "size" := pulumi.IConstructInput sizeInput ]}.

(** Inputs with a secret entry. *)
Definition secretInputs : gmap string (PropertyValue string string) :=
  {[ "x" := PSecret (PString "s") ]}.
End fixtures.

(** * Properties *)

(** ** The outcome monad and the loops *)

Lemma bind_Ok_inv {A B} (m : outcome A) (f : A → outcome B) (b : B) :
  m ≫= f = Ok b → ∃ a, m = Ok a ∧ f a = Ok b.
Proof. destruct m as [a| |]; simpl; [eauto|discriminate..]. Qed.

Lemma mapM_Ok_Forall2 {A B} (f : A → outcome B) (l : list A) (k : list B) :
  mapM f l = Ok k ↔ Forall2 (λ x y, f x = Ok y) l k.
Proof.
  revert k. induction l as [|x l IH]; intros k; simpl.
  - split.
    + intros [= <-]. constructor.
    + by inversion 1.
  - split.
    + intros H. apply bind_Ok_inv in H as (y & Hy & H).
      apply bind_Ok_inv in H as (k' & Hk' & H). injection H as <-.
      constructor; [done|]. by apply IH.
    + inversion 1 as [|? y ? k' Hy Hk']; subst.
      apply IH in Hk'. by rewrite Hy, Hk'.
Qed.

Lemma mapM_Ok_length {A B} (f : A → outcome B) l k :
  mapM f l = Ok k → length k = length l.
Proof. intros H%mapM_Ok_Forall2. symmetry. by eapply Forall2_length. Qed.

Lemma mapM_Ok_lookup {A B} (f : A → outcome B) l k i x :
  mapM f l = Ok k → l !! i = Some x → ∃ y, k !! i = Some y ∧ f x = Ok y.
Proof.
  intros H%mapM_Ok_Forall2 Hx.
  destruct (Forall2_lookup_l _ _ _ _ _ H Hx) as (y & ? & ?). eauto.
Qed.

Lemma mapM_Ok_fmap {A B} (f : A → outcome B) (g : A → B) (l : list A) :
  (∀ i x, l !! i = Some x → f x = Ok (g x)) → mapM f l = Ok (g <$> l).
Proof.
  intros H. apply mapM_Ok_Forall2. apply Forall2_fmap_r.
  apply Forall2_same_length_lookup.
  split; [done|]. intros i x y Hx Hy. simplify_eq. eauto.
Qed.

(** Once a loop has failed it stays failed. *)
Lemma collectM_stuck {A} (entries : list (string * outcome A)) o :
  is_Ok o = false → is_Ok (foldl collectStep o entries) = false.
Proof.
  revert o. induction entries as [|kv entries IH]; intros o Ho; simpl; [done|].
  apply IH. by destruct o.
Qed.

Lemma collectM_fold {A B} (f : A → outcome B) (g : A → B)
    (l : list (string * A)) (acc : gmap string B) :
  (∀ k a, (k, a) ∈ l → f a = Ok (g a)) →
  foldl collectStep (Ok acc) (prod_map id f <$> l)
  = Ok (foldl (λ m kv, <[kv.1 := kv.2]> m) acc (prod_map id g <$> l)).
Proof.
  revert acc. induction l as [|[k a] l IH]; intros acc H; simpl; [done|].
  rewrite (H k a) by left. simpl. apply IH.
  intros k' a' Hin. apply (H k' a'). by right.
Qed.

Lemma foldl_insert_lookup {B} (l : list (string * B)) (acc : gmap string B) k :
  NoDup l.*1 →
  foldl (λ m kv, <[kv.1 := kv.2]> m) acc l !! k
  = match list_to_map (M := gmap string B) l !! k with
    | Some b => Some b
    | None => acc !! k
    end.
Proof.
  revert acc. induction l as [|[k' b] l IH]; intros acc Hnd; simpl; [done|].
  apply NoDup_cons in Hnd as [Hk' Hnd]. rewrite IH by done.
  destruct (decide (k = k')) as [->|Hne].
  - rewrite lookup_insert_eq.
    rewrite (not_elem_of_list_to_map_1 l k') by done.
    by rewrite lookup_insert_eq.
  - rewrite !lookup_insert_ne by done. done.
Qed.

(** A loop over a map whose body succeeds on every entry builds the map
    of the results. *)
Lemma collectM_map_to_list {A B} (f : A → outcome B) (g : A → B) (m : gmap string A) :
  (∀ k a, m !! k = Some a → f a = Ok (g a)) →
  collectM (map_to_list (f <$> m)) = Ok (g <$> m).
Proof.
  intros H. unfold collectM.
  rewrite map_to_list_fmap.
  rewrite (collectM_fold f g).
  2:{ intros k a Hk%elem_of_map_to_list. eauto. }
  f_equal. apply map_eq. intros k.
  rewrite foldl_insert_lookup.
  2:{ rewrite <- list_fmap_compose.
      replace ((fst ∘ prod_map id g) <$> map_to_list m) with ((map_to_list m).*1).
      - apply NoDup_fst_map_to_list.
      - apply list_fmap_ext. by intros ? []. }
  rewrite <- map_to_list_fmap, list_to_map_to_list, lookup_empty.
  by destruct ((g <$> m) !! k).
Qed.

Lemma collectM_stuck_eq {A} (entries : list (string * outcome A))
    (o : outcome (gmap string A)) :
  is_Ok o = false → foldl collectStep o entries = o.
Proof.
  revert o. induction entries as [|kv entries IH]; intros o Ho; simpl; [done|].
  destruct o; [done|..]; simpl; by rewrite IH.
Qed.

(** A loop returns a map, or fails as the body failed on some entry. *)
Lemma collectM_result {A} (entries : list (string * outcome A)) :
  (∃ m, collectM entries = Ok m)
  ∨ (∃ k o, (k, o) ∈ entries ∧ is_Ok o = false ∧ collectM entries = failAs o).
Proof.
  unfold collectM. generalize (∅ : gmap string A).
  induction entries as [|[k o] entries IH]; intros acc; simpl; [eauto|].
  destruct o as [a|e|msg]; simpl.
  - destruct (IH (<[k := a]> acc)) as [?|(k' & o' & Hin & ? & ?)]; [by left|].
    right. exists k', o'. split; [by right|done].
  - right. exists k, (Err e). split; [by left|]. split; [done|].
    by apply collectM_stuck_eq.
  - right. exists k, (Panic msg). split; [by left|]. split; [done|].
    by apply collectM_stuck_eq.
Qed.

Lemma collectM_failure_list {A} (entries : list (string * outcome A)) k o :
  (k, o) ∈ entries → is_Ok o = false → is_Ok (collectM entries) = false.
Proof.
  intros Hin Ho. unfold collectM. generalize (Ok (∅ : gmap string A)).
  induction entries as [|kv l IH]; intros acc; [by inversion Hin|].
  simpl. apply elem_of_cons in Hin as [<-|Hin]; [|by apply IH].
  apply collectM_stuck. destruct acc; simpl; [|done..]. by destruct o.
Qed.

(** The map that a loop returns holds the result of the body on every
    entry. *)
Lemma collectM_Ok_inv {A} (l : list (string * outcome A)) (acc r : gmap string A) :
  NoDup l.*1 → foldl collectStep (Ok acc) l = Ok r →
  (∀ k o, (k, o) ∈ l → ∃ a, o = Ok a ∧ r !! k = Some a)
  ∧ (∀ k, k ∉ l.*1 → r !! k = acc !! k).
Proof.
  revert acc. induction l as [|[k0 o0] l IH]; intros acc Hnd H.
  { injection H as <-. split; [|done]. intros k o Hin. by inversion Hin. }
  simpl in Hnd. apply NoDup_cons in Hnd as [Hk0 Hnd].
  change (foldl collectStep (Ok acc) ((k0, o0) :: l))
    with (foldl collectStep (collectStep (Ok acc) (k0, o0)) l) in H.
  destruct o0 as [a0|e|msg].
  2,3: by rewrite collectM_stuck_eq in H.
  simpl in H. destruct (IH _ Hnd H) as [Hin Hout]. split.
  - intros k o [[= -> ->]|Hk]%elem_of_cons.
    + exists a0. split; [done|]. by rewrite Hout, lookup_insert_eq.
    + by apply Hin.
  - intros k Hk. simpl in Hk. apply not_elem_of_cons in Hk as [Hne Hk].
    by rewrite Hout, lookup_insert_ne.
Qed.

Lemma rangeM_Ok_inv {A B} (body : string → A → outcome B) (m : gmap string A)
    (r : gmap string B) k a :
  rangeM body m = Ok r → m !! k = Some a →
  ∃ b, body k a = Ok b ∧ r !! k = Some b.
Proof.
  intros H Hk. unfold rangeM, collectM in H.
  apply collectM_Ok_inv in H as [Hin _].
  - apply (Hin k (body k a)). apply list_elem_of_fmap.
    exists (k, a). split; [done|]. by apply elem_of_map_to_list.
  - rewrite <- list_fmap_compose.
    replace ((fst ∘ (λ kv : string * A, (kv.1, body kv.1 kv.2))) <$> map_to_list m)
      with ((map_to_list m).*1); [apply NoDup_fst_map_to_list|].
    apply list_fmap_ext. by intros ? [].
Qed.

Lemma rangeM_result {A B} (body : string → A → outcome B) (m : gmap string A) :
  (∃ r, rangeM body m = Ok r)
  ∨ (∃ k a, m !! k = Some a ∧ is_Ok (body k a) = false
            ∧ rangeM body m = failAs (body k a)).
Proof.
  unfold rangeM.
  destruct (collectM_result ((λ kv, (kv.1, body kv.1 kv.2)) <$> map_to_list m))
    as [?|(k & o & Hin & Ho & E)]; [by left|].
  right. apply list_elem_of_fmap in Hin as ([k' a] & [= -> ->] & Hin).
  apply elem_of_map_to_list in Hin. eauto.
Qed.

Lemma rangeM_failure {A B} (body : string → A → outcome B) (m : gmap string A) k a :
  m !! k = Some a → is_Ok (body k a) = false → is_Ok (rangeM body m) = false.
Proof.
  intros Hk Hf. unfold rangeM.
  apply (collectM_failure_list _ k (body k a)); [|done].
  apply list_elem_of_fmap. exists (k, a). split; [done|].
  by apply elem_of_map_to_list.
Qed.

(** ** The string order and [sortStrings] *)

#[global] Instance string_le_total : Total string_le.
Proof. intros a b. apply String.leb_total. Qed.

#[global] Instance string_le_antisymm : AntiSymm (=) string_le.
Proof. intros a b. apply String.leb_antisym. Qed.

#[global] Instance string_le_trans : Transitive string_le.
Proof.
  unfold string_le, String.leb.
  intros a. induction a as [|x a IH]; intros [|y b] [|z c]; simpl; try done.
  unfold Ascii.compare.
  destruct (N.compare_spec (N_of_ascii x) (N_of_ascii y)) as [Exy|Lxy|Gxy];
    destruct (N.compare_spec (N_of_ascii y) (N_of_ascii z)) as [Eyz|Lyz|Gyz];
    destruct (N.compare_spec (N_of_ascii x) (N_of_ascii z)) as [Exz|Lxz|Gxz];
    try done; try lia.
  apply IH.
Qed.

(** [sortStrings] returns the sorted permutation of its argument, and
    there is only one. *)
Lemma Sorted_sortStrings l : Sorted string_le (sortStrings l).
Proof. apply Sorted_merge_sort, _. Qed.

Lemma sortStrings_Permutation l : sortStrings l ≡ₚ l.
Proof. apply merge_sort_Permutation. Qed.

Lemma sortStrings_unique l k :
  Sorted string_le k → k ≡ₚ l → sortStrings l = k.
Proof.
  intros Hk Hp. apply (Sorted_unique string_le); [apply Sorted_sortStrings|done|].
  by rewrite sortStrings_Permutation.
Qed.

Lemma elem_of_StableKeys {A} (props : gmap string A) k :
  k ∈ resource.StableKeys props ↔ is_Some (props !! k).
Proof.
  unfold resource.StableKeys. rewrite sortStrings_Permutation.
  rewrite list_elem_of_fmap. split.
  - intros ([k' a] & -> & Hin%elem_of_map_to_list). eauto.
  - intros [a Ha]. exists (k, a). split; [done|]. by apply elem_of_map_to_list.
Qed.

Lemma NoDup_StableKeys {A} (props : gmap string A) :
  NoDup (resource.StableKeys props).
Proof.
  unfold resource.StableKeys. rewrite sortStrings_Permutation.
  apply NoDup_fst_map_to_list.
Qed.

(** ** The snapshot codec *)
Module stack_proofs.
Import stack stack_spec.
Section stack_proofs.
Context `{codec : AssetCodec Asset Archive}.
#[local] Abbreviation PropertyValue := (PropertyValue Asset Archive).
#[local] Abbreviation PropertyMap := (gmap string PropertyValue).
#[local] Abbreviation wire := (wire Asset Archive).

Lemma SerializePropertyValue_array (arr : list PropertyValue) :
  SerializePropertyValue (PArray arr)
  = dstarr ← mapM SerializePropertyValue arr; Ok (WArr dstarr).
Proof. reflexivity. Qed.

Lemma SerializePropertyValue_object (obj : PropertyMap) :
  SerializePropertyValue (PObject obj)
  = m ← SerializeProperties obj; Ok (WMap m).
Proof. reflexivity. Qed.

Lemma DeserializePropertyValue_map (w : gmap string wire) :
  DeserializePropertyValue (WMap w)
  = obj ← DeserializeProperties (Some w);
    match DeserializeAsset obj with
    | Some asset => Ok (PAsset asset)
    | None =>
      match DeserializeArchive obj with
      | Some archive => Ok (PArchive archive)
      | None => Ok (PObject obj)
      end
    end.
Proof. reflexivity. Qed.

Lemma serialized_Ok (prop : PropertyValue) v :
  SerializePropertyValue prop = Ok v → serialized prop = v.
Proof. unfold serialized. by intros ->. Qed.

Lemma deserialized_Ok (v : wire) prop :
  DeserializePropertyValue v = Ok prop → deserialized v = prop.
Proof. unfold deserialized. by intros ->. Qed.

(** *** The loop of [SerializeProperties] *)

Lemma serializeEntry_stuck (vals : gmap string (outcome wire)) ks o :
  is_Ok o = false → is_Ok (foldl (serializeEntry vals) o ks) = false.
Proof.
  revert o. induction ks as [|k ks IH]; intros o Ho; simpl; [done|].
  apply IH. by destruct o.
Qed.

Lemma serializeEntry_Ok (ser : PropertyValue → outcome wire) g
    (props : PropertyMap) dst k :
  (∀ k v, props !! k = Some v → ser v = Ok (g v)) →
  serializeEntry (ser <$> props) (Ok dst) k
  = Ok match props !! k ≫= (dropNil ∘ g) with
       | Some v => <[k := v]> dst
       | None => dst
       end.
Proof.
  intros H. unfold serializeEntry. simpl. rewrite lookup_fmap.
  destruct (props !! k) as [v|] eqn:Hk; simpl; [|done].
  rewrite (H k v Hk). simpl. by destruct (g v).
Qed.

Lemma serialize_fold (ser : PropertyValue → outcome wire) g
    (props : PropertyMap) ks dst :
  (∀ k v, props !! k = Some v → ser v = Ok (g v)) →
  NoDup ks → (∀ k, k ∈ ks → dst !! k = None) →
  ∃ dst', foldl (serializeEntry (ser <$> props)) (Ok dst) ks = Ok dst'
    ∧ ∀ k, dst' !! k = if bool_decide (k ∈ ks)
                        then props !! k ≫= (dropNil ∘ g) else dst !! k.
Proof.
  intros H. revert dst. induction ks as [|k0 ks IH]; intros dst Hnd Hdst.
  { exists dst. split; [done|]. intros k. rewrite bool_decide_eq_false_2; [done|].
    apply not_elem_of_nil. }
  apply NoDup_cons in Hnd as [Hk0 Hnd].
  change (foldl ?f ?a (k0 :: ks)) with (foldl f (f a k0) ks).
  rewrite (serializeEntry_Ok ser g) by done.
  set (dst1 := match props !! k0 ≫= (dropNil ∘ g) with
               | Some v => <[k0 := v]> dst
               | None => dst
               end).
  assert (∀ k, k ≠ k0 → dst1 !! k = dst !! k) as Hother.
  { intros k Hne. unfold dst1. destruct (props !! k0 ≫= _); [|done].
    by rewrite lookup_insert_ne. }
  assert (dst1 !! k0 = props !! k0 ≫= (dropNil ∘ g)) as Hk0'.
  { unfold dst1. destruct (props !! k0 ≫= _) eqn:E.
    - by rewrite lookup_insert_eq.
    - apply Hdst. by left. }
  destruct (IH dst1 Hnd) as (dst' & Hfold & Hlook).
  { intros k Hk. rewrite Hother by (intros ->; done). apply Hdst. by right. }
  exists dst'. split; [done|]. intros k. rewrite Hlook.
  destruct (decide (k = k0)) as [->|Hne].
  - rewrite (bool_decide_eq_false_2 (k0 ∈ ks)) by done.
    rewrite bool_decide_eq_true_2 by left. done.
  - rewrite Hother by done.
    destruct (decide (k ∈ ks)) as [Hin|Hnin].
    + rewrite !bool_decide_eq_true_2; [done| by right | done].
    + rewrite !bool_decide_eq_false_2; [done| |done].
      intros [?|?]%elem_of_cons; done.
Qed.

(** When every value serializes, the result holds the non-[nil]
    serializations, under the same keys. *)
Lemma SerializeProperties_with_Ok (ser : PropertyValue → outcome wire) g
    (props : PropertyMap) :
  (∀ k v, props !! k = Some v → ser v = Ok (g v)) →
  SerializeProperties_with ser props = Ok (omap (dropNil ∘ g) props).
Proof.
  intros H. unfold SerializeProperties_with.
  destruct (serialize_fold ser g props (resource.StableKeys props) ∅ H)
    as (dst' & -> & Hlook).
  { apply NoDup_StableKeys. }
  { intros. apply lookup_empty. }
  f_equal. apply map_eq. intros k. rewrite Hlook, lookup_omap.
  destruct (props !! k) as [v|] eqn:Hk.
  - rewrite bool_decide_eq_true_2; [done|]. apply elem_of_StableKeys. eauto.
  - rewrite bool_decide_eq_false_2; [done|].
    rewrite elem_of_StableKeys, Hk. by intros [? ?].
Qed.

(** When some value does not serialize, neither does the map. *)
Lemma SerializeProperties_with_failure (ser : PropertyValue → outcome wire)
    (props : PropertyMap) k v :
  props !! k = Some v → is_Ok (ser v) = false →
  is_Ok (SerializeProperties_with ser props) = false.
Proof.
  intros Hk Hv. unfold SerializeProperties_with.
  assert (k ∈ resource.StableKeys props) as Hin by (apply elem_of_StableKeys; eauto).
  generalize (Ok (∅ : gmap string wire)).
  induction (resource.StableKeys props) as [|k0 ks IH]; intros o; [by inversion Hin|].
  simpl. apply elem_of_cons in Hin as [<-|Hin]; [|by apply IH].
  apply serializeEntry_stuck. unfold serializeEntry.
  destruct o; simpl; [|done..]. rewrite lookup_fmap, Hk. simpl.
  by destruct (ser v).
Qed.

Lemma SerializeProperties_Ok_inv (props : PropertyMap) dst :
  SerializeProperties props = Ok dst →
  (∀ k v, props !! k = Some v → SerializePropertyValue v = Ok (serialized v))
  ∧ dst = omap (dropNil ∘ serialized) props.
Proof.
  intros H.
  assert (∀ k v, props !! k = Some v →
            SerializePropertyValue v = Ok (serialized v)) as Hall.
  { intros k v Hk. unfold serialized.
    destruct (SerializePropertyValue v) eqn:E; [done|..].
    - pose proof (SerializeProperties_with_failure SerializePropertyValue props k v Hk) as F.
      unfold SerializeProperties in H. rewrite H, E in F. by discriminate F.
    - pose proof (SerializeProperties_with_failure SerializePropertyValue props k v Hk) as F.
      unfold SerializeProperties in H. rewrite H, E in F. by discriminate F. }
  split; [done|].
  unfold SerializeProperties in H.
  rewrite (SerializeProperties_with_Ok _ serialized) in H by done. congruence.
Qed.

(** *** The loop of [DeserializeProperties] *)

Lemma DeserializeProperties_Ok (props : gmap string wire) :
  (∀ k v, props !! k = Some v →
     DeserializePropertyValue v = Ok (deserialized v)) →
  DeserializeProperties (Some props) = Ok (deserialized <$> props).
Proof. intros H. by apply collectM_map_to_list. Qed.

Lemma DeserializeProperties_nil :
  DeserializeProperties (None : option (gmap string wire)) = Ok ∅.
Proof.
  unfold DeserializeProperties, DeserializeProperties_with. simpl.
  by rewrite fmap_empty, map_to_list_empty.
Qed.

(** *** Values that a snapshot keeps *)

Lemma Kept_roundtrip (prop : PropertyValue) :
  RecoverableMarker → Kept prop →
  ∃ v, SerializePropertyValue prop = Ok v ∧ v ≠ WNil
       ∧ DeserializePropertyValue v = Ok prop.
Proof.
  intros [Hasset Harchive]. induction 1 as
    [b|f|s|a|a|arr Harr IH|obj Hobj IH Hnoasset Hnoarchive].
  - exists (WBool b). by repeat split.
  - exists (WNum f). by repeat split.
  - exists (WStr s). by repeat split.
  - exists (WMap (AssetSerialize a)). repeat split; [done|].
    rewrite DeserializePropertyValue_map.
    destruct (Hasset a) as (obj & -> & Hprobe). simpl. by rewrite Hprobe.
  - exists (WMap (ArchiveSerialize a)). repeat split; [done|].
    rewrite DeserializePropertyValue_map.
    destruct (Harchive a) as (obj & -> & Hp1 & Hp2). simpl. by rewrite Hp1, Hp2.
  - (* arrays: nulls stay in place *)
    assert (∀ i v, arr !! i = Some v →
              SerializePropertyValue v = Ok (serialized v)
              ∧ DeserializePropertyValue (serialized v) = Ok v) as Helem.
    { intros i v Hi.
      assert (v = PNull ∨ v ≠ PNull) as [->|Hnn]
        by (destruct v; (by left) || (by right)); [done|].
      destruct (IH i v Hi Hnn) as (w & Hw & _ & Hback).
      by rewrite (serialized_Ok _ _ Hw). }
    exists (WArr (serialized <$> arr)). repeat split; [|done|].
    + rewrite SerializePropertyValue_array.
      rewrite (mapM_Ok_fmap _ serialized); [done|].
      intros i v Hi. by apply (Helem i).
    + simpl. replace (mapM DeserializePropertyValue (serialized <$> arr))
        with (Ok arr : outcome (list PropertyValue)); [done|].
      symmetry. apply mapM_Ok_Forall2, Forall2_fmap_l, Forall_Forall2_diag.
      apply Forall_lookup. intros i v Hi. by apply (Helem i).
  - (* objects: no entry is dropped *)
    assert (∀ k v, obj !! k = Some v →
              SerializePropertyValue v = Ok (serialized v)
              ∧ dropNil (serialized v) = Some (serialized v)
              ∧ DeserializePropertyValue (serialized v) = Ok v) as Hentry.
    { intros k v Hk. destruct (IH k v Hk) as (w & Hw & Hnn & Hback).
      rewrite (serialized_Ok _ _ Hw). repeat split; [done| |done].
      by destruct w. }
    assert (omap (dropNil ∘ serialized) obj = serialized <$> obj) as Hkeep.
    { apply map_eq. intros k. rewrite lookup_omap, lookup_fmap.
      destruct (obj !! k) as [v|] eqn:Hk; [|done]. simpl.
      by destruct (Hentry k v Hk) as (_ & -> & _). }
    exists (WMap (serialized <$> obj)). repeat split; [|done|].
    + rewrite SerializePropertyValue_object. unfold SerializeProperties.
      rewrite (SerializeProperties_with_Ok _ serialized), Hkeep; [done|].
      intros k v Hk. by apply (Hentry k).
    + rewrite DeserializePropertyValue_map.
      rewrite DeserializeProperties_Ok.
      2:{ intros k w. rewrite lookup_fmap.
          destruct (obj !! k) as [v|] eqn:Hk; [|done]. intros [= <-].
          destruct (Hentry k v Hk) as (_ & _ & Hback).
          by rewrite (deserialized_Ok _ _ Hback). }
      assert (deserialized <$> (serialized <$> obj) = obj) as ->.
      { apply map_eq. intros k. rewrite !lookup_fmap.
        destruct (obj !! k) as [v|] eqn:Hk; [|done]. simpl.
        destruct (Hentry k v Hk) as (_ & _ & Hback).
        by rewrite (deserialized_Ok _ _ Hback). }
      simpl. by rewrite Hnoasset, Hnoarchive.
Qed.

(** A present map of kept values serializes to a present map and comes
    back as it was; an absent one serializes to an absent one and comes
    back empty. *)
Lemma KeptMap_roundtrip (props : option PropertyMap) :
  RecoverableMarker → KeptMap props →
  ∃ ser, serializeIfPresent props = Ok ser
         ∧ (props = None ↔ ser = None)
         ∧ DeserializeProperties ser = Ok (default ∅ props).
Proof.
  intros Hrec Hkept. destruct props as [m|]; simpl.
  2:{ exists None. split; [done|]. split; [done|]. apply DeserializeProperties_nil. }
  assert (∀ k v, m !! k = Some v →
            SerializePropertyValue v = Ok (serialized v)
            ∧ dropNil (serialized v) = Some (serialized v)
            ∧ DeserializePropertyValue (serialized v) = Ok v) as Hentry.
  { intros k v Hk.
    destruct (Kept_roundtrip v Hrec (Hkept m k v eq_refl Hk)) as (w & Hw & Hnn & Hback).
    rewrite (serialized_Ok _ _ Hw). repeat split; [done| |done]. by destruct w. }
  exists (Some (serialized <$> m)). unfold SerializeProperties.
  rewrite (SerializeProperties_with_Ok _ serialized).
  2:{ intros k v Hk. by apply (Hentry k). }
  assert (omap (dropNil ∘ serialized) m = serialized <$> m) as ->.
  { apply map_eq. intros k. rewrite lookup_omap, lookup_fmap.
    destruct (m !! k) as [v|] eqn:Hk; [|done]. simpl.
    by destruct (Hentry k v Hk) as (_ & -> & _). }
  split; [done|]. split; [by split|].
  rewrite DeserializeProperties_Ok.
  2:{ intros k w. rewrite lookup_fmap.
      destruct (m !! k) as [v|] eqn:Hk; [|done]. intros [= <-].
      destruct (Hentry k v Hk) as (_ & _ & Hback).
      by rewrite (deserialized_Ok _ _ Hback). }
  f_equal. apply map_eq. intros k. rewrite !lookup_fmap.
  destruct (m !! k) as [v|] eqn:Hk; [|done]. simpl.
  destruct (Hentry k v Hk) as (_ & _ & Hback).
  by rewrite (deserialized_Ok _ _ Hback).
Qed.

(** *** The codec: main results *)

(** C2 (as amended): [SerializeResource] keeps an absent map absent and a
    present map, even an empty one, present; [DeserializeResource] does
    not: every map of the state it returns is present, and an absent map
    of the record comes back as a present, empty one. *)
Theorem C2_absent_kept_by_serialize_only
    (res : resource.State Asset Archive) (r r' : Resource Asset Archive)
    (st : resource.State Asset Archive) :
  SerializeResource (Some res) = Ok r →
  DeserializeResource r' = Ok st →
  ((resource.Inputs res = None ↔ Inputs r = None)
   ∧ (resource.Defaults res = None ↔ Defaults r = None)
   ∧ (resource.Outputs res = None ↔ Outputs r = None))
  ∧ (is_Some (resource.Inputs st) ∧ is_Some (resource.Defaults st)
     ∧ is_Some (resource.Outputs st))
  ∧ ((Inputs r' = None → resource.Inputs st = Some ∅)
     ∧ (Defaults r' = None → resource.Defaults st = Some ∅)
     ∧ (Outputs r' = None → resource.Outputs st = Some ∅)).
Proof.
  intros Hser Hdes.
  assert (∀ props ser, serializeIfPresent props = Ok ser →
            (props = None ↔ ser = None)) as Hpresent.
  { intros [m|] ser; simpl.
    - intros H. apply bind_Ok_inv in H as (m' & _ & [= <-]). by split.
    - by intros [= <-]. }
  unfold SerializeResource in Hser. simpl in Hser.
  apply bind_Ok_inv in Hser as (_ & _ & Hser).
  apply bind_Ok_inv in Hser as (inputs & Hin & Hser).
  apply bind_Ok_inv in Hser as (defaults & Hdef & Hser).
  apply bind_Ok_inv in Hser as (outputs & Hout & Hser).
  injection Hser as <-. simpl.
  unfold DeserializeResource in Hdes.
  apply bind_Ok_inv in Hdes as (i' & Hi' & Hdes).
  apply bind_Ok_inv in Hdes as (d' & Hd' & Hdes).
  apply bind_Ok_inv in Hdes as (o' & Ho' & Hdes).
  injection Hdes as <-. simpl.
  split; [by auto|]. split; [by eauto|].
  repeat split; intros E; rewrite E, DeserializeProperties_nil in *; congruence.
Qed.

(** A resource whose property maps hold kept values only comes back with
    every entry of its maps. *)
Lemma roundTrip_kept (res : resource.State Asset Archive) :
  RecoverableMarker →
  resource.URN res ≠ "" →
  KeptMap (resource.Inputs res) →
  KeptMap (resource.Defaults res) →
  KeptMap (resource.Outputs res) →
  roundTrip res
  = Ok {| resource.Type_ := resource.Type_ res;
          resource.URN := resource.URN res;
          resource.Custom := resource.Custom res;
          resource.Delete := resource.Delete res;
          resource.ID := resource.ID res;
          resource.Inputs := Some (default ∅ (resource.Inputs res));
          resource.Defaults := Some (default ∅ (resource.Defaults res));
          resource.Outputs := Some (default ∅ (resource.Outputs res));
          resource.Children := sortStrings (resource.Children res) |}.
Proof.
  intros Hrec Hurn Hin Hdef Hout.
  destruct (KeptMap_roundtrip _ Hrec Hin) as (i & Hi & _ & Hi').
  destruct (KeptMap_roundtrip _ Hrec Hdef) as (d & Hd & _ & Hd').
  destruct (KeptMap_roundtrip _ Hrec Hout) as (o & Ho & _ & Ho').
  unfold roundTrip, SerializeResource. simpl.
  apply String.eqb_neq in Hurn. rewrite Hurn. simpl.
  rewrite Hi, Hd, Ho. simpl.
  unfold DeserializeResource. simpl. by rewrite Hi', Hd', Ho'.
Qed.

(** *** Values that a snapshot can store *)

Lemma Storable_roundtrip (prop : PropertyValue) :
  RecoverableMarker → Storable prop →
  ∃ v, SerializePropertyValue prop = Ok v
       ∧ DeserializePropertyValue v = Ok (omitted prop)
       ∧ (v = WNil ↔ omitted prop = PNull).
Proof.
  intros [Hasset Harchive]. induction 1 as
    [| |b|f|s|a|a|arr Harr IH|obj Hobj IH Hnoasset Hnoarchive].
  - exists WNil. by repeat split.
  - exists WNil. by repeat split.
  - exists (WBool b). by repeat split.
  - exists (WNum f). by repeat split.
  - exists (WStr s). by repeat split.
  - exists (WMap (AssetSerialize a)). split; [done|]. split; [|by split].
    rewrite DeserializePropertyValue_map.
    destruct (Hasset a) as (obj & -> & Hprobe). simpl. by rewrite Hprobe.
  - exists (WMap (ArchiveSerialize a)). split; [done|]. split; [|by split].
    rewrite DeserializePropertyValue_map.
    destruct (Harchive a) as (obj & -> & Hp1 & Hp2). simpl. by rewrite Hp1, Hp2.
  - (* arrays: every element stays in place *)
    assert (∀ i v, arr !! i = Some v →
              SerializePropertyValue v = Ok (serialized v)
              ∧ DeserializePropertyValue (serialized v) = Ok (omitted v)) as Helem.
    { intros i v Hi. destruct (IH i v Hi) as (w & Hw & Hback & _).
      by rewrite (serialized_Ok _ _ Hw). }
    exists (WArr (serialized <$> arr)). split; [|split; [|by split]].
    + rewrite SerializePropertyValue_array.
      rewrite (mapM_Ok_fmap _ serialized); [done|].
      intros i v Hi. by apply (Helem i).
    + simpl. replace (mapM DeserializePropertyValue (serialized <$> arr))
        with (Ok (omitted <$> arr) : outcome (list PropertyValue)); [done|].
      symmetry. apply mapM_Ok_Forall2, Forall2_fmap, Forall_Forall2_diag.
      apply Forall_lookup. intros i v Hi. by apply (Helem i).
  - (* objects: the entries that serialize to nil are dropped *)
    assert (∀ k v, obj !! k = Some v →
              SerializePropertyValue v = Ok (serialized v)
              ∧ DeserializePropertyValue (serialized v) = Ok (omitted v)
              ∧ (serialized v = WNil ↔ omitted v = PNull)) as Hentry.
    { intros k v Hk. destruct (IH k v Hk) as (w & Hw & Hback & Hnil).
      by rewrite (serialized_Ok _ _ Hw). }
    exists (WMap (omap (dropNil ∘ serialized) obj)). split; [|split; [|by split]].
    + rewrite SerializePropertyValue_object. unfold SerializeProperties.
      rewrite (SerializeProperties_with_Ok _ serialized); [done|].
      intros k v Hk. by apply (Hentry k).
    + rewrite DeserializePropertyValue_map, DeserializeProperties_Ok.
      2:{ intros k w. rewrite lookup_omap.
          destruct (obj !! k) as [v|] eqn:Hk; simpl; [|done]. intros Hw.
          destruct (Hentry k v Hk) as (_ & Hback & _).
          assert (w = serialized v) as ->
            by (destruct (serialized v); simplify_eq/=; done).
          by rewrite (deserialized_Ok _ _ Hback). }
      assert (deserialized <$> omap (dropNil ∘ serialized) obj = omittedMap obj)
        as ->.
      { apply map_eq. intros k. unfold omittedMap.
        rewrite lookup_fmap, !lookup_omap, lookup_fmap.
        destruct (obj !! k) as [v|] eqn:Hk; simpl; [|done].
        destruct (Hentry k v Hk) as (_ & Hback & Hnil).
        destruct (serialized v) eqn:Es; simpl;
          [by rewrite (proj1 Hnil eq_refl)|..];
          rewrite (deserialized_Ok _ _ Hback);
          (destruct (omitted v) eqn:Eo; [by discriminate (proj2 Hnil eq_refl)|done..]). }
      simpl. by rewrite Hnoasset, Hnoarchive.
Qed.

(** A present map of storable values serializes to a present map and
    comes back without its null entries; an absent one serializes to an
    absent one and comes back empty. *)
Lemma StorableMap_roundtrip (props : option PropertyMap) :
  RecoverableMarker → StorableMap props →
  ∃ ser, serializeIfPresent props = Ok ser
         ∧ DeserializeProperties ser = Ok (omittedMap (default ∅ props)).
Proof.
  intros Hrec Hst. destruct props as [m|]; simpl.
  2:{ exists None. split; [done|]. rewrite DeserializeProperties_nil.
      unfold omittedMap. by rewrite fmap_empty, omap_empty. }
  assert (∀ k v, m !! k = Some v →
            SerializePropertyValue v = Ok (serialized v)
            ∧ DeserializePropertyValue (serialized v) = Ok (omitted v)
            ∧ (serialized v = WNil ↔ omitted v = PNull)) as Hentry.
  { intros k v Hk.
    destruct (Storable_roundtrip v Hrec (Hst m k v eq_refl Hk))
      as (w & Hw & Hback & Hnil).
    by rewrite (serialized_Ok _ _ Hw). }
  exists (Some (omap (dropNil ∘ serialized) m)). unfold SerializeProperties.
  rewrite (SerializeProperties_with_Ok _ serialized).
  2:{ intros k v Hk. by apply (Hentry k). }
  split; [done|].
  rewrite DeserializeProperties_Ok.
  2:{ intros k w. rewrite lookup_omap.
      destruct (m !! k) as [v|] eqn:Hk; simpl; [|done]. intros Hw.
      destruct (Hentry k v Hk) as (_ & Hback & _).
      assert (w = serialized v) as ->
        by (destruct (serialized v); simplify_eq/=; done).
      by rewrite (deserialized_Ok _ _ Hback). }
  f_equal. apply map_eq. intros k. unfold omittedMap.
  rewrite lookup_fmap, !lookup_omap, lookup_fmap.
  destruct (m !! k) as [v|] eqn:Hk; simpl; [|done].
  destruct (Hentry k v Hk) as (_ & Hback & Hnil).
  destruct (serialized v) eqn:Es; simpl;
    [by rewrite (proj1 Hnil eq_refl)|..];
    rewrite (deserialized_Ok _ _ Hback);
    (destruct (omitted v) eqn:Eo; [by discriminate (proj2 Hnil eq_refl)|done..]).
Qed.

(** C3 (as amended): a resource with a non-empty URN whose property maps
    hold no computed and no secret value, and no object that the probes
    take for an asset or archive, over an asset codec with a recoverable
    marker, is serialized and deserialized to a state with the same URN,
    Type, Custom, Delete and ID, the children sorted, and property maps
    that are value-equal to its own, a null entry being an omitted one:
    each map comes back with its entries, without those whose value is
    null or an output that has not materialized, at every object depth
    (in an array such a value keeps its place, as a null); an absent map
    comes back as an empty one. *)
Theorem C3_round_trip (res : resource.State Asset Archive) :
  RecoverableMarker →
  resource.URN res ≠ "" →
  StorableMap (resource.Inputs res) →
  StorableMap (resource.Defaults res) →
  StorableMap (resource.Outputs res) →
  roundTrip res
  = Ok {| resource.Type_ := resource.Type_ res;
          resource.URN := resource.URN res;
          resource.Custom := resource.Custom res;
          resource.Delete := resource.Delete res;
          resource.ID := resource.ID res;
          resource.Inputs := Some (omittedMap (default ∅ (resource.Inputs res)));
          resource.Defaults := Some (omittedMap (default ∅ (resource.Defaults res)));
          resource.Outputs := Some (omittedMap (default ∅ (resource.Outputs res)));
          resource.Children := sortStrings (resource.Children res) |}.
Proof.
  intros Hrec Hurn Hin Hdef Hout.
  destruct (StorableMap_roundtrip _ Hrec Hin) as (i & Hi & Hi').
  destruct (StorableMap_roundtrip _ Hrec Hdef) as (d & Hd & Hd').
  destruct (StorableMap_roundtrip _ Hrec Hout) as (o & Ho & Ho').
  unfold roundTrip, SerializeResource. simpl.
  apply String.eqb_neq in Hurn. rewrite Hurn. simpl.
  rewrite Hi, Hd, Ho. simpl.
  unfold DeserializeResource. simpl. by rewrite Hi', Hd', Ho'.
Qed.

(** C5: in the serialization of a property map a key whose value
    serializes to [nil] is absent and any other key holds the
    serialization of its value; the serialization of an array has the
    length of the array and holds at each index the serialization of the
    element, [nil] included. *)
Theorem C5_objects_drop_nil_arrays_keep_it
    (props : PropertyMap) (dst : gmap string wire)
    (arr : list PropertyValue) (dstv : wire) :
  SerializeProperties props = Ok dst →
  SerializePropertyValue (PArray arr) = Ok dstv →
  (∀ k v, props !! k = Some v →
     ∃ w, SerializePropertyValue v = Ok w
          ∧ dst !! k = match w with WNil => None | _ => Some w end)
  ∧ (∀ k, props !! k = None → dst !! k = None)
  ∧ ∃ dstarr, dstv = WArr dstarr ∧ length dstarr = length arr
      ∧ ∀ i v, arr !! i = Some v →
          ∃ w, SerializePropertyValue v = Ok w ∧ dstarr !! i = Some w.
Proof.
  intros Hprops Harr.
  apply SerializeProperties_Ok_inv in Hprops as [Hall ->].
  split; [|split].
  - intros k v Hk. exists (serialized v). split; [by apply (Hall k)|].
    rewrite lookup_omap, Hk. simpl. by destruct (serialized v).
  - intros k Hk. by rewrite lookup_omap, Hk.
  - rewrite SerializePropertyValue_array in Harr.
    apply bind_Ok_inv in Harr as (dstarr & Hmap & [= <-]).
    exists dstarr. split; [done|]. split; [by eapply mapM_Ok_length|].
    intros i v Hi. destruct (mapM_Ok_lookup _ _ _ _ _ Hmap Hi) as (w & ? & ?).
    eauto.
Qed.

(** C6: serializing a property value that is computed panics on the
    assertion; no value is returned for it. *)
Theorem C6_computed_is_refused (prop : PropertyValue) :
  resource.IsComputed prop = true →
  SerializePropertyValue prop = Panic "An assertion has failed"
  ∧ ∀ v, SerializePropertyValue prop ≠ Ok v.
Proof. destruct prop; try discriminate. intros _. by split. Qed.

(** C9: the record that [SerializeResource] returns has the URN, Type,
    Custom, Delete and ID of the resource; on a resource with an empty URN
    it panics instead. *)
Theorem C9_identity_copied_empty_urn_refused
    (res : resource.State Asset Archive) (r : Resource Asset Archive) :
  (SerializeResource (Some res) = Ok r →
     URN r = resource.URN res ∧ Type_ r = resource.Type_ res
     ∧ Custom r = resource.Custom res ∧ Delete r = resource.Delete res
     ∧ ID r = resource.ID res)
  ∧ (resource.URN res = "" →
     SerializeResource (Some res) = Panic "Unexpected empty resource resource.URN").
Proof.
  split.
  - intros H. unfold SerializeResource in H. simpl in H.
    apply bind_Ok_inv in H as (_ & _ & H).
    apply bind_Ok_inv in H as (inputs & _ & H).
    apply bind_Ok_inv in H as (defaults & _ & H).
    apply bind_Ok_inv in H as (outputs & _ & H).
    by injection H as <-.
  - intros E. unfold SerializeResource. simpl. by rewrite E.
Qed.
End stack_proofs.
End stack_proofs.

(** *** The codec on the sample data *)
Module stack_examples.
Import stack stack_spec stack_proofs.

Lemma KeptMap_Forall `{codec : AssetCodec Asset Archive}
    (m : gmap string (PropertyValue Asset Archive)) :
  map_Forall (λ _ v, Kept v) m → KeptMap (Some m).
Proof. intros H m' k v [= <-] Hk. by apply (H k). Qed.

Lemma KeptMap_None `{codec : AssetCodec Asset Archive} :
  KeptMap (None : option (gmap string (PropertyValue Asset Archive))).
Proof. by intros m k v. Qed.

Lemma Kept_array_Forall `{codec : AssetCodec Asset Archive}
    (arr : list (PropertyValue Asset Archive)) :
  Forall (λ v, v = PNull ∨ Kept v) arr → Kept (PArray arr).
Proof.
  intros H. constructor. intros i v Hi Hnn.
  by destruct (proj1 (Forall_lookup _ _) H i v Hi).
Qed.

Lemma Kept_object_Forall `{codec : AssetCodec Asset Archive}
    (obj : gmap string (PropertyValue Asset Archive)) :
  map_Forall (λ _ v, Kept v) obj →
  DeserializeAsset obj = None → DeserializeArchive obj = None →
  Kept (PObject obj).
Proof. intros H ? ?. constructor; [|done..]. intros k v Hk. by apply (H k). Qed.

Lemma textCodec_RecoverableMarker : RecoverableMarker (codec := sample.textCodec).
Proof.
  split.
  - intros a. exists {[ sample.SigKey := PString "asset"; "text" := PString a ]}.
    split; vm_compute; reflexivity.
  - intros a. exists {[ sample.SigKey := PString "archive"; "path" := PString a ]}.
    split; [|split]; vm_compute; reflexivity.
Qed.

Lemma keptInputs_KeptMap : KeptMap (Some sample.keptInputs).
Proof.
  apply KeptMap_Forall. unfold sample.keptInputs.
  repeat apply map_Forall_insert_2; [..|apply map_Forall_empty].
  - constructor.
  - apply Kept_array_Forall.
    constructor; [right; constructor|]. constructor; [by left|]. constructor.
  - apply Kept_object_Forall; [|vm_compute; reflexivity..].
    apply map_Forall_singleton. constructor.
  - constructor.
Qed.

Lemma C2_counterexample :
  Inputs sample.bareRecord = None
  ∧ DeserializeResource sample.bareRecord = Ok sample.bareState
  ∧ resource.Inputs sample.bareState = Some ∅
  ∧ resource.Inputs sample.bareState ≠ None.
Proof. repeat split; try (vm_compute; reflexivity). discriminate. Qed.

Lemma C2_witness :
  SerializeResource (Some (sample.state "urn:x" None [])) = Ok sample.outputsOnlyRecord
  ∧ DeserializeResource sample.bareRecord = Ok sample.bareState
  ∧ (resource.Inputs (sample.state "urn:x" None []) = None
     ↔ Inputs sample.outputsOnlyRecord = None)
  ∧ (resource.Outputs (sample.state "urn:x" None []) = None
     ↔ Outputs sample.outputsOnlyRecord = None)
  ∧ resource.Inputs sample.bareState = Some ∅.
Proof.
  assert (SerializeResource (Some (sample.state "urn:x" None []))
          = Ok sample.outputsOnlyRecord) as H1 by (vm_compute; reflexivity).
  assert (DeserializeResource sample.bareRecord = Ok sample.bareState) as H2
    by (vm_compute; reflexivity).
  pose proof (C2_absent_kept_by_serialize_only _ _ _ _ H1 H2)
    as ((Hin & _ & Hout) & _ & (Hback & _)).
  split; [exact H1|]. split; [exact H2|]. split; [exact Hin|].
  split; [exact Hout|]. apply Hback. reflexivity.
Defined.

Lemma C3_counterexample :
  codec_spec.anyComputed (Some fixtures.secretInputs) = false
  ∧ resource.URN (sample.state "urn:x" (Some fixtures.secretInputs) []) = "urn:x"
  ∧ SerializeProperties fixtures.secretInputs
    = Ok {[ "x" := WRaw (PSecret (PString "s")) ]}
  ∧ roundTrip (sample.state "urn:x" (Some fixtures.secretInputs) [])
    = Panic "Unrecognized property type".
Proof. repeat split; vm_compute; reflexivity. Qed.

(** A null entry is omitted, and this is all that happens to the map: in
    the sense of the spec the map that comes back is value-equal. *)
Example roundTrip_null_omitted :
  roundTrip (sample.state "urn:x" (Some sample.nullInputs) [])
  = Ok {| resource.Type_ := "pkg:index:Thing"; resource.URN := "urn:x";
          resource.Custom := true; resource.Delete := false;
          resource.ID := "id-1"; resource.Inputs := Some ∅;
          resource.Defaults := Some ∅; resource.Outputs := Some ∅;
          resource.Children := [] |}
  ∧ sample.nullInputs !! "x" = Some PNull
  ∧ omittedMap sample.nullInputs = ∅.
Proof. repeat split; vm_compute; reflexivity. Qed.

(** The other values: an output entry is omitted like a null one, a
    secret entry is passed through as it is and refused by the
    deserializer, and an object that carries the marker comes back as an
    asset. *)
Example roundTrip_output_dropped :
  roundTrip (sample.state "urn:x" (Some {[ "x" := POutput ]}) [])
  = roundTrip (sample.state "urn:x" (Some ∅) []).
Proof. vm_compute. reflexivity. Qed.

Example roundTrip_secret_refused :
  SerializeProperties ({[ "x" := PSecret (PString "s") ]}
                       : gmap string (PropertyValue string string))
  = Ok {[ "x" := WRaw (PSecret (PString "s")) ]}
  ∧ roundTrip (sample.state "urn:x" (Some {[ "x" := PSecret (PString "s") ]}) [])
    = Panic "Unrecognized property type".
Proof. split; vm_compute; reflexivity. Qed.

Example roundTrip_marked_object_is_an_asset :
  DeserializePropertyValue
    (serialized (PObject {[ sample.SigKey := PString "asset";
                            "text" := PString "hello" ]}))
  = Ok (PAsset "hello" : PropertyValue string string).
Proof. vm_compute. reflexivity. Qed.

Lemma StorableMap_Forall `{codec : AssetCodec Asset Archive}
    (m : gmap string (PropertyValue Asset Archive)) :
  map_Forall (λ _ v, Storable v) m → StorableMap (Some m).
Proof. intros H m' k v [= <-] Hk. by apply (H k). Qed.

Lemma StorableMap_None `{codec : AssetCodec Asset Archive} :
  StorableMap (None : option (gmap string (PropertyValue Asset Archive))).
Proof. by intros m k v. Qed.

Lemma Storable_array_Forall `{codec : AssetCodec Asset Archive}
    (arr : list (PropertyValue Asset Archive)) :
  Forall Storable arr → Storable (PArray arr).
Proof.
  intros H. constructor. intros i v Hi.
  by apply (proj1 (Forall_lookup _ _) H i v Hi).
Qed.

Lemma Storable_object_Forall `{codec : AssetCodec Asset Archive}
    (obj : gmap string (PropertyValue Asset Archive)) :
  map_Forall (λ _ v, Storable v) obj →
  DeserializeAsset (omittedMap obj) = None →
  DeserializeArchive (omittedMap obj) = None →
  Storable (PObject obj).
Proof. intros H ? ?. constructor; [|done..]. intros k v Hk. by apply (H k). Qed.

Lemma sparseInputs_StorableMap : StorableMap (Some fixtures.sparseInputs).
Proof.
  apply StorableMap_Forall. unfold fixtures.sparseInputs.
  repeat apply map_Forall_insert_2; [..|apply map_Forall_empty].
  - constructor.
  - constructor.
  - apply Storable_object_Forall; [|vm_compute; reflexivity..].
    repeat apply map_Forall_insert_2; [..|apply map_Forall_empty]; constructor.
  - apply Storable_array_Forall. repeat constructor.
  - constructor.
  - constructor.
Qed.

Lemma C3_witness :
  fixtures.sparseInputs !! "x" = Some PNull
  ∧ fixtures.sparseInputs !! "pending" = Some POutput
  ∧ omittedMap fixtures.sparseInputs = fixtures.denseInputs
  ∧ roundTrip (sample.state "urn:x" (Some fixtures.sparseInputs) ["b"; "a"; "c"])
    = Ok {| resource.Type_ := "pkg:index:Thing"; resource.URN := "urn:x";
            resource.Custom := true; resource.Delete := false;
            resource.ID := "id-1";
            resource.Inputs := Some (omittedMap fixtures.sparseInputs);
            resource.Defaults := Some (omittedMap ∅);
            resource.Outputs := Some (omittedMap ∅);
            resource.Children := ["a"; "b"; "c"] |}.
Proof.
  split; [vm_compute; reflexivity|]. split; [vm_compute; reflexivity|].
  split; [vm_compute; reflexivity|].
  apply (C3_round_trip (sample.state "urn:x" (Some fixtures.sparseInputs) ["b"; "a"; "c"])
           textCodec_RecoverableMarker).
  - discriminate.
  - exact sparseInputs_StorableMap.
  - exact StorableMap_None.
  - apply StorableMap_Forall, map_Forall_empty.
Defined.

Lemma C5_witness :
  SerializeProperties sample.nullAndString = Ok {[ "y" := WStr "v" ]}
  ∧ SerializePropertyValue (PArray sample.mixedArray)
    = Ok (WArr [WNum sample.one; WNil; WStr "x"])
  ∧ ({[ "y" := WStr "v" ]} : gmap string (wire string string)) !! "x" = None
  ∧ ∃ dstarr : list (wire string string),
      WArr [WNum sample.one; WNil; WStr "x"] = WArr dstarr
      ∧ length dstarr = 3%nat.
Proof.
  assert (SerializeProperties sample.nullAndString = Ok {[ "y" := WStr "v" ]}) as H1
    by (vm_compute; reflexivity).
  assert (SerializePropertyValue (PArray sample.mixedArray)
          = Ok (WArr [WNum sample.one; WNil; WStr "x"])) as H2
    by (vm_compute; reflexivity).
  pose proof (C5_objects_drop_nil_arrays_keep_it _ _ _ _ H1 H2)
    as (Hkeys & _ & dstarr & Harr & Hlen & _).
  split; [exact H1|]. split; [exact H2|]. split.
  - destruct (Hkeys "x" PNull) as (w & Hw & Hx); [vm_compute; reflexivity|].
    injection Hw as <-. exact Hx.
  - exists dstarr. split; [exact Harr|exact Hlen].
Defined.

Lemma C6_witness :
  resource.IsComputed (PComputed : PropertyValue string string) = true
  ∧ SerializePropertyValue (PComputed : PropertyValue string string)
    = Panic "An assertion has failed".
Proof.
  split; [reflexivity|].
  apply (C6_computed_is_refused (PComputed : PropertyValue string string)).
  reflexivity.
Defined.

Lemma C9_witness :
  SerializeResource (Some (sample.state "urn:x" None [])) = Ok sample.outputsOnlyRecord
  ∧ (URN sample.outputsOnlyRecord = "urn:x"
     ∧ Type_ sample.outputsOnlyRecord = "pkg:index:Thing"
     ∧ Custom sample.outputsOnlyRecord = true
     ∧ Delete sample.outputsOnlyRecord = false
     ∧ ID sample.outputsOnlyRecord = "id-1")
  ∧ resource.URN (sample.state "" None []) = ""
  ∧ SerializeResource (Some (sample.state "" None []))
    = Panic "Unexpected empty resource resource.URN".
Proof.
  assert (SerializeResource (Some (sample.state "urn:x" None []))
          = Ok sample.outputsOnlyRecord) as H1 by (vm_compute; reflexivity).
  split; [exact H1|]. split.
  - destruct (C9_identity_copied_empty_urn_refused
                (sample.state "urn:x" None []) sample.outputsOnlyRecord)
      as [Hcopy _].
    exact (Hcopy H1).
  - split; [reflexivity|].
    destruct (C9_identity_copied_empty_urn_refused
                (sample.state "" None []) sample.outputsOnlyRecord)
      as [_ Hempty].
    apply Hempty. reflexivity.
Defined.
End stack_examples.

(** ** Go strings *)
Module strings_proofs.

(** Strings as lists of bytes. *)
Lemma list_of_substring (n m : nat) (s : string) :
  list_ascii_of_string (substring n m s)
  = take m (drop n (list_ascii_of_string s)).
Proof.
  revert n m. induction s as [|c s IH]; intros [|n] [|m]; simpl; try done;
    by rewrite IH.
Qed.

Lemma list_of_append (s t : string) :
  list_ascii_of_string (s +:+ t)
  = (list_ascii_of_string s ++ list_ascii_of_string t)%list.
Proof. induction s as [|c s IH]; simpl; [done|]. by rewrite IH. Qed.

Lemma length_list_of_string (s : string) :
  length (list_ascii_of_string s) = String.length s.
Proof. induction s as [|c s IH]; simpl; [done|]. by rewrite IH. Qed.

Lemma list_of_string_inj (s t : string) :
  list_ascii_of_string s = list_ascii_of_string t → s = t.
Proof.
  intros H. rewrite <- (string_of_list_ascii_of_string s),
    <- (string_of_list_ascii_of_string t). by rewrite H.
Qed.

Lemma length_substring (n m : nat) (s : string) :
  String.length (substring n m s) = (m `min` (String.length s - n))%nat.
Proof.
  rewrite <- !length_list_of_string, list_of_substring.
  by rewrite length_take, length_drop.
Qed.

Lemma occursAt_true (s substr : string) (i : nat) :
  occursAt s substr i = true ↔ substring i (String.length substr) s = substr.
Proof. unfold occursAt. apply String.eqb_eq. Qed.

(** A non-empty string occurs within the bounds only. *)
Lemma occursAt_bound (s substr : string) (i : nat) :
  (0 < String.length substr)%nat → occursAt s substr i = true →
  (i + String.length substr ≤ String.length s)%nat.
Proof.
  intros Hpos H%occursAt_true.
  apply (f_equal String.length) in H. rewrite length_substring in H. lia.
Qed.

(** A string splits around an occurrence. *)
Lemma occursAt_split (s substr : string) (i : nat) :
  (0 < String.length substr)%nat → occursAt s substr i = true →
  s = substring 0 i s +:+ substr
      +:+ substring (i + String.length substr)
            (String.length s - (i + String.length substr)) s.
Proof.
  intros Hpos H. pose proof (occursAt_bound _ _ _ Hpos H) as Hb.
  apply occursAt_true in H. apply list_of_string_inj.
  rewrite !list_of_append, <- H at 1. rewrite !list_of_substring.
  rewrite drop_0.
  set (l := list_ascii_of_string s).
  assert (length l = String.length s) as Hl by apply length_list_of_string.
  rewrite (take_ge (drop (i + _) l)) by (rewrite length_drop; lia).
  rewrite <- (take_drop i l) at 1. f_equal.
  rewrite <- (take_drop (String.length substr) (drop i l)) at 1. f_equal.
  by rewrite drop_drop.
Qed.

Lemma lastIndexFrom_spec (s substr : string) (i : nat) :
  (lastIndexFrom s substr i = (-1)%Z
   ∧ ∀ j, (j ≤ i)%nat → occursAt s substr j = false)
  ∨ (∃ j, lastIndexFrom s substr i = Z.of_nat j ∧ (j ≤ i)%nat
          ∧ occursAt s substr j = true
          ∧ ∀ j', (j < j' ≤ i)%nat → occursAt s substr j' = false).
Proof.
  induction i as [|i IH]; simpl.
  - destruct (occursAt s substr 0) eqn:E.
    + right. exists 0%nat. repeat split; [done..|]. lia.
    + left. split; [done|]. intros j Hj. by replace j with 0%nat by lia.
  - destruct (occursAt s substr (S i)) eqn:E.
    + right. exists (S i). repeat split; [done..|]. lia.
    + destruct IH as [[H1 H2]|(j & H1 & H2 & H3 & H4)].
      * left. split; [done|]. intros j Hj.
        destruct (decide (j = S i)) as [->|]; [done|]. apply H2. lia.
      * right. exists j. repeat split; [done|lia|done|].
        intros j' Hj'. destruct (decide (j' = S i)) as [->|]; [done|].
        apply H4. lia.
Qed.

(** [LastIndex] of a non-empty string: [-1] when there is no occurrence,
    else the offset of the last one. *)
Lemma LastIndex_spec (s substr : string) :
  (0 < String.length substr)%nat →
  (LastIndex s substr = (-1)%Z ∧ ∀ j, occursAt s substr j = false)
  ∨ (∃ j, LastIndex s substr = Z.of_nat j
          ∧ occursAt s substr j = true
          ∧ (j + String.length substr ≤ String.length s)%nat
          ∧ ∀ j', (j < j')%nat → occursAt s substr j' = false).
Proof.
  intros Hpos. unfold LastIndex.
  assert (∀ j, (String.length s - String.length substr < j)%nat →
            occursAt s substr j = false) as Hbeyond.
  { intros j Hj. destruct (occursAt s substr j) eqn:E; [|done].
    apply occursAt_bound in E; [lia|done]. }
  destruct (decide _) as [Hle|Hgt].
  - destruct (lastIndexFrom_spec s substr (String.length s - String.length substr))
      as [[H1 H2]|(j & H1 & H2 & H3 & H4)].
    + left. split; [done|]. intros j.
      destruct (decide (j ≤ String.length s - String.length substr)%nat);
        [by apply H2|apply Hbeyond; lia].
    + right. exists j. repeat split; [done..|by apply occursAt_bound|].
      intros j' Hj'.
      destruct (decide (j' ≤ String.length s - String.length substr)%nat);
        [apply H4; lia|apply Hbeyond; lia].
  - left. split; [done|]. intros j. destruct (occursAt s substr j) eqn:E; [|done].
    apply occursAt_bound in E; [lia|done].
Qed.
End strings_proofs.

(** ** The construct adapter *)
Module pulumi_proofs.
Import pulumi pulumi_spec strings_proofs.

(** *** Provider references *)

Lemma length_zero_empty (s : string) : String.length s = 0%nat → s = "".
Proof. by destruct s. Qed.

Lemma parseProviderReference_found (ref : string) (j : nat) :
  LastIndex ref "::" = Z.of_nat j →
  parseProviderReference ref
  = Ok {| providerURN := substring 0 j ref;
          providerID := substring (j + 2) (String.length ref - (j + 2)) ref |}.
Proof.
  intros H. unfold parseProviderReference. rewrite H.
  destruct (LastIndex_spec ref "::") as [[H1 _]|(j' & H1 & _ & Hb & _)];
    [simpl; lia|lia|].
  assert (j' = j) as -> by lia. simpl in Hb.
  rewrite decide_False by lia.
  unfold sliceFrom, slice.
  rewrite decide_True by lia. simpl.
  rewrite decide_True by lia. simpl.
  repeat f_equal; lia.
Qed.

Lemma parseProviderReference_absent (ref : string) :
  LastIndex ref "::" = (-1)%Z →
  parseProviderReference ref = Err ("expected '::' in provider reference " +:+ ref).
Proof. intros H. unfold parseProviderReference. rewrite H. by rewrite decide_True. Qed.

(** Parsing a reference returns a provider or the error; it never panics. *)
Lemma parseProviderReference_cases (ref : string) :
  (LastIndex ref "::" = (-1)%Z
   ∧ parseProviderReference ref
     = Err ("expected '::' in provider reference " +:+ ref))
  ∨ (∃ j, LastIndex ref "::" = Z.of_nat j
          ∧ parseProviderReference ref
            = Ok {| providerURN := substring 0 j ref;
                    providerID := substring (j + 2) (String.length ref - (j + 2)) ref |}).
Proof.
  destruct (LastIndex_spec ref "::") as [[H1 _]|(j & H1 & _)]; [simpl; lia|..].
  - left. split; [done|]. by apply parseProviderReference_absent.
  - right. exists j. split; [done|]. by apply parseProviderReference_found.
Qed.

(** *** The steps of [construct] *)

Section construct_proofs.
Context `{rt : Runtime Asset Archive Struct}.

Lemma construct_phases (req : ConstructRequest Struct) (engineConn : Conn)
    (constructF : constructFunc) :
  construct req engineConn constructF
  = '(ctx0, inputs) ← decodePhase req engineConn;
    opts ← optionsPhase req;
    '(pulumiCtx, rpcURN, resolvedProps, propertyDeps) ←
      resolvePhase req constructF ctx0 inputs opts;
    encodePhase req pulumiCtx rpcURN resolvedProps propertyDeps.
Proof.
  unfold construct, decodePhase, optionsPhase, resolvePhase, encodePhase.
  destruct (NewContext _) as [ctx0|e]; simpl; [|done].
  destruct (UnmarshalProperties _ _) as [dins|e]; simpl; [|done].
  destruct (rangeM (constructInputOf _ _) _) as [inputs| |]; simpl; [|done..].
  destruct (rangeM _ (GetProviders req)) as [providers| |]; simpl; [|done..].
  destruct (constructF _ _ _ _ _) as [ctx1 [[urn state]|e]]; simpl; [|done].
  destruct (rpcError _); simpl; [done|].
  destruct (awaitURN _) as [rpcURN|e]; simpl; [|done].
  destruct (marshalInputs _) as [[props deps]|e]; simpl; [|done].
  done.
Qed.

Lemma decodePhase_cases (req : ConstructRequest Struct) (engineConn : Conn) :
  (∃ r, decodePhase req engineConn = Ok r) ∨ (∃ e, decodePhase req engineConn = Err e).
Proof.
  unfold decodePhase.
  destruct (NewContext _) as [ctx0|e]; simpl; [|eauto].
  destruct (UnmarshalProperties _ _) as [dins|e]; simpl; [|eauto].
  destruct (rangeM_result (constructInputOf ctx0 (GetInputDependencies req)) dins)
    as [[inputs ->]|(k & a & _ & Hf & ->)]; simpl; [eauto|].
  right. unfold constructInputOf in *.
  destruct (unmarshalPropertyValue ctx0 a) as [[v sec]|e]; simpl in *; [done|eauto].
Qed.

Lemma optionsPhase_Ok_inv (req : ConstructRequest Struct) opts pkg ref :
  optionsPhase req = Ok opts → GetProviders req !! pkg = Some ref →
  ∃ p, parseProviderReference ref = Ok p ∧ Providers opts !! pkg = Some p.
Proof.
  unfold optionsPhase. intros H Hpkg.
  apply bind_Ok_inv in H as (providers & Hr & [= <-]). simpl.
  by apply (rangeM_Ok_inv _ _ _ _ _ Hr Hpkg).
Qed.

(** A reference without separator fails the rebuilding of the options,
    with the error of [construct] for this or another such reference. *)
Lemma optionsPhase_missing_separator (req : ConstructRequest Struct) pkg ref :
  GetProviders req !! pkg = Some ref → LastIndex ref "::" = (-1)%Z →
  ∃ pkg' ref', GetProviders req !! pkg' = Some ref'
    ∧ LastIndex ref' "::" = (-1)%Z
    ∧ optionsPhase req = Err ("expected '::' in provider reference " +:+ ref').
Proof.
  intros Hpkg Hno. unfold optionsPhase.
  destruct (rangeM_result (λ _ r, parseProviderReference r) (GetProviders req))
    as [[providers Hr]|(pkg' & ref' & Hpkg' & Hf & E)].
  - pose proof (rangeM_failure (λ _ r, parseProviderReference r)
                  (GetProviders req) pkg ref Hpkg) as F.
    rewrite Hr in F. simpl in F.
    rewrite parseProviderReference_absent in F by done. by discriminate F.
  - exists pkg', ref'. split; [done|].
    destruct (parseProviderReference_cases ref') as [[Hno' Hp]|(j & _ & Hp)].
    + split; [done|]. by rewrite E, Hp.
    + by rewrite Hp in Hf.
Qed.

(** C4 (as amended): for every Providers entry [pkg → ref] of a request,
    the package is the key of the entry; a reference whose last separator
    ["::"] is at offset [j] is the URN before it, the separator and the ID
    after it, and the rebuilt options hold this provider under [pkg]; when
    the reference has no separator the call returns an error, the same
    whatever the construction routine, and no response. *)
Theorem C4_reference_split_at_last_separator
    (req : ConstructRequest Struct) (engineConn : Conn) (pkg ref : string) :
  GetProviders req !! pkg = Some ref →
  (∀ j, LastIndex ref "::" = Z.of_nat j →
     let urn := substring 0 j ref in
     let id := substring (j + 2) (String.length ref - (j + 2)) ref in
     ref = urn +:+ "::" +:+ id
     ∧ (∀ j', (j < j')%nat → occursAt ref "::" j' = false)
     ∧ parseProviderReference ref = Ok (newDependencyProviderResource urn id)
     ∧ ∀ opts, optionsPhase req = Ok opts →
         Providers opts !! pkg = Some (newDependencyProviderResource urn id))
  ∧ ((∀ j, occursAt ref "::" j = false) →
     ∃ e, ∀ constructF, construct req engineConn constructF = Err e).
Proof.
  intros Hpkg. split.
  - intros j Hj urn id.
    destruct (LastIndex_spec ref "::") as [[H1 _]|(j' & H1 & Hocc & Hb & Hlast)];
      [simpl; lia|lia|].
    assert (j' = j) as -> by lia.
    pose proof (parseProviderReference_found ref j Hj) as Hparse.
    split; [|split; [done|split; [done|]]].
    + by apply (occursAt_split ref "::" j); [simpl; lia|].
    + intros opts Hopts.
      destruct (optionsPhase_Ok_inv req opts pkg ref Hopts Hpkg) as (p & Hp & ->).
      rewrite Hparse in Hp. by injection Hp as <-.
  - intros Hnone.
    assert (LastIndex ref "::" = (-1)%Z) as Hno.
    { destruct (LastIndex_spec ref "::") as [[H1 _]|(j & _ & Hocc & _)];
        [simpl; lia|done|]. by rewrite Hnone in Hocc. }
    destruct (optionsPhase_missing_separator req pkg ref Hpkg Hno)
      as (pkg' & ref' & _ & _ & Hopts).
    destruct (decodePhase_cases req engineConn) as [[[ctx0 inputs] Hd]|[e Hd]].
    + eexists. intros constructF. rewrite construct_phases, Hd. simpl.
      by rewrite Hopts.
    + exists e. intros constructF. by rewrite construct_phases, Hd.
Qed.

End construct_proofs.

Section dry_run.
Context `{rt : Runtime Asset Archive (gmap string (PropertyValue Asset Archive))}.

(** C7: the options of both marshalers keep unknowns exactly when the
    request is a dry run; with the marshaler of the spec, a call that
    reaches the encoding with an unknown in the resolved state returns the
    response, unknown included, when it is a dry run, and the marshaler's
    error when it is not. *)
Theorem C7_unknowns_kept_iff_dry_run
    (req : ConstructRequest (gmap string (PropertyValue Asset Archive)))
    (engineConn : Conn) (constructF : constructFunc)
    (pulumiCtx : Context_) (rpcURN : string)
    (resolvedProps : gmap string (PropertyValue Asset Archive))
    (propertyDeps rpcPropertyDeps : gmap string (list string)) :
  (∀ props opts,
     MarshalProperties props opts = plugin.MarshalProperties props opts) →
  reachesEncode req engineConn constructF pulumiCtx rpcURN resolvedProps propertyDeps →
  plugin.anyUnknown resolvedProps = true →
  rangeM (λ _ deps, propertyDependencies deps) propertyDeps = Ok rpcPropertyDeps →
  KeepUnknowns (unmarshalOptions req) = GetDryRun req
  ∧ KeepUnknowns (marshalOptions req pulumiCtx) = GetDryRun req
  ∧ (GetDryRun req = true →
     construct req engineConn constructF
     = Ok {| Urn := rpcURN; State := resolvedProps;
             StateDependencies := rpcPropertyDeps |})
  ∧ (GetDryRun req = false →
     construct req engineConn constructF
     = Err "marshaling properties: unexpected unknown property value").
Proof.
  intros Hmarshal (ctx0 & inputs & opts & Hd & Ho & Hr) Hunknown Hdeps.
  split; [done|]. split; [done|].
  assert (construct req engineConn constructF
          = encodePhase req pulumiCtx rpcURN resolvedProps propertyDeps) as ->.
  { rewrite construct_phases, Hd. simpl. rewrite Ho. simpl. by rewrite Hr. }
  unfold encodePhase. rewrite Hmarshal. unfold plugin.MarshalProperties.
  rewrite Hunknown. simpl.
  split; intros ->; simpl; [|done]. by rewrite Hdeps.
Qed.
End dry_run.

(** *** The dependency lists *)

(** Without duplicates the loop keeps every URN: [urns] is the list of
    the URNs seen so far, and the one read at [i - 1] is the last seen. *)
Lemma dedupLoop_NoDup (deps urns : list string) :
  NoDup (urns ++ deps)%list →
  dedupLoop deps (length urns) urns = Ok (urns ++ deps)%list.
Proof.
  revert urns. induction deps as [|d deps IH]; intros urns Hnd; simpl.
  { by rewrite app_nil_r. }
  assert (dedupLoop deps (S (length urns)) (urns ++ [d])
          = Ok (urns ++ d :: deps)%list) as Hnext.
  { replace (S (length urns)) with (length (urns ++ [d])%list)
      by (rewrite length_app; simpl; lia).
    rewrite IH; rewrite <- app_assoc; done. }
  destruct urns as [|u urns _] using rev_ind; [done|].
  rewrite bool_decide_eq_true_2 by (rewrite length_app; simpl; lia).
  unfold index.
  replace (length (urns ++ [u])%list - 1)%nat with (length urns)
    by (rewrite length_app; simpl; lia).
  rewrite lookup_app_r, Nat.sub_diag by done. simpl.
  assert (u ≠ d) as Hne.
  { intros ->. rewrite <- app_assoc in Hnd. simpl in Hnd.
    apply NoDup_app in Hnd as (_ & _ & Hnd). apply NoDup_cons in Hnd as [Hd _].
    apply Hd. by left. }
  apply String.eqb_neq in Hne. by rewrite Hne.
Qed.

(** A dependency list without duplicates is emitted sorted. *)
Lemma propertyDependencies_NoDup (deps : list string) :
  NoDup deps → propertyDependencies deps = Ok (sortStrings deps).
Proof.
  intros Hnd. unfold propertyDependencies.
  apply (dedupLoop_NoDup (sortStrings deps) []). simpl.
  by rewrite sortStrings_Permutation.
Qed.

(** C1 (the defect): on the dependency list [["b";"a";"a";"c"]] of the
    spec the loop panics, it reads [urns[i-1]] past the end of [urns]
    once a duplicate has been skipped; expected is [["a";"b";"c"]]. *)
Theorem C1_duplicate_then_more_panics :
  sortStrings ["b"; "a"; "a"; "c"] = ["a"; "a"; "b"; "c"]
  ∧ propertyDependencies ["b"; "a"; "a"; "c"] = Panic "index out of range"
  ∧ construct (sample.request false ∅) tt
      (sample.routine {[ "out" := PString "v" ]} {[ "out" := ["b"; "a"; "a"; "c"] ]})
    = Panic "index out of range".
Proof. repeat split; vm_compute; reflexivity. Qed.

(** C10 (as amended): a reference in which ["::"] occurs parses, whatever
    its parts: it is the URN, the separator and the ID; the ID is empty
    when the reference ends in ["::"], and the URN is empty when the only
    occurrence of ["::"] is at offset 0.  The error is returned exactly
    when ["::"] does not occur. *)
Theorem C10_no_validation_of_the_parts (ref : string) :
  (parseProviderReference ref
   = Err ("expected '::' in provider reference " +:+ ref)
   ↔ ∀ j, occursAt ref "::" j = false)
  ∧ ((∃ j, occursAt ref "::" j = true) →
     ∃ urn id,
       parseProviderReference ref = Ok (newDependencyProviderResource urn id)
       ∧ ref = urn +:+ "::" +:+ id
       ∧ (HasSuffix ref "::" = true → id = "")
       ∧ (LastIndex ref "::" = 0%Z → urn = "")).
Proof.
  destruct (LastIndex_spec ref "::") as [[Hno Hnone]|(j & Hj & Hocc & Hb & Hlast)];
    [simpl; lia|..].
  - split.
    + split; [done|]. intros _. by apply parseProviderReference_absent.
    + intros [j Hj]. by rewrite Hnone in Hj.
  - pose proof (parseProviderReference_found ref j Hj) as Hparse. split.
    + rewrite Hparse. split; [done|]. intros Hnone. by rewrite Hnone in Hocc.
    + intros _. eexists _, _. split; [exact Hparse|]. simpl in Hb.
      split; [by apply (occursAt_split ref "::" j); [simpl; lia|]|]. split.
      * intros [_ Hsuf]%andb_prop. simpl in Hsuf.
        assert (j = String.length ref - 2)%nat as ->.
        { destruct (decide (j < String.length ref - 2)%nat) as [Hlt|]; [|lia].
          by rewrite (Hlast _ Hlt) in Hsuf. }
        apply length_zero_empty. rewrite length_substring. lia.
      * intros H0. assert (j = 0%nat) as -> by lia.
        apply length_zero_empty. rewrite length_substring. lia.
Qed.

(** *** Binding the inputs to the fields *)
Section binder.
Context {Host : Type} `{refl : Reflection}.

Lemma setField_untagged (k : string) (val : constructInput Host)
    (field : StructField Host) :
  Tag_Lookup (Tag field) "pulumi" = None → setField k val field = Ok field.
Proof. intros H. unfold setField. rewrite H. by destruct (CanSet field). Qed.

Lemma setField_other_name (k : string) (val : constructInput Host)
    (field : StructField Host) tag :
  Tag_Lookup (Tag field) "pulumi" = Some tag → k ≠ tag →
  setField k val field = Ok field.
Proof.
  intros H Hne. unfold setField. rewrite H.
  assert (String.eqb tag k = false) as -> by (apply String.eqb_neq; congruence).
  by destruct (CanSet field).
Qed.

Lemma setField_skipped (k : string) (val : constructInput Host)
    (field : StructField Host) :
  CanSet field = false ∨ ImplementsInput (Type_ field) = false
    ∨ outputTypeFor (Type_ field) = None →
  setField k val field = Ok field.
Proof.
  intros H. unfold setField.
  destruct (CanSet field); simpl; [|done].
  destruct (Tag_Lookup _ _) as [tag|]; [|done].
  destruct (String.eqb tag k); simpl; [|done].
  destruct (ImplementsInput _); simpl; [|done].
  destruct (outputTypeFor _); [|done]. by destruct H as [?|[?|?]].
Qed.

Lemma setField_populates (k : string) (val : constructInput Host)
    (field : StructField Host) outputType :
  Tag_Lookup (Tag field) "pulumi" = Some k →
  CanSet field = true → ImplementsInput (Type_ field) = true →
  outputTypeFor (Type_ field) = Some outputType →
  AssignableTo outputType (Type_ field) = true →
  setField k val field = Ok (populated field val outputType).
Proof.
  intros Htag Hset Hin Hout Hassign. unfold setField.
  rewrite Hset, Htag, String.eqb_refl, Hin, Hout. simpl.
  unfold Set_. simpl. by rewrite Hassign.
Qed.

Lemma constructInputsSetArgs_singleton (k : string) (val : constructInput Host)
    (fields : list (StructField Host)) :
  constructInputsSetArgs {[ k := IConstructInput val ]} (ArgsPtrToStruct fields)
  = mapM (setField k val) fields.
Proof. unfold constructInputsSetArgs. by rewrite map_to_list_singleton. Qed.

(** C8 (as amended): on a pointer to a struct of one field tagged
    [pulumi:"tag"] and one field without that tag, in either order,
    binding the single input [k]: when [k] is not the tag, or the tagged
    field cannot be set, or its type does not implement [Input], or its
    [To...Output] method has not the expected shape, no field changes and
    no error is returned; when [k] is the tag and the field passes these
    checks, with an output type assignable to it, the tagged field alone
    changes: it holds a new output of that type, resolved to the value of
    the input, known, with its secret flag and its dependencies. *)
Theorem C8_binder_isolation (tagged untagged : StructField Host)
    (tag k : string) (val : constructInput Host) (taggedFirst : bool) :
  Tag_Lookup (Tag tagged) "pulumi" = Some tag →
  Tag_Lookup (Tag untagged) "pulumi" = None →
  let fields := if taggedFirst then [tagged; untagged] else [untagged; tagged] in
  let run := constructInputsSetArgs {[ k := IConstructInput val ]}
               (ArgsPtrToStruct fields) in
  (k ≠ tag → run = Ok fields)
  ∧ (CanSet tagged = false ∨ ImplementsInput (Type_ tagged) = false
       ∨ outputTypeFor (Type_ tagged) = None →
     run = Ok fields)
  ∧ (∀ outputType,
       k = tag → CanSet tagged = true → ImplementsInput (Type_ tagged) = true →
       outputTypeFor (Type_ tagged) = Some outputType →
       AssignableTo outputType (Type_ tagged) = true →
       run = Ok (if taggedFirst then [populated tagged val outputType; untagged]
                 else [untagged; populated tagged val outputType])).
Proof.
  intros Htag Hnotag fields run. subst fields run.
  rewrite constructInputsSetArgs_singleton.
  pose proof (setField_untagged k val untagged Hnotag) as Hu.
  split; [|split].
  - intros Hne. pose proof (setField_other_name k val tagged tag Htag Hne) as Ht.
    destruct taggedFirst; simpl; by rewrite Hu, Ht.
  - intros Hskip. pose proof (setField_skipped k val tagged Hskip) as Ht.
    destruct taggedFirst; simpl; by rewrite Hu, Ht.
  - intros outputType -> Hset Hin Hout Hassign.
    pose proof (setField_populates tag val tagged outputType
                  Htag Hset Hin Hout Hassign) as Ht.
    destruct taggedFirst; simpl; by rewrite Hu, Ht.
Qed.
End binder.
End pulumi_proofs.

(** *** The adapter on the sample data *)
Module pulumi_examples.
Import pulumi pulumi_spec pulumi_proofs.

Lemma C4_counterexample :
  parseProviderReference "aws::urn::part::with::colons::pid"
  = Ok (newDependencyProviderResource "aws::urn::part::with::colons" "pid")
  ∧ "aws::urn::part::with::colons" ≠ "urn::part::with::colons"
  ∧ optionsPhase
      (sample.request false {[ "aws" := "aws::urn::part::with::colons::pid" ]})
    = Ok {| Aliases := []; DependsOn := []; Protect := false;
            Providers :=
              {[ "aws" := newDependencyProviderResource
                            "aws::urn::part::with::colons" "pid" ]};
            Parent := None |}.
Proof. repeat split; try (vm_compute; reflexivity). discriminate. Qed.

Lemma C4_witness :
  GetProviders (sample.request false {[ "aws" := "urn::part::with::colons::pid" ]})
    !! "aws" = Some "urn::part::with::colons::pid"
  ∧ parseProviderReference "urn::part::with::colons::pid"
    = Ok (newDependencyProviderResource "urn::part::with::colons" "pid")
  ∧ GetProviders (sample.request false {[ "aws" := "nosep" ]}) !! "aws"
    = Some "nosep"
  ∧ ∃ e, ∀ constructF,
      construct (sample.request false {[ "aws" := "nosep" ]}) tt constructF = Err e.
Proof.
  assert (GetProviders
            (sample.request false {[ "aws" := "urn::part::with::colons::pid" ]})
            !! "aws" = Some "urn::part::with::colons::pid") as H1
    by (vm_compute; reflexivity).
  assert (GetProviders (sample.request false {[ "aws" := "nosep" ]}) !! "aws"
          = Some "nosep") as H2 by (vm_compute; reflexivity).
  split; [exact H1|]. split.
  - destruct (C4_reference_split_at_last_separator (rt := sample.runtime) _ tt _ _ H1) as [Hsplit _].
    destruct (Hsplit 23%nat) as (_ & _ & Hparse & _); [vm_compute; reflexivity|].
    exact Hparse.
  - split; [exact H2|].
    destruct (C4_reference_split_at_last_separator (rt := sample.runtime) _ tt _ _ H2) as [_ Hfail].
    apply Hfail. intros j.
    destruct (strings_proofs.LastIndex_spec "nosep" "::") as [[_ Hnone]|(i & Hi & _)].
    + simpl. lia.
    + apply Hnone.
    + assert (LastIndex "nosep" "::" = (-1)%Z) as E by (vm_compute; reflexivity).
      rewrite E in Hi. lia.
Defined.

Lemma C7_witness :
  plugin.anyUnknown ({[ "out" := PComputed ]} : gmap string (PropertyValue string string))
  = true
  ∧ construct (sample.request true ∅) tt
      (sample.routine {[ "out" := PComputed ]} {[ "out" := ["b"; "a"; "c"] ]})
    = Ok {| Urn := "urn:comp"; State := {[ "out" := PComputed ]};
            StateDependencies := {[ "out" := ["a"; "b"; "c"] ]} |}
  ∧ construct (sample.request false ∅) tt
      (sample.routine {[ "out" := PComputed ]} {[ "out" := ["b"; "a"; "c"] ]})
    = Err "marshaling properties: unexpected unknown property value".
Proof.
  assert (∀ dryRun,
            reachesEncode (sample.request dryRun ∅) tt
              (sample.routine {[ "out" := PComputed ]} {[ "out" := ["b"; "a"; "c"] ]})
              tt "urn:comp" {[ "out" := PComputed ]} {[ "out" := ["b"; "a"; "c"] ]})
    as Hreach.
  { intros dryRun. unfold reachesEncode.
    exists tt,
      {[ "size" := IConstructInput
                     {| value := PString "small"; secret := false;
                        deps := [newDependencyResource "urn:dep"] |} ]},
      {| Aliases := []; DependsOn := []; Protect := false; Providers := ∅;
         Parent := None |}.
    destruct dryRun; repeat split; vm_compute; reflexivity. }
  assert (rangeM (λ _ deps, propertyDependencies deps)
            ({[ "out" := ["b"; "a"; "c"] ]} : gmap string (list string))
          = Ok {[ "out" := ["a"; "b"; "c"] ]}) as Hdeps by (vm_compute; reflexivity).
  assert (plugin.anyUnknown
            ({[ "out" := PComputed ]} : gmap string (PropertyValue string string))
          = true) as Hunknown by (vm_compute; reflexivity).
  split; [exact Hunknown|]. split.
  - apply (C7_unknowns_kept_iff_dry_run (rt := sample.runtime) (sample.request true ∅) tt _ tt "urn:comp"
             {[ "out" := PComputed ]} _ _ (λ _ _, eq_refl) (Hreach true)
             Hunknown Hdeps).
    reflexivity.
  - apply (C7_unknowns_kept_iff_dry_run (rt := sample.runtime) (sample.request false ∅) tt _ tt "urn:comp"
             {[ "out" := PComputed ]} _ _ (λ _ _, eq_refl) (Hreach false)
             Hunknown Hdeps).
    reflexivity.
Defined.

Lemma C8_counterexample :
  Tag_Lookup (Tag (sample.taggedField false)) "pulumi" = Some "name"
  ∧ Tag_Lookup (Tag sample.untaggedField) "pulumi" = None
  ∧ constructInputsSetArgs {[ "name" := IConstructInput sample.nameInput ]}
      (ArgsPtrToStruct [sample.taggedField false; sample.untaggedField])
    = Ok [sample.taggedField false; sample.untaggedField]
  ∧ Value (sample.taggedField false) = VOther PNull.
Proof. repeat split; vm_compute; reflexivity. Qed.

Lemma C8_witness :
  constructInputsSetArgs {[ "name" := IConstructInput sample.nameInput ]}
    (ArgsPtrToStruct [sample.taggedField true; sample.untaggedField])
  = Ok [populated (sample.taggedField true) sample.nameInput sample.stringOutputT;
        sample.untaggedField]
  ∧ constructInputsSetArgs {[ "other" := IConstructInput sample.nameInput ]}
      (ArgsPtrToStruct [sample.taggedField true; sample.untaggedField])
    = Ok [sample.taggedField true; sample.untaggedField].
Proof.
  split.
  - destruct (C8_binder_isolation (sample.taggedField true) sample.untaggedField
                "name" "name" sample.nameInput true eq_refl eq_refl)
      as (_ & _ & Hname).
    apply Hname; reflexivity.
  - destruct (C8_binder_isolation (sample.taggedField true) sample.untaggedField
                "name" "other" sample.nameInput true eq_refl eq_refl)
      as (Hother & _ & _).
    apply Hother. discriminate.
Defined.

Lemma C10_counterexample :
  HasPrefix "::a::b" "::" = true
  ∧ parseProviderReference "::a::b" = Ok (newDependencyProviderResource "::a" "b")
  ∧ "::a" ≠ "".
Proof. repeat split; try (vm_compute; reflexivity). discriminate. Qed.

Lemma C10_witness :
  occursAt "urn::" "::" 3 = true
  ∧ ∃ urn id,
      parseProviderReference "urn::" = Ok (newDependencyProviderResource urn id)
      ∧ "urn::" = urn +:+ "::" +:+ id
      ∧ (HasSuffix "urn::" "::" = true → id = "")
      ∧ (LastIndex "urn::" "::" = 0%Z → urn = "").
Proof.
  split; [reflexivity|].
  apply (C10_no_validation_of_the_parts "urn::"). exists 3%nat. reflexivity.
Defined.
End pulumi_examples.

(** * Further properties *)

(** ** Loops that fail in one way only *)
Module loops_proofs.

Lemma mapM_failure {A B} (f : A → outcome B) (l : list A) i x :
  l !! i = Some x → is_Ok (f x) = false → is_Ok (mapM f l) = false.
Proof.
  revert i. induction l as [|y l IH]; intros i Hi Hf; [done|]. simpl.
  destruct i as [|i]; simpl in Hi.
  - injection Hi as ->. by destruct (f x).
  - destruct (f y); simpl; [|done..].
    specialize (IH i Hi Hf). by destruct (mapM f l).
Qed.

Lemma mapM_closed {A B} (f : A → outcome B) (l : list A) msg :
  (∀ i x, l !! i = Some x → (∃ y, f x = Ok y) ∨ f x = Panic msg) →
  (∃ k, mapM f l = Ok k) ∨ mapM f l = Panic msg.
Proof.
  induction l as [|x l IH]; intros H; simpl; [by eauto|].
  destruct (H 0%nat x eq_refl) as [[y ->]| ->]; simpl; [|by right].
  destruct IH as [[k ->]| ->]; simpl; [|by eauto|by right].
  intros i x' Hi. by apply (H (S i)).
Qed.

Lemma collectM_closed {A} (entries : list (string * outcome A)) msg :
  (∀ k o, (k, o) ∈ entries → (∃ a, o = Ok a) ∨ o = Panic msg) →
  (∃ m, collectM entries = Ok m) ∨ collectM entries = Panic msg.
Proof.
  intros H. destruct (collectM_result entries) as [?|(k & o & Hin & Ho & ->)];
    [by left|].
  right. destruct (H k o Hin) as [[a ->]| ->]; [done|reflexivity].
Qed.

(** The disjunction of a map of booleans, as [reachesComputed] and its
    like compute it. *)
Lemma map_fold_orb_true {A} (f : A → bool) (m : gmap string A) :
  map_fold (λ _ (b acc : bool), b || acc) false (f <$> m) = true
  ↔ ∃ k a, m !! k = Some a ∧ f a = true.
Proof.
  rewrite map_fold_foldr, map_to_list_fmap.
  assert (∀ l : list (string * A),
            foldr (uncurry (λ _ (b acc : bool), b || acc)) false (prod_map id f <$> l)
            = true ↔ ∃ k a, (k, a) ∈ l ∧ f a = true) as Hl.
  { induction l as [|[k a] l IH]; simpl.
    - split; [done|]. intros (k & a & Hin & _). by inversion Hin.
    - rewrite orb_true_iff, IH. split.
      + intros [Hf|(k' & a' & Hin & Hf)].
        * exists k, a. split; [by left|done].
        * exists k', a'. split; [by right|done].
      + intros (k' & a' & [[= -> ->]|Hin]%elem_of_cons & Hf); [by left|].
        right. eauto. }
  rewrite Hl. split.
  - intros (k & a & Hin%elem_of_map_to_list & Hf). eauto.
  - intros (k & a & Hin & Hf). exists k, a. split; [|done].
    by apply elem_of_map_to_list.
Qed.

Lemma map_fold_orb_false {A} (f : A → bool) (m : gmap string A) :
  map_fold (λ _ (b acc : bool), b || acc) false (f <$> m) = false
  ↔ ∀ k a, m !! k = Some a → f a = false.
Proof.
  split.
  - intros H k a Hk. destruct (f a) eqn:E; [|done].
    assert (map_fold (λ _ (b acc : bool), b || acc) false (f <$> m) = true) as H'
      by (apply map_fold_orb_true; eauto).
    congruence.
  - intros H. destruct (map_fold _ _ _) eqn:E; [|done].
    apply map_fold_orb_true in E as (k & a & Hk & Hf).
    rewrite (H k a Hk) in Hf. discriminate.
Qed.

Lemma existsb_lookup_true {A} (f : A → bool) (l : list A) :
  existsb f l = true ↔ ∃ i x, l !! i = Some x ∧ f x = true.
Proof.
  rewrite existsb_exists. split.
  - intros (x & Hin%list_elem_of_In & Hf).
    apply list_elem_of_lookup in Hin as [i Hi]. eauto.
  - intros (i & x & Hi & Hf). exists x. split; [|done].
    apply list_elem_of_In. by eapply list_elem_of_lookup_2.
Qed.

Lemma existsb_lookup_false {A} (f : A → bool) (l : list A) :
  existsb f l = false ↔ ∀ i x, l !! i = Some x → f x = false.
Proof.
  split.
  - intros H i x Hi. destruct (f x) eqn:E; [|done].
    assert (existsb f l = true) by (apply existsb_lookup_true; eauto). congruence.
  - intros H. destruct (existsb f l) eqn:E; [|done].
    apply existsb_lookup_true in E as (i & x & Hi & Hf).
    rewrite (H i x Hi) in Hf. discriminate.
Qed.

(** An element is no larger than the sum. *)
Lemma list_sum_lookup_le (l : list nat) i n :
  l !! i = Some n → (n ≤ list_sum l)%nat.
Proof.
  revert i. induction l as [|m l IH]; intros [|i] Hi; simpl in *; try done.
  - injection Hi as ->. lia.
  - specialize (IH i Hi). lia.
Qed.

Lemma map_fold_sum_lookup_le (m : gmap string nat) k n :
  m !! k = Some n →
  (n ≤ map_fold (λ _ (n acc : nat), n + acc)%nat 0%nat m)%nat.
Proof.
  intros Hk%elem_of_map_to_list. rewrite map_fold_foldr.
  induction (map_to_list m) as [|[k' n'] l IH]; [by inversion Hk|]. simpl.
  apply elem_of_cons in Hk as [[= -> ->]|Hin]; [lia|].
  specialize (IH Hin). lia.
Qed.
End loops_proofs.

(** ** The codec on every value *)
Module codec_proofs.
Import stack stack_spec stack_proofs codec_spec loops_proofs.
Section codec_proofs.
Context `{codec : AssetCodec Asset Archive}.
#[local] Abbreviation PropertyValue := (PropertyValue Asset Archive).
#[local] Abbreviation PropertyMap := (gmap string PropertyValue).
#[local] Abbreviation wire := (wire Asset Archive).

(** *** Induction on property values and on wire trees *)

Lemma PropertyValue_nested_ind (P : PropertyValue → Prop) :
  (∀ arr, (∀ i v, arr !! i = Some v → P v) → P (PArray arr)) →
  (∀ obj, (∀ k v, obj !! k = Some v → P v) → P (PObject obj)) →
  (∀ v, P v → P (PSecret v)) →
  P PNull → (∀ b, P (PBool b)) → (∀ f, P (PNumber f)) → (∀ s, P (PString s)) →
  (∀ a, P (PAsset a)) → (∀ a, P (PArchive a)) → P PComputed → P POutput →
  ∀ v, P v.
Proof.
  intros Harr Hobj Hsec ? ? ? ? ? ? ? ? v.
  remember (PropertyValue_size v) as n eqn:Hn. revert v Hn.
  induction n as [n IH] using lt_wf_ind. intros v ->.
  destruct v as [|b|f|s|arr|obj|a|a|v| |]; try done.
  - apply Harr. intros i v Hi. apply (IH (PropertyValue_size v)); [|done].
    simpl. apply Nat.lt_succ_r.
    apply (list_sum_lookup_le _ i). by rewrite list_lookup_fmap, Hi.
  - apply Hobj. intros k v Hk. apply (IH (PropertyValue_size v)); [|done].
    simpl. apply Nat.lt_succ_r.
    apply (map_fold_sum_lookup_le _ k). by rewrite lookup_fmap, Hk.
  - apply Hsec. apply (IH (PropertyValue_size v)); [|done]. simpl. lia.
Qed.

Lemma wire_nested_ind (P : wire → Prop) :
  (∀ arr, (∀ i v, arr !! i = Some v → P v) → P (WArr arr)) →
  (∀ m, (∀ k v, m !! k = Some v → P v) → P (WMap m)) →
  P WNil → (∀ b, P (WBool b)) → (∀ f, P (WNum f)) → (∀ s, P (WStr s)) →
  (∀ v, P (WRaw v)) →
  ∀ v, P v.
Proof.
  intros Harr Hmap ? ? ? ? ? v.
  remember (wire_size v) as n eqn:Hn. revert v Hn.
  induction n as [n IH] using lt_wf_ind. intros v ->.
  destruct v as [|b|f|s|arr|m|v]; try done.
  - apply Harr. intros i v Hi. apply (IH (wire_size v)); [|done].
    simpl. apply Nat.lt_succ_r.
    apply (list_sum_lookup_le _ i). by rewrite list_lookup_fmap, Hi.
  - apply Hmap. intros k v Hk. apply (IH (wire_size v)); [|done].
    simpl. apply Nat.lt_succ_r.
    apply (map_fold_sum_lookup_le _ k). by rewrite lookup_fmap, Hk.
Qed.

(** *** When serialization returns *)

Lemma serialize_fold_closed (vals : gmap string (outcome wire)) msg ks o :
  (∀ k r, vals !! k = Some r → (∃ v, r = Ok v) ∨ r = Panic msg) →
  (∃ dst, o = Ok dst) ∨ o = Panic msg →
  (∃ dst, foldl (serializeEntry vals) o ks = Ok dst)
  ∨ foldl (serializeEntry vals) o ks = Panic msg.
Proof.
  intros Hvals. revert o. induction ks as [|k ks IH]; intros o Ho; [done|].
  simpl. apply IH. destruct Ho as [[dst ->]| ->]; [|by right].
  unfold serializeEntry. simpl.
  destruct (vals !! k) as [r|] eqn:Hk; simpl; [|by eauto].
  destruct (Hvals k r Hk) as [[v ->]| ->]; simpl; [|by right].
  left. destruct v; eauto.
Qed.

(** Serialization returns when no computed value is reached, and panics
    on its assertion when one is. *)
Lemma SerializePropertyValue_cases (prop : PropertyValue) :
  (reachesComputed prop = false → ∃ v, SerializePropertyValue prop = Ok v)
  ∧ (reachesComputed prop = true →
     SerializePropertyValue prop = Panic "An assertion has failed").
Proof.
  induction prop as [arr IH|obj IH|v IH| | | | | | | |]
    using PropertyValue_nested_ind; try (split; [by eauto|done]).
  - (* arrays *)
    assert (∀ i v, arr !! i = Some v →
              (∃ w, SerializePropertyValue v = Ok w)
              ∨ SerializePropertyValue v = Panic "An assertion has failed") as Hcl.
    { intros i v Hi. destruct (IH i v Hi) as [Hok Hpanic].
      destruct (reachesComputed v); [right; by apply Hpanic|left; by apply Hok]. }
    rewrite SerializePropertyValue_array. simpl. split.
    + intros Hnone. rewrite existsb_lookup_false in Hnone.
      rewrite (mapM_Ok_fmap _ serialized); [by eauto|].
      intros i v Hi. destruct (IH i v Hi) as [Hok _].
      destruct Hok as [w Hw]; [by eapply Hnone|]. by rewrite (serialized_Ok _ _ Hw).
    + intros (i & v & Hi & Hv)%existsb_lookup_true.
      destruct (IH i v Hi) as [_ Hpanic]. specialize (Hpanic Hv).
      pose proof (mapM_failure SerializePropertyValue arr i v Hi) as Hf.
      rewrite Hpanic in Hf. specialize (Hf eq_refl).
      destruct (mapM_closed SerializePropertyValue arr _ Hcl) as [[k Hk]|Hk];
        rewrite Hk in *; [done|reflexivity].
  - (* objects *)
    rewrite SerializePropertyValue_object. unfold SerializeProperties. simpl. split.
    + intros Hnone. rewrite map_fold_orb_false in Hnone.
      rewrite (SerializeProperties_with_Ok _ serialized); [by eauto|].
      intros k v Hk. destruct (IH k v Hk) as [Hok _].
      destruct Hok as [w Hw]; [by eapply Hnone|]. by rewrite (serialized_Ok _ _ Hw).
    + intros (k & v & Hk & Hv)%map_fold_orb_true.
      destruct (IH k v Hk) as [_ Hpanic]. specialize (Hpanic Hv).
      pose proof (SerializeProperties_with_failure SerializePropertyValue obj k v Hk) as Hf.
      rewrite Hpanic in Hf. specialize (Hf eq_refl).
      destruct (serialize_fold_closed (SerializePropertyValue <$> obj)
                  "An assertion has failed" (resource.StableKeys obj) (Ok ∅))
        as [[dst Hd]|Hd].
      * intros k' r. rewrite lookup_fmap.
        destruct (obj !! k') as [v'|] eqn:Hk'; [|done]. intros [= <-].
        destruct (IH k' v' Hk') as [Hok' Hpanic'].
        destruct (reachesComputed v'); [right; by apply Hpanic'|left; by apply Hok'].
      * by eauto.
      * unfold SerializeProperties_with in Hf. rewrite Hd in Hf. done.
      * unfold SerializeProperties_with. by rewrite Hd.
Qed.

(** X1: [SerializePropertyValue] returns a value exactly on the values from
    which no computed value is reached through arrays and objects; on the
    others it panics on its assertion.  It never returns an error. *)
Theorem SerializePropertyValue_outcome (prop : PropertyValue) :
  SerializePropertyValue prop
  = if reachesComputed prop then Panic "An assertion has failed"
    else Ok (serialized prop).
Proof.
  destruct (SerializePropertyValue_cases prop) as [Hok Hpanic].
  destruct (reachesComputed prop); [by apply Hpanic|].
  destruct Hok as [v Hv]; [done|]. by rewrite (serialized_Ok _ _ Hv).
Qed.

(** X2: a property map serializes unless a computed value is reached from
    one of its values; the result holds, under the same key, the
    serialization of every value that does not serialize to [nil]. *)
Theorem SerializeProperties_outcome (props : PropertyMap) :
  SerializeProperties props
  = if reachesComputed (PObject props) then Panic "An assertion has failed"
    else Ok (serializedMap props).
Proof.
  destruct (SerializePropertyValue_cases (PObject props)) as [Hok Hpanic].
  rewrite SerializePropertyValue_object in Hok, Hpanic.
  destruct (reachesComputed (PObject props)).
  - destruct (SerializeProperties props); specialize (Hpanic eq_refl);
      simpl in Hpanic; congruence.
  - destruct Hok as [v Hv]; [done|].
    destruct (SerializeProperties props) as [dst| |] eqn:E; simpl in Hv; try done.
    apply SerializeProperties_Ok_inv in E as [_ ->]. done.
Qed.

(** X3: what [SerializeProperties] returns holds no [nil], and each of its
    entries is the serialization of the value under the same key. *)
Theorem SerializeProperties_no_nil (props : PropertyMap) (dst : gmap string wire)
    (k : string) (w : wire) :
  SerializeProperties props = Ok dst → dst !! k = Some w →
  w ≠ WNil ∧ ∃ v, props !! k = Some v ∧ SerializePropertyValue v = Ok w.
Proof.
  intros [Hall ->]%SerializeProperties_Ok_inv. rewrite lookup_omap.
  destruct (props !! k) as [v|] eqn:Hk; simpl; [|done].
  intros Hw. split.
  - intros ->. by destruct (serialized v).
  - exists v. split; [done|]. rewrite (Hall k v Hk). f_equal.
    by destruct (serialized v); simplify_eq/=.
Qed.

(** *** When deserialization returns *)

(** Deserialization returns when the tree holds no value of an
    unrecognized type, and panics when it holds one. *)
Lemma DeserializePropertyValue_cases (v : wire) :
  (hasRaw v = false → ∃ prop, DeserializePropertyValue v = Ok prop)
  ∧ (hasRaw v = true →
     DeserializePropertyValue v = Panic "Unrecognized property type").
Proof.
  induction v as [arr IH|m IH| | | | |] using wire_nested_ind;
    try (split; [by eauto|done]).
  - assert (∀ i v, arr !! i = Some v →
              (∃ p, DeserializePropertyValue v = Ok p)
              ∨ DeserializePropertyValue v = Panic "Unrecognized property type") as Hcl.
    { intros i v Hi. destruct (IH i v Hi) as [Hok Hpanic].
      destruct (hasRaw v); [right; by apply Hpanic|left; by apply Hok]. }
    simpl. split.
    + intros Hnone. rewrite existsb_lookup_false in Hnone.
      rewrite (mapM_Ok_fmap _ deserialized); [by eauto|].
      intros i v Hi. destruct (IH i v Hi) as [Hok _].
      destruct Hok as [p Hp]; [by eapply Hnone|]. by rewrite (deserialized_Ok _ _ Hp).
    + intros (i & v & Hi & Hv)%existsb_lookup_true.
      destruct (IH i v Hi) as [_ Hpanic]. specialize (Hpanic Hv).
      pose proof (mapM_failure DeserializePropertyValue arr i v Hi) as Hf.
      rewrite Hpanic in Hf. specialize (Hf eq_refl).
      destruct (mapM_closed DeserializePropertyValue arr _ Hcl) as [[k Hk]|Hk];
        rewrite Hk in *; [done|reflexivity].
  - rewrite DeserializePropertyValue_map. simpl. split.
    + intros Hnone. rewrite map_fold_orb_false in Hnone.
      rewrite DeserializeProperties_Ok.
      2:{ intros k v Hk. destruct (IH k v Hk) as [Hok _].
          destruct Hok as [p Hp]; [by eapply Hnone|].
          by rewrite (deserialized_Ok _ _ Hp). }
      simpl. destruct (DeserializeAsset _); [by eauto|].
      destruct (DeserializeArchive _); by eauto.
    + intros (k & v & Hk & Hv)%map_fold_orb_true.
      destruct (IH k v Hk) as [_ Hpanic]. specialize (Hpanic Hv).
      unfold DeserializeProperties, DeserializeProperties_with. simpl.
      assert (is_Ok (collectM (map_to_list (DeserializePropertyValue <$> m))) = false)
        as Hf.
      { apply (collectM_failure_list _ k (DeserializePropertyValue v)).
        - apply elem_of_map_to_list. by rewrite lookup_fmap, Hk.
        - by rewrite Hpanic. }
      destruct (collectM_closed (map_to_list (DeserializePropertyValue <$> m))
                  "Unrecognized property type") as [[r Hr]|Hr].
      * intros k' o Hin%elem_of_map_to_list. rewrite lookup_fmap in Hin.
        destruct (m !! k') as [v'|] eqn:Hk'; [|done]. injection Hin as <-.
        destruct (IH k' v' Hk') as [Hok' Hpanic'].
        destruct (hasRaw v'); [right; by apply Hpanic'|left; by apply Hok'].
      * by rewrite Hr in Hf.
      * by rewrite Hr.
Qed.

(** X4: [DeserializePropertyValue] returns a value exactly on the trees
    that hold no value of an unrecognized type, at any depth; on the others
    it panics. *)
Theorem DeserializePropertyValue_outcome (v : wire) :
  DeserializePropertyValue v
  = if hasRaw v then Panic "Unrecognized property type"
    else Ok (deserialized v).
Proof.
  destruct (DeserializePropertyValue_cases v) as [Hok Hpanic].
  destruct (hasRaw v); [by apply Hpanic|].
  destruct Hok as [prop Hp]; [done|]. by rewrite (deserialized_Ok _ _ Hp).
Qed.

(** X5: the map that [DeserializeProperties] returns has the keys of its
    argument (none for a [nil] argument), each with the deserialization of
    the value under that key. *)
Theorem DeserializeProperties_lookup (props : option (gmap string wire))
    (result : PropertyMap) (k : string) :
  DeserializeProperties props = Ok result →
  match default ∅ props !! k with
  | Some v => ∃ prop, DeserializePropertyValue v = Ok prop ∧ result !! k = Some prop
  | None => result !! k = None
  end.
Proof.
  unfold DeserializeProperties, DeserializeProperties_with, collectM.
  intros H. apply collectM_Ok_inv in H as [Hin Hout].
  2:{ apply NoDup_fst_map_to_list. }
  destruct (default ∅ props !! k) as [v|] eqn:Hk.
  - destruct (Hin k (DeserializePropertyValue v)) as (prop & ? & ?); [|by eauto].
    apply elem_of_map_to_list. by rewrite lookup_fmap, Hk.
  - rewrite Hout, lookup_empty; [done|].
    intros ([k' o] & -> & Hin')%list_elem_of_fmap.
    apply elem_of_map_to_list in Hin'. simpl in Hk.
    by rewrite lookup_fmap, Hk in Hin'.
Qed.

(** *** The other round trip *)

(** X6: a plain tree is deserialized to a value that serializes back to
    the same tree. *)
Theorem PlainWire_roundtrip (v : wire) :
  PlainWire v →
  ∃ prop, DeserializePropertyValue v = Ok prop
          ∧ SerializePropertyValue prop = Ok v.
Proof.
  induction 1 as [|b|f|s|arr Harr IH|m Hm IH Hnn Hnoasset Hnoarchive].
  - by exists PNull.
  - by exists (PBool b).
  - by exists (PNumber f).
  - by exists (PString s).
  - assert (∀ i v, arr !! i = Some v →
              DeserializePropertyValue v = Ok (deserialized v)
              ∧ SerializePropertyValue (deserialized v) = Ok v) as Helem.
    { intros i v Hi. destruct (IH i v Hi) as (p & Hp & Hback).
      by rewrite (deserialized_Ok _ _ Hp). }
    exists (PArray (deserialized <$> arr)). split.
    + simpl. rewrite (mapM_Ok_fmap _ deserialized); [done|].
      intros i v Hi. by apply (Helem i).
    + rewrite SerializePropertyValue_array.
      replace (mapM SerializePropertyValue (deserialized <$> arr))
        with (Ok arr : outcome (list wire)); [done|].
      symmetry. apply mapM_Ok_Forall2, Forall2_fmap_l, Forall_Forall2_diag.
      apply Forall_lookup. intros i v Hi. by apply (Helem i).
  - assert (∀ k v, m !! k = Some v →
              DeserializePropertyValue v = Ok (deserialized v)
              ∧ SerializePropertyValue (deserialized v) = Ok v) as Hentry.
    { intros k v Hk. destruct (IH k v Hk) as (p & Hp & Hback).
      by rewrite (deserialized_Ok _ _ Hp). }
    exists (PObject (deserialized <$> m)). split.
    + rewrite DeserializePropertyValue_map, DeserializeProperties_Ok.
      2:{ intros k v Hk. by apply (Hentry k). }
      simpl. by rewrite Hnoasset, Hnoarchive.
    + rewrite SerializePropertyValue_object. unfold SerializeProperties.
      rewrite (SerializeProperties_with_Ok _ serialized).
      2:{ intros k p. rewrite lookup_fmap.
          destruct (m !! k) as [v|] eqn:Hk; [|done]. intros [= <-].
          destruct (Hentry k v Hk) as [_ Hback].
          by rewrite (serialized_Ok _ _ Hback). }
      simpl. do 2 f_equal. apply map_eq. intros k.
      rewrite lookup_omap, lookup_fmap.
      destruct (m !! k) as [v|] eqn:Hk; [|done]. simpl.
      destruct (Hentry k v Hk) as [_ Hback].
      rewrite (serialized_Ok _ _ Hback).
      pose proof (Hnn k v Hk). by destruct v.
Qed.

(** *** Whole resources *)

Lemma serializeIfPresent_outcome (props : option PropertyMap) :
  serializeIfPresent props
  = if anyComputed props then Panic "An assertion has failed"
    else Ok (serializedMap <$> props).
Proof.
  destruct props as [m|]; [|done].
  destruct (SerializePropertyValue_cases (PObject m)) as [Hok Hpanic].
  rewrite SerializePropertyValue_object in Hok, Hpanic.
  unfold serializeIfPresent, anyComputed.
  destruct (reachesComputed (PObject m)).
  - destruct (SerializeProperties m); specialize (Hpanic eq_refl);
      simpl in Hpanic; simpl; congruence.
  - destruct Hok as [v Hv]; [done|].
    destruct (SerializeProperties m) as [dst| |] eqn:E; simpl in Hv; try done.
    apply SerializeProperties_Ok_inv in E as [_ ->]. done.
Qed.

(** X7: [SerializeResource] in closed form: it panics on an empty URN, else
    on a computed value reached from one of the three maps, and else
    returns the record of the copied fields, the serialized maps
    (an absent one absent) and the sorted children.  It never returns an
    error. *)
Theorem SerializeResource_outcome (res : resource.State Asset Archive) :
  SerializeResource (Some res)
  = if String.eqb (resource.URN res) ""
    then Panic "Unexpected empty resource resource.URN"
    else if anyComputed (resource.Inputs res)
            || anyComputed (resource.Defaults res)
            || anyComputed (resource.Outputs res)
    then Panic "An assertion has failed"
    else Ok {| URN := resource.URN res;
               Custom := resource.Custom res;
               Delete := resource.Delete res;
               ID := resource.ID res;
               Type_ := resource.Type_ res;
               Inputs := serializedMap <$> resource.Inputs res;
               Defaults := serializedMap <$> resource.Defaults res;
               Outputs := serializedMap <$> resource.Outputs res;
               Children := sortStrings (resource.Children res) |}.
Proof.
  unfold SerializeResource. simpl.
  destruct (String.eqb (resource.URN res) ""); simpl; [done|].
  rewrite !serializeIfPresent_outcome.
  destruct (anyComputed (resource.Inputs res)); simpl; [done|].
  destruct (anyComputed (resource.Defaults res)); simpl; [done|].
  by destruct (anyComputed (resource.Outputs res)).
Qed.

(** X8: the children of the record that [SerializeResource] returns are
    the children of the resource in sorted order: a sorted permutation of
    them, and the same list when they were sorted already. *)
Theorem SerializeResource_children (res : resource.State Asset Archive)
    (r : Resource Asset Archive) :
  SerializeResource (Some res) = Ok r →
  Sorted string_le (Children r)
  ∧ Children r ≡ₚ resource.Children res
  ∧ (Sorted string_le (resource.Children res) →
     Children r = resource.Children res).
Proof.
  unfold SerializeResource. simpl. intros H.
  destruct (String.eqb _ _); simpl in H; [done|].
  apply bind_Ok_inv in H as (inputs & _ & H).
  apply bind_Ok_inv in H as (defaults & _ & H).
  apply bind_Ok_inv in H as (outputs & _ & [= <-]). simpl.
  split; [apply Sorted_sortStrings|]. split; [apply sortStrings_Permutation|].
  intros Hs. by apply sortStrings_unique.
Qed.

Lemma DeserializeProperties_outcome (props : option (gmap string wire)) :
  DeserializeProperties props
  = if anyRaw props then Panic "Unrecognized property type"
    else Ok (deserialized <$> default ∅ props).
Proof.
  assert (∀ v, DeserializePropertyValue v
               = if hasRaw v then Panic "Unrecognized property type"
                 else Ok (deserialized v)) as DeserializePropertyValue_eq.
  { intros v. destruct (DeserializePropertyValue_cases v) as [Hok Hpanic].
    destruct (hasRaw v); [by apply Hpanic|].
    destruct Hok as [prop Hp]; [done|]. by rewrite (deserialized_Ok _ _ Hp). }
  unfold anyRaw. simpl.
  change (DeserializeProperties props)
    with (DeserializeProperties (Some (default ∅ props))).
  generalize (default ∅ props). clear props. intros m.
  destruct (map_fold _ _ _) eqn:R.
  - apply map_fold_orb_true in R as (k & v & Hk & Hv).
    assert (is_Ok (DeserializeProperties (Some m)) = false) as Hf.
    { apply (collectM_failure_list _ k (DeserializePropertyValue v)).
      - apply elem_of_map_to_list. simpl. by rewrite lookup_fmap, Hk.
      - by rewrite DeserializePropertyValue_eq, Hv. }
    destruct (collectM_closed (map_to_list (DeserializePropertyValue <$> m))
                "Unrecognized property type") as [[r Hr]|Hr].
    + intros k' o Hin%elem_of_map_to_list. rewrite lookup_fmap in Hin.
      destruct (m !! k') as [v'|] eqn:Hk'; [|done]. injection Hin as <-.
      rewrite DeserializePropertyValue_eq. destruct (hasRaw v'); eauto.
    + unfold DeserializeProperties, DeserializeProperties_with in Hf. simpl in Hf.
      by rewrite Hr in Hf.
    + exact Hr.
  - rewrite map_fold_orb_false in R. apply DeserializeProperties_Ok.
    intros k v Hk. by rewrite DeserializePropertyValue_eq, (R k v Hk).
Qed.

(** X9: [DeserializeResource] in closed form: it panics when one of the
    three maps holds a value of an unrecognized type, and else returns the
    state of the copied fields, the deserialized maps, each of them
    present, and the children in the order of the record. *)
Theorem DeserializeResource_outcome (r : Resource Asset Archive) :
  DeserializeResource r
  = if anyRaw (Inputs r) || anyRaw (Defaults r) || anyRaw (Outputs r)
    then Panic "Unrecognized property type"
    else Ok {| resource.Type_ := Type_ r;
               resource.URN := URN r;
               resource.Custom := Custom r;
               resource.Delete := Delete r;
               resource.ID := ID r;
               resource.Inputs := Some (deserialized <$> default ∅ (Inputs r));
               resource.Defaults := Some (deserialized <$> default ∅ (Defaults r));
               resource.Outputs := Some (deserialized <$> default ∅ (Outputs r));
               resource.Children := Children r |}.
Proof.
  unfold DeserializeResource. rewrite !DeserializeProperties_outcome.
  destruct (anyRaw (Inputs r)); simpl; [done|].
  destruct (anyRaw (Defaults r)); simpl; [done|].
  by destruct (anyRaw (Outputs r)).
Qed.
End codec_proofs.
End codec_proofs.

(** ** Deployments *)
Module deployment_proofs.
Import stack deployment loops_proofs.
Section deployment_proofs.
Context `{codec : AssetCodec Asset Archive} {TimeT InfoT : Type}.

Lemma mapM_Ok_exists {A B} (f : A → outcome B) (l : list A) :
  (∀ i x, l !! i = Some x → ∃ y, f x = Ok y) → ∃ k, mapM f l = Ok k.
Proof.
  induction l as [|x l IH]; intros H; simpl; [by eauto|].
  destruct (H 0%nat x eq_refl) as [y ->]. simpl.
  destruct IH as [k ->]; [|by eauto].
  intros i x' Hi. by apply (H (S i)).
Qed.

(** X10: the deployment that [SerializeDeployment] returns has the time and
    info of the snapshot and, in the order of the snapshot and as many,
    the records of its resources. *)
Theorem SerializeDeployment_keeps_order
    (snap : Snapshot Asset Archive TimeT InfoT)
    (d : Deployment Asset Archive TimeT InfoT) :
  SerializeDeployment (Some snap) = Ok d →
  Time d = snapTime snap ∧ Info d = snapInfo snap
  ∧ length (Resources d) = length (snapResources snap)
  ∧ ∀ i res, snapResources snap !! i = Some res →
      ∃ r, Resources d !! i = Some r ∧ SerializeResource res = Ok r.
Proof.
  simpl. intros H. apply bind_Ok_inv in H as (resources & Hm & [= <-]). simpl.
  split; [done|]. split; [done|]. split; [by eapply mapM_Ok_length|].
  intros i res Hi. by eapply mapM_Ok_lookup.
Qed.

(** X11: a snapshot is serialized exactly when each of its resources is: one
    resource that is [nil], has an empty URN or reaches a computed value
    fails the whole deployment. *)
Theorem SerializeDeployment_all_or_nothing
    (snap : Snapshot Asset Archive TimeT InfoT) :
  (∃ d, SerializeDeployment (Some snap) = Ok d)
  ↔ ∀ i res, snapResources snap !! i = Some res →
      ∃ r, SerializeResource res = Ok r.
Proof.
  split.
  - intros [d Hd] i res Hi. simpl in Hd.
    apply bind_Ok_inv in Hd as (resources & Hm & _).
    destruct (mapM_Ok_lookup _ _ _ _ _ Hm Hi) as (r & _ & ?). eauto.
  - intros H. simpl.
    destruct (mapM_Ok_exists SerializeResource (snapResources snap) H) as [k ->].
    simpl. eauto.
Qed.
End deployment_proofs.
End deployment_proofs.

(** ** The dependency lists of the response *)
Module dependencies_proofs.
Import pulumi.

(** Membership in lists built from [++] and [::]. *)
Ltac list_mem :=
  rewrite ?elem_of_app, ?elem_of_cons, ?elem_of_nil in *; intuition congruence.

(** One turn of the loop, with [urns] as long as the index: the URN is
    skipped when it is the last one kept. *)
Lemma dedupLoop_step (d : string) (rest urns : list string) :
  dedupLoop (d :: rest) (length urns) urns
  = if decide (last urns = Some d) then dedupLoop rest (S (length urns)) urns
    else dedupLoop rest (S (length urns)) (urns ++ [d])%list.
Proof.
  destruct urns as [|u urns _] using rev_ind; [done|].
  simpl. rewrite bool_decide_eq_true_2 by (rewrite length_app; simpl; lia).
  unfold index.
  replace (length (urns ++ [u])%list - 1)%nat with (length urns)
    by (rewrite length_app; simpl; lia).
  rewrite lookup_app_r, Nat.sub_diag by done. simpl.
  rewrite last_snoc.
  destruct (String.eqb_spec u d) as [->|Hne].
  - by rewrite decide_True.
  - rewrite decide_False; [done|congruence].
Qed.

(** Once a URN has been skipped, the index is past the end of [urns]. *)
Lemma dedupLoop_after_skip (d : string) (rest urns : list string) :
  dedupLoop (d :: rest) (S (length urns)) urns = Panic "index out of range".
Proof.
  simpl. unfold index. rewrite Nat.sub_0_r.
  by rewrite lookup_ge_None_2 by lia.
Qed.

Lemma dedupLoop_closed (deps : list string) (i : nat) (urns : list string) :
  (∃ r, dedupLoop deps i urns = Ok r)
  ∨ dedupLoop deps i urns = Panic "index out of range".
Proof.
  revert i urns. induction deps as [|d deps IH]; intros i urns; simpl; [by eauto|].
  destruct (bool_decide _); simpl; [|by apply IH].
  unfold index. destruct (urns !! _); simpl; [|by right].
  destruct (String.eqb _ _); apply IH.
Qed.

Lemma Sorted_app_l {A} (R : A → A → Prop) (l1 l2 : list A) :
  Sorted R (l1 ++ l2) → Sorted R l1.
Proof.
  induction l1 as [|x l1 IH]; simpl; [constructor|].
  intros [Hs Hh]%Sorted_inv. constructor; [by apply IH|].
  destruct l1; [constructor|]. inversion Hh. by constructor.
Qed.

Lemma Sorted_and {A} (R1 R2 : A → A → Prop) (l : list A) :
  Sorted R1 l → Sorted R2 l → Sorted (λ a b, R1 a b ∧ R2 a b) l.
Proof.
  induction l as [|x l IH]; [constructor|].
  intros [Hs1 Hh1]%Sorted_inv [Hs2 Hh2]%Sorted_inv. constructor; [by apply IH|].
  destruct l; [constructor|]. inversion Hh1. inversion Hh2. by constructor.
Qed.

(** A sorted list without two equal neighbours has no duplicates. *)
Lemma Sorted_NoDup (l : list string) :
  Sorted string_le l → Sorted (λ a b, a ≠ b) l → NoDup l.
Proof.
  intros H1 H2. pose proof (Sorted_and _ _ _ H1 H2) as Hs.
  apply Sorted_StronglySorted in Hs.
  2:{ intros a b c [Hab Hne] [Hbc Hne']. split; [by etrans|].
      intros ->. apply Hne. by apply (anti_symm string_le). }
  clear H1 H2. induction Hs as [|x l Hs IH Hall]; [constructor|].
  constructor; [|done]. intros Hin.
  rewrite Forall_forall in Hall. by destruct (Hall x Hin).
Qed.

(** What the loop has done when it returns: it kept the URNs [kept], no
    two neighbours equal, and these are all of [deps], or all but a last
    one that equals the last one kept. *)
Lemma dedupLoop_Ok_inv (deps urns r : list string) :
  Sorted (λ a b, a ≠ b) urns →
  dedupLoop deps (length urns) urns = Ok r →
  ∃ kept, r = (urns ++ kept)%list ∧ Sorted (λ a b, a ≠ b) r
          ∧ (deps = kept ∨ ∃ d, deps = (kept ++ [d])%list ∧ last r = Some d).
Proof.
  revert urns. induction deps as [|d rest IH]; intros urns Hs H.
  { injection H as <-. exists []. rewrite app_nil_r. by eauto. }
  rewrite dedupLoop_step in H. destruct (decide (last urns = Some d)) as [Hl|Hl].
  - destruct rest as [|e rest]; [|by rewrite dedupLoop_after_skip in H].
    injection H as <-. exists []. rewrite app_nil_r.
    split; [done|]. split; [done|]. right. by exists d.
  - replace (S (length urns)) with (length (urns ++ [d])%list) in H
      by (rewrite length_app; simpl; lia).
    apply IH in H as (kept & -> & Hr & Hcase).
    + exists (d :: kept). rewrite <- app_assoc in *. split; [done|]. split; [done|].
      destruct Hcase as [->|(d' & -> & Hlast)]; [by left|right; by exists d'].
    + apply Sorted_snoc; [done|].
      destruct urns as [|u urns _] using rev_ind; constructor.
      rewrite last_snoc in Hl. congruence.
Qed.

(** What [propertyDependencies] returns: a sorted list without duplicates
    that is the sorted dependency list, or the sorted dependency list
    without a last URN that occurs twice at its end. *)
Lemma propertyDependencies_kept (deps r : list string) :
  propertyDependencies deps = Ok r →
  NoDup r ∧ Sorted string_le r
  ∧ (sortStrings deps = r
     ∨ ∃ d, sortStrings deps = (r ++ [d])%list ∧ last r = Some d).
Proof.
  unfold propertyDependencies. intros H.
  apply (dedupLoop_Ok_inv _ []) in H as (kept & -> & Hne & Hcase); [|constructor].
  simpl in *. pose proof (Sorted_sortStrings deps) as Hs.
  assert (Sorted string_le kept) as Hk.
  { destruct Hcase as [<-|(d & Hd & _)]; [done|].
    rewrite Hd in Hs. by apply Sorted_app_l in Hs. }
  split; [by apply Sorted_NoDup|]. split; [done|].
  destruct Hcase as [<-|(d & -> & Hl)]; [by left|right; by exists d].
Qed.

(** X12: the list that the loop over the property dependencies emits for
    a property, when it returns, is sorted, without duplicates, and holds
    exactly the URNs of the dependency list. *)
Theorem propertyDependencies_sound (deps urns : list string) :
  propertyDependencies deps = Ok urns →
  NoDup urns ∧ Sorted string_le urns ∧ ∀ x, x ∈ urns ↔ x ∈ deps.
Proof.
  intros (Hnd & Hs & Hcase)%propertyDependencies_kept.
  split; [done|]. split; [done|].
  intros x. rewrite <- (sortStrings_Permutation deps).
  destruct Hcase as [->|(d & -> & Hl)]; [done|].
  apply last_Some in Hl as [l' ->]. list_mem.
Qed.

(** After two equal URNs the loop panics on the next URN, whatever came
    before. *)
Lemma dedupLoop_duplicate_then_more (pre : list string) (d e : string)
    (post urns : list string) :
  dedupLoop (pre ++ d :: d :: e :: post) (length urns) urns
  = Panic "index out of range".
Proof.
  revert urns. induction pre as [|x pre IH]; intros urns; simpl app;
    rewrite dedupLoop_step.
  - destruct (decide _); [by apply dedupLoop_after_skip|].
    replace (S (length urns)) with (length (urns ++ [d])%list)
      by (rewrite length_app; simpl; lia).
    rewrite dedupLoop_step, last_snoc, decide_True by done.
    by apply dedupLoop_after_skip.
  - destruct (decide _).
    + destruct pre; by apply dedupLoop_after_skip.
    + replace (S (length urns)) with (length (urns ++ [x])%list)
        by (rewrite length_app; simpl; lia).
      by apply IH.
Qed.

(** X13: a dependency list in which a URN occurs twice and a greater URN
    occurs as well makes the loop panic: no list is emitted. *)
Theorem propertyDependencies_duplicate_panics (deps rest : list string) (d e : string) :
  deps ≡ₚ d :: d :: e :: rest → string_le d e → d ≠ e →
  propertyDependencies deps = Panic "index out of range".
Proof.
  intros Hperm Hle Hne.
  destruct (dedupLoop_closed (sortStrings deps) 0 []) as [[r Hr]|Hr]; [|done].
  exfalso.
  pose proof (Sorted_sortStrings deps) as Hs.
  assert (sortStrings deps ≡ₚ d :: d :: e :: rest) as Hp
    by (by rewrite sortStrings_Permutation).
  apply propertyDependencies_kept in Hr as (Hnd & _ & [Hk|(d' & Hk & Hl)]).
  - rewrite <- Hk, Hp in Hnd. apply NoDup_cons in Hnd as [Hnd _]. list_mem.
  - apply last_Some in Hl as [l' ->]. rewrite Hk in Hs, Hp.
    assert (d = d') as <-.
    { destruct (decide (d = d')) as [|Hdd]; [done|]. exfalso.
      assert (d ∈ l') as Hin.
      { assert (d ∈ ((l' ++ [d']) ++ [d'])%list) as Hd by (rewrite Hp; list_mem).
        list_mem. }
      apply elem_of_Permutation in Hin as [l'' Hl''].
      rewrite Hl'' in Hnd, Hp. simpl in Hnd, Hp.
      apply Permutation_cons_inv in Hp.
      apply NoDup_cons in Hnd as [Hnotin _].
      assert (d ∈ ((l'' ++ [d']) ++ [d'])%list) as Hd by (rewrite Hp; list_mem).
      list_mem. }
    assert (e ∈ l') as Hin.
    { assert (e ∈ ((l' ++ [d]) ++ [d])%list) as He by (rewrite Hp; list_mem).
      list_mem. }
    apply Sorted_StronglySorted in Hs; [|apply _].
    rewrite <- app_assoc in Hs.
    assert (string_le e d) as Hed.
    { apply (StronglySorted_app_1_elem_of _ _ _ e d Hs); [done|list_mem]. }
    apply Hne. by apply (anti_symm string_le).
Qed.

(** When the only duplicate is of the greatest URN, there is no later
    turn to panic in. *)
Lemma dedupLoop_trailing_duplicate (l urns : list string) (d : string) :
  NoDup (urns ++ l)%list → last (urns ++ l)%list = Some d →
  dedupLoop (l ++ [d]) (length urns) urns = Ok (urns ++ l)%list.
Proof.
  revert urns. induction l as [|x l IH]; intros urns Hnd Hl; simpl app;
    rewrite dedupLoop_step.
  - rewrite app_nil_r in *. by rewrite decide_True.
  - rewrite decide_False.
    2:{ intros [l' ->]%last_Some. rewrite <- app_assoc in Hnd. simpl in Hnd.
        apply NoDup_app in Hnd as (_ & _ & Hnd). apply NoDup_cons in Hnd as [Hx _].
        apply Hx. by left. }
    replace (S (length urns)) with (length (urns ++ [x])%list)
      by (rewrite length_app; simpl; lia).
    rewrite IH; rewrite <- app_assoc; done.
Qed.

(** X14: when the only duplicate of a dependency list is its greatest
    URN, occurring twice, the loop returns: the list is emitted sorted,
    with that URN once. *)
Theorem propertyDependencies_trailing_duplicate (deps r : list string) (d : string) :
  sortStrings deps = (r ++ [d; d])%list → NoDup (r ++ [d])%list →
  propertyDependencies deps = Ok (r ++ [d])%list.
Proof.
  intros Hs Hnd. unfold propertyDependencies.
  replace (sortStrings deps) with ((r ++ [d]) ++ [d])%list
    by (by rewrite Hs, <- app_assoc).
  apply (dedupLoop_trailing_duplicate (r ++ [d]) [] d); [done|].
  simpl. by rewrite last_snoc.
Qed.
End dependencies_proofs.

(** ** Provider references, joined and parsed *)
Module reference_proofs.
Import pulumi pulumi_spec strings_proofs pulumi_proofs.

Lemma occursAt_list (s substr : string) (i : nat) :
  occursAt s substr i = true
  ↔ take (String.length substr) (drop i (list_ascii_of_string s))
    = list_ascii_of_string substr.
Proof.
  rewrite occursAt_true, <- list_of_substring.
  split; [by intros ->|apply list_of_string_inj].
Qed.

Lemma list_of_joined (urn id : string) :
  list_ascii_of_string (urn +:+ "::" +:+ id)
  = (list_ascii_of_string urn ++ ":"%char :: ":"%char :: list_ascii_of_string id)%list.
Proof. by rewrite !list_of_append. Qed.

(** The occurrences of the separator in a joined reference: one at the
    end of the URN, one right after it when the ID begins with a colon,
    and those of the ID. *)
Lemma occursAt_joined_at (urn id : string) :
  occursAt (urn +:+ "::" +:+ id) "::" (String.length urn) = true.
Proof.
  apply occursAt_list. rewrite list_of_joined, <- (length_list_of_string urn).
  by rewrite drop_app_length.
Qed.

Lemma occursAt_joined_next (urn id : string) :
  occursAt (urn +:+ "::" +:+ id) "::" (S (String.length urn)) = HasPrefix id ":".
Proof.
  apply Bool.eq_iff_eq_true. unfold HasPrefix. rewrite !occursAt_list.
  rewrite list_of_joined, <- (length_list_of_string urn).
  replace (S (length (list_ascii_of_string urn)))
    with (length (list_ascii_of_string urn) + 1)%nat by lia.
  rewrite <- drop_drop, drop_app_length. simpl.
  destruct (list_ascii_of_string id) as [|c l]; simpl; [done|].
  rewrite !take_0. split; congruence.
Qed.

Lemma occursAt_joined_later (urn id : string) (t : nat) :
  occursAt (urn +:+ "::" +:+ id) "::" (String.length urn + 2 + t) = occursAt id "::" t.
Proof.
  apply Bool.eq_iff_eq_true. rewrite !occursAt_list.
  rewrite list_of_joined, <- (length_list_of_string urn).
  rewrite <- Nat.add_assoc, <- drop_drop, drop_app_length. done.
Qed.

(** X15: joining a URN and an ID with the separator and parsing the
    reference gives back the two exactly when the separator does not
    occur in the ID and the ID does not begin with a colon. *)
Theorem provider_reference_roundtrip (urn id : string) :
  parseProviderReference (urn +:+ "::" +:+ id)
  = Ok (newDependencyProviderResource urn id)
  ↔ (∀ j, occursAt id "::" j = false) ∧ HasPrefix id ":" = false.
Proof.
  set (ref := urn +:+ "::" +:+ id).
  pose proof (occursAt_joined_at urn id) as Hat. fold ref in Hat.
  destruct (LastIndex_spec ref "::") as [[_ Hno]|(j & Hj & Hocc & Hb & Hlast)];
    [simpl; lia|by rewrite Hno in Hat|].
  rewrite (parseProviderReference_found ref j Hj).
  assert (String.length ref = String.length urn + 2 + String.length id)%nat as Hlen.
  { rewrite <- !length_list_of_string. unfold ref.
    rewrite list_of_joined, length_app. simpl. lia. }
  assert (j = String.length urn
          → substring 0 j ref = urn
            ∧ substring (j + 2) (String.length ref - (j + 2)) ref = id) as Hparts.
  { intros ->. split; apply list_of_string_inj; rewrite list_of_substring;
      unfold ref; rewrite list_of_joined, <- (length_list_of_string urn).
    - by rewrite drop_0, take_app_length.
    - rewrite <- drop_drop, drop_app_length. simpl.
      apply take_ge. fold ref. rewrite !length_list_of_string. lia. }
  split.
  - intros [= Hurn Hid].
    assert (j = String.length urn) as ->.
    { apply (f_equal String.length) in Hurn. rewrite length_substring in Hurn.
      simpl in Hb. lia. }
    split.
    + intros t. rewrite <- (occursAt_joined_later urn id t). apply Hlast. lia.
    + rewrite <- (occursAt_joined_next urn id). apply Hlast. lia.
  - intros [Hnone Hpre].
    assert (j = String.length urn) as Hju.
    { destruct (lt_eq_lt_dec j (String.length urn)) as [[Hlt|Heq]|Hgt]; [|done|].
      - by rewrite (Hlast _ Hlt) in Hat.
      - exfalso. destruct (decide (j = S (String.length urn))) as [->|Hne].
        + unfold ref in Hocc. rewrite occursAt_joined_next in Hocc. congruence.
        + replace j with (String.length urn + 2 + (j - String.length urn - 2))%nat
            in Hocc by lia.
          unfold ref in Hocc. rewrite occursAt_joined_later, Hnone in Hocc. done. }
    destruct (Hparts Hju) as [-> ->]. done.
Qed.
End reference_proofs.

(** ** Loops over maps, entry by entry *)
Module range_proofs.

Lemma rangeM_Ok_None {A B} (body : string → A → outcome B) (m : gmap string A)
    (r : gmap string B) k :
  rangeM body m = Ok r → m !! k = None → r !! k = None.
Proof.
  intros H Hk. unfold rangeM, collectM in H.
  apply collectM_Ok_inv in H as [_ Hout].
  - rewrite Hout, lookup_empty; [done|].
    intros ([k' o] & -> & ([k'' a] & [= -> ->] & Hin)%list_elem_of_fmap)%list_elem_of_fmap.
    apply elem_of_map_to_list in Hin. simpl in Hk. congruence.
  - rewrite <- list_fmap_compose.
    replace ((fst ∘ (λ kv : string * A, (kv.1, body kv.1 kv.2))) <$> map_to_list m)
      with ((map_to_list m).*1); [apply NoDup_fst_map_to_list|].
    apply list_fmap_ext. by intros ? [].
Qed.

Lemma rangeM_Ok_lookup {A B} (body : string → A → outcome B) (m : gmap string A)
    (r : gmap string B) k :
  rangeM body m = Ok r →
  match m !! k with
  | Some a => ∃ b, body k a = Ok b ∧ r !! k = Some b
  | None => r !! k = None
  end.
Proof.
  intros H. destruct (m !! k) as [a|] eqn:Hk.
  - by apply (rangeM_Ok_inv _ _ _ _ _ H Hk).
  - by apply (rangeM_Ok_None _ _ _ _ H Hk).
Qed.

Lemma rangeM_Ok_iff {A B} (body : string → A → outcome B) (m : gmap string A) :
  (∃ r, rangeM body m = Ok r)
  ↔ ∀ k a, m !! k = Some a → ∃ b, body k a = Ok b.
Proof.
  split.
  - intros [r Hr] k a Hk.
    destruct (rangeM_Ok_inv _ _ _ _ _ Hr Hk) as (b & ? & _). eauto.
  - intros H. destruct (rangeM_result body m) as [?|(k & a & Hk & Hf & _)]; [done|].
    destruct (H k a Hk) as [b Hb]. by rewrite Hb in Hf.
Qed.
End range_proofs.

(** ** The steps of [construct], one by one *)
Module response_proofs.
Import pulumi pulumi_spec strings_proofs pulumi_proofs dependencies_proofs range_proofs.
Section response_proofs.
Context `{rt : Runtime Asset Archive Struct}.

Lemma optionsPhase_cases (req : ConstructRequest Struct) :
  (∃ opts, optionsPhase req = Ok opts) ∨ (∃ e, optionsPhase req = Err e).
Proof.
  unfold optionsPhase.
  destruct (rangeM_result (λ _ r, parseProviderReference r) (GetProviders req))
    as [[providers ->]|(pkg & ref & _ & Hf & ->)]; simpl; [by eauto|].
  right. destruct (parseProviderReference_cases ref) as [[_ ->]|(j & _ & Hp)];
    [simpl; by eauto|by rewrite Hp in Hf].
Qed.

Lemma resolvePhase_cases (req : ConstructRequest Struct) (constructF : constructFunc)
    (ctx0 : Context_) (inputs : gmap string (inputValue Host)) (opts : resourceOptions) :
  (∃ r, resolvePhase req constructF ctx0 inputs opts = Ok r)
  ∨ (∃ e, resolvePhase req constructF ctx0 inputs opts = Err e).
Proof.
  unfold resolvePhase.
  destruct (constructF _ _ _ _ _) as [ctx1 [[urn state]|e]]; simpl; [|by eauto].
  destruct (rpcError _); simpl; [by eauto|].
  destruct (awaitURN _) as [rpcURN|e]; simpl; [|by eauto].
  destruct (marshalInputs _) as [[props deps]|e]; simpl; by eauto.
Qed.

Lemma propertyDependencies_closed (deps : list string) :
  (∃ urns, propertyDependencies deps = Ok urns)
  ∨ propertyDependencies deps = Panic "index out of range".
Proof. apply dedupLoop_closed. Qed.

(** X16: the panics of [construct]'s own code.  With collaborators that
    return (the run context, the marshalers, the construction routine and
    the await yield a value or an error and do not panic, and what they
    yield without an error is usable, not [nil]: this is how [Runtime]
    has them), [construct] returns a response or an error, or panics in
    one way only: it has reached the encoding of the response and the loop
    over one of the dependency lists reads past the end of [urns].  A
    panic of a collaborator, or on a [nil] URN returned by the routine
    without an error, is outside this statement. *)
Theorem construct_outcomes (req : ConstructRequest Struct) (engineConn : Conn)
    (constructF : constructFunc) :
  (∃ resp, construct req engineConn constructF = Ok resp)
  ∨ (∃ e, construct req engineConn constructF = Err e)
  ∨ (construct req engineConn constructF = Panic "index out of range"
     ∧ ∃ pulumiCtx rpcURN resolvedProps propertyDeps k deps,
         reachesEncode req engineConn constructF pulumiCtx rpcURN resolvedProps
           propertyDeps
         ∧ propertyDeps !! k = Some deps
         ∧ propertyDependencies deps = Panic "index out of range").
Proof.
  rewrite construct_phases.
  destruct (decodePhase_cases req engineConn) as [[[ctx0 inputs] Hd]|[e Hd]];
    rewrite Hd; simpl; [|by eauto].
  destruct (optionsPhase_cases req) as [[opts Ho]|[e Ho]]; rewrite Ho; simpl;
    [|by eauto].
  destruct (resolvePhase_cases req constructF ctx0 inputs opts)
    as [[[[[ctx1 urn] props] deps] Hr]|[e Hr]]; rewrite Hr; simpl; [|by eauto].
  unfold encodePhase.
  destruct (MarshalProperties _ _) as [rpcProps|e]; simpl; [|by eauto].
  destruct (rangeM_result (λ _ d, propertyDependencies d) deps)
    as [[r ->]|(k & d & Hk & Hf & ->)]; simpl; [by eauto|].
  right. right.
  destruct (propertyDependencies_closed d) as [[urns Hu]|Hu]; rewrite Hu in *;
    [done|].
  split; [done|]. exists ctx1, urn, props, deps, k, d.
  split; [|done]. by exists ctx0, inputs, opts.
Qed.

(** X17: a response that [construct] returns carries the awaited URN, the
    state as the marshaler encoded it, and for every property of the
    dependencies map, and for no other name, a list that is sorted,
    without duplicates, and holds exactly the URNs of the property. *)
Theorem construct_response (req : ConstructRequest Struct) (engineConn : Conn)
    (constructF : constructFunc) (resp : ConstructResponse Struct) :
  construct req engineConn constructF = Ok resp →
  ∃ pulumiCtx resolvedProps propertyDeps,
    reachesEncode req engineConn constructF pulumiCtx (Urn resp) resolvedProps
      propertyDeps
    ∧ MarshalProperties resolvedProps (marshalOptions req pulumiCtx)
      = inl (State resp)
    ∧ ∀ k, match propertyDeps !! k with
           | Some deps =>
               ∃ urns, StateDependencies resp !! k = Some urns
                       ∧ NoDup urns ∧ Sorted string_le urns
                       ∧ ∀ x, x ∈ urns ↔ x ∈ deps
           | None => StateDependencies resp !! k = None
           end.
Proof.
  rewrite construct_phases. intros H.
  apply bind_Ok_inv in H as ([ctx0 inputs] & Hd & H).
  apply bind_Ok_inv in H as (opts & Ho & H).
  apply bind_Ok_inv in H as ([[[ctx1 urn] props] deps] & Hr & H).
  unfold encodePhase in H.
  apply bind_Ok_inv in H as (rpcProps & Hm & H).
  apply bind_Ok_inv in H as (rpcDeps & Hdeps & [= <-]). simpl.
  exists ctx1, props, deps. split; [by exists ctx0, inputs, opts|]. split.
  - destruct (MarshalProperties _ _); simpl in Hm; congruence.
  - intros k.
    pose proof (rangeM_Ok_lookup _ _ _ k Hdeps) as Hk.
    destruct (deps !! k) as [d|]; [|done].
    destruct Hk as (urns & Hu & Hlook). exists urns. split; [done|].
    apply propertyDependencies_kept in Hu as Hkept.
    destruct Hkept as (Hnd & Hs & Hcase).
    split; [done|]. split; [done|].
    intros x. rewrite <- (sortStrings_Permutation d).
    destruct Hcase as [->|(d' & -> & Hl)]; [done|].
    apply last_Some in Hl as [l' ->]. list_mem.
Qed.

(** X18: the options are rebuilt exactly when the separator occurs in
    every provider reference of the request; they then hold a provider
    for each package of the request and for no other name, and a parent
    exactly when the parent of the request is not the empty string. *)
Theorem optionsPhase_providers (req : ConstructRequest Struct) :
  ((∃ opts, optionsPhase req = Ok opts)
   ↔ ∀ pkg ref, GetProviders req !! pkg = Some ref →
       ∃ j, occursAt ref "::" j = true)
  ∧ ∀ opts, optionsPhase req = Ok opts →
      (∀ pkg, is_Some (Providers opts !! pkg) ↔ is_Some (GetProviders req !! pkg))
      ∧ (Parent opts = None ↔ GetParent req = "").
Proof.
  split.
  - split.
    + intros [opts Ho] pkg ref Hpkg.
      destruct (optionsPhase_Ok_inv req opts pkg ref Ho Hpkg) as (p & Hp & _).
      destruct (LastIndex_spec ref "::") as [[Hno _]|(j & _ & Hocc & _)];
        [simpl; lia| |by eauto].
      by rewrite (parseProviderReference_absent ref Hno) in Hp.
    + intros H. unfold optionsPhase.
      assert (∃ providers,
                rangeM (λ _ ref, parseProviderReference ref) (GetProviders req)
                = Ok providers) as [providers ->]; [|simpl; by eauto].
      apply rangeM_Ok_iff. intros pkg ref Hpkg.
      destruct (H pkg ref Hpkg) as [j Hj].
      destruct (parseProviderReference_cases ref) as [[Hno _]|(j' & _ & ->)];
        [|by eauto].
      destruct (LastIndex_spec ref "::") as [[_ Hnone]|(j' & Hj' & _)];
        [simpl; lia| |lia].
      by rewrite Hnone in Hj.
  - intros opts Ho. unfold optionsPhase in Ho.
    apply bind_Ok_inv in Ho as (providers & Hr & [= <-]). simpl. split.
    + intros pkg. pose proof (rangeM_Ok_lookup _ _ _ pkg Hr) as Hk.
      destruct (GetProviders req !! pkg) as [ref|].
      * destruct Hk as (p & _ & ->). split; by eauto.
      * rewrite Hk. done.
    + destruct (String.eqb_spec (GetParent req) ""); split; done.
Qed.

(** X19: the inputs handed to the construction routine are the decoded
    inputs of the request, name by name: each is a [constructInput] with
    the decoded value, its secret flag, and as dependencies the URNs
    declared for its name, in their order; none when no dependencies are
    declared for the name.  Dependencies declared for a name that is not
    an input are dropped. *)
Theorem decodePhase_inputs (req : ConstructRequest Struct) (engineConn : Conn)
    (pulumiCtx : Context_) (inputs : gmap string (inputValue Host)) :
  decodePhase req engineConn = Ok (pulumiCtx, inputs) →
  ∃ deserializedInputs,
    UnmarshalProperties (GetInputs req) (unmarshalOptions req) = inl deserializedInputs
    ∧ ∀ k, match deserializedInputs !! k with
           | Some input =>
               ∃ val sec,
                 unmarshalPropertyValue pulumiCtx input = inl (val, sec)
                 ∧ inputs !! k
                   = Some (IConstructInput
                             {| value := val; secret := sec;
                                deps := newDependencyResource
                                          <$> default [] (GetInputDependencies req !! k) |})
           | None => inputs !! k = None
           end.
Proof.
  unfold decodePhase. intros H.
  apply bind_Ok_inv in H as (ctx0 & Hc & H).
  apply bind_Ok_inv in H as (dins & Hu & H).
  apply bind_Ok_inv in H as (ins & Hr & [= <- <-]).
  exists dins.
  split; [destruct (UnmarshalProperties _ _); simpl in Hu; congruence|].
  intros k. pose proof (rangeM_Ok_lookup _ _ _ k Hr) as Hk.
  destruct (dins !! k) as [input|]; [|done].
  destruct Hk as (b & Hb & ->). unfold constructInputOf in Hb.
  destruct (unmarshalPropertyValue ctx0 input) as [[val sec]|e]; simpl in Hb; [|done].
  injection Hb as <-. exists val, sec. split; [done|].
  by destruct (GetInputDependencies req !! k).
Qed.
End response_proofs.
End response_proofs.

(** ** Binding inputs to a struct, field by field *)
Module binder_proofs.
Import pulumi pulumi_spec adapter adapter_spec pulumi_proofs loops_proofs range_proofs.
Section binder_proofs.
Context {Host : Type} `{refl : Reflection}.

Lemma setInput_stuck (o : outcome (list (StructField Host)))
    (l : list (string * inputValue Host)) :
  is_Ok o = false → foldl setInput o l = o.
Proof.
  revert o. induction l as [|kv l IH]; intros o Ho; [done|]. simpl.
  rewrite IH; by destruct o.
Qed.

Lemma fieldStep_stuck (o : outcome (StructField Host))
    (l : list (string * inputValue Host)) :
  is_Ok o = false → foldl fieldStep o l = o.
Proof.
  revert o. induction l as [|kv l IH]; intros o Ho; [done|]. simpl.
  rewrite IH; by destruct o.
Qed.

Lemma setInput_Ok_inv (fields fields1 : list (StructField Host))
    (kv : string * inputValue Host) :
  setInput (Ok fields) kv = Ok fields1 →
  ∃ val, kv.2 = IConstructInput val ∧ mapM (setField kv.1 val) fields = Ok fields1.
Proof.
  unfold setInput. simpl. destruct kv.2 as [val|]; simpl; [|done]. by eauto.
Qed.

(** The struct is left as each field is left by its own turns. *)
Lemma setInput_fieldwise (l : list (string * inputValue Host))
    (fields fields' : list (StructField Host)) :
  foldl setInput (Ok fields) l = Ok fields' →
  Forall2 (λ f f', foldl fieldStep (Ok f) l = Ok f') fields fields'.
Proof.
  revert fields. induction l as [|kv l IH]; intros fields H.
  { injection H as <-. by apply Forall_Forall2_diag, Forall_forall. }
  change (foldl setInput (Ok fields) (kv :: l))
    with (foldl setInput (setInput (Ok fields) kv) l) in H.
  destruct (setInput (Ok fields) kv) as [fields1| |] eqn:E;
    [|by rewrite setInput_stuck in H..].
  apply setInput_Ok_inv in E as (val & Hval & Hm).
  apply mapM_Ok_Forall2 in Hm. apply IH in H.
  apply Forall2_same_length_lookup. split.
  { by rewrite (Forall2_length _ _ _ Hm), (Forall2_length _ _ _ H). }
  intros i f f' Hf Hf'.
  destruct (Forall2_lookup_l _ _ _ _ _ Hm Hf) as (f1 & Hf1 & Hset).
  destruct (Forall2_lookup_l _ _ _ _ _ H Hf1) as (f'' & Hf'' & Hrest).
  assert (f'' = f') as -> by congruence.
  simpl. rewrite Hval. simpl. by rewrite Hset.
Qed.

Lemma setField_not_named (k : string) (val : constructInput Host)
    (field : StructField Host) :
  Tag_Lookup (Tag field) "pulumi" ≠ Some k → setField k val field = Ok field.
Proof.
  intros Hne. destruct (Tag_Lookup (Tag field) "pulumi") as [tag|] eqn:Htag.
  - apply (setField_other_name _ _ _ tag); congruence.
  - by apply setField_untagged.
Qed.

Lemma setField_named (k : string) (val : constructInput Host)
    (field field1 : StructField Host) :
  Tag_Lookup (Tag field) "pulumi" = Some k →
  setField k val field = Ok field1 →
  field1 = bound {[ k := IConstructInput val ]} field
  ∧ Tag field1 = Tag field.
Proof.
  intros Htag. unfold setField, bound.
  rewrite Htag, lookup_singleton_eq, String.eqb_refl. simpl.
  destruct (CanSet field); simpl; [|by intros [= <-]].
  destruct (ImplementsInput (Type_ field)); simpl; [|by intros [= <-]].
  destruct (outputTypeFor (Type_ field)) as [outputType|]; [|by intros [= <-]].
  unfold Set_. simpl. destruct (AssignableTo _ _); [|done]. by intros [= <-].
Qed.

(** A field is not touched by the inputs of other names. *)
Lemma fieldStep_others (l : list (string * inputValue Host))
    (f f' : StructField Host) :
  (∀ kv, kv ∈ l → Tag_Lookup (Tag f) "pulumi" ≠ Some kv.1) →
  foldl fieldStep (Ok f) l = Ok f' → f' = f.
Proof.
  induction l as [|[k v] l IH]; intros Hl H; [by injection H|].
  simpl in H.
  destruct v as [val|]; simpl in H; [|by rewrite fieldStep_stuck in H].
  rewrite setField_not_named in H by (apply (Hl (k, IConstructInput val)); by left).
  apply IH; [|done]. intros kv Hin. apply Hl. by right.
Qed.

Lemma bound_insert_ne (inputs : gmap string (inputValue Host)) k v
    (f : StructField Host) :
  Tag_Lookup (Tag f) "pulumi" ≠ Some k → bound (<[k := v]> inputs) f = bound inputs f.
Proof.
  intros Hne. unfold bound.
  destruct (Tag_Lookup (Tag f) "pulumi") as [tag|]; [|done].
  rewrite lookup_insert_ne; [done|congruence].
Qed.

Lemma fieldStep_bound (l : list (string * inputValue Host))
    (f f' : StructField Host) :
  NoDup l.*1 → foldl fieldStep (Ok f) l = Ok f' →
  f' = bound (list_to_map l) f.
Proof.
  revert f. induction l as [|[k v] l IH]; intros f Hnd H.
  { injection H as <-. unfold bound. simpl.
    destruct (Tag_Lookup _ _); [|done]. by rewrite lookup_empty. }
  apply NoDup_cons in Hnd as [Hk Hnd].
  simpl in H.
  destruct v as [val|]; simpl in H; [|by rewrite fieldStep_stuck in H].
  destruct (setField k val f) as [f1| |] eqn:E; [|by rewrite fieldStep_stuck in H..].
  simpl. destruct (decide (Tag_Lookup (Tag f) "pulumi" = Some k)) as [Htag|Htag].
  - apply setField_named in E as [-> Htag1]; [|done].
    apply fieldStep_others in H.
    + rewrite H. unfold bound. rewrite Htag.
      by rewrite lookup_insert_eq, lookup_singleton_eq.
    + intros kv Hin. rewrite Htag1, Htag. intros [= ->].
      apply Hk. apply list_elem_of_fmap. by exists kv.
  - rewrite setField_not_named in E by done. injection E as <-.
    rewrite bound_insert_ne by done. by apply IH.
Qed.

(** The struct is left with every field as bound. *)
Lemma setInput_bound (inputs : gmap string (inputValue Host))
    (fields fields' : list (StructField Host)) :
  foldl setInput (Ok fields) (map_to_list inputs) = Ok fields' →
  Forall2 (λ f f', f' = bound inputs f) fields fields'.
Proof.
  intros H%setInput_fieldwise. eapply Forall2_impl; [exact H|].
  intros f f' Hfold. simpl in Hfold.
  rewrite (fieldStep_bound _ _ _ (NoDup_fst_map_to_list inputs) Hfold).
  by rewrite list_to_map_to_list.
Qed.

Lemma constructInputsSetArgs_In (inputs : gmap string (inputValue Host))
    (args : argsValue Host) :
  constructInputsSetArgs inputs args
  = constructInputsSetArgsIn (map_to_list inputs) args.
Proof. by destruct args. Qed.

(** In whatever order the inputs are visited, the struct is left with
    every field as bound. *)
Lemma setInput_bound_in (inputs : gmap string (inputValue Host))
    (order : list (string * inputValue Host))
    (fields fields' : list (StructField Host)) :
  order ≡ₚ map_to_list inputs →
  foldl setInput (Ok fields) order = Ok fields' →
  fields' = bound inputs <$> fields.
Proof.
  intros Hperm H%setInput_fieldwise.
  assert (NoDup order.*1) as Hnd.
  { rewrite Hperm. apply NoDup_fst_map_to_list. }
  assert (list_to_map order = inputs) as Hmap.
  { rewrite (list_to_map_proper order (map_to_list inputs) Hnd Hperm).
    apply list_to_map_to_list. }
  symmetry. apply list_eq_Forall2, Forall2_fmap_l.
  eapply Forall2_impl; [exact H|]. intros f f' Hfold. simpl in Hfold.
  by rewrite (fieldStep_bound _ _ _ Hnd Hfold), Hmap.
Qed.

(** A turn of the loop over the fields leaves the tag, the type and
    [CanSet] of the field, on which alone it depends whether the turn
    panics. *)
Lemma setField_attrs (k : string) (val : constructInput Host)
    (f f' : StructField Host) :
  setField k val f = Ok f' →
  Tag f' = Tag f ∧ CanSet f' = CanSet f ∧ Type_ f' = Type_ f.
Proof.
  unfold setField, Set_. destruct (negb _); [by intros [= <-]|].
  destruct (Tag_Lookup _ _); [|by intros [= <-]].
  destruct (negb _); [by intros [= <-]|]. destruct (negb _); [by intros [= <-]|].
  destruct (outputTypeFor _); [|by intros [= <-]].
  destruct (AssignableTo _ _); [|done]. by intros [= <-].
Qed.

Lemma setField_is_Ok (k : string) (val : constructInput Host)
    (f1 f2 : StructField Host) :
  Tag f1 = Tag f2 → CanSet f1 = CanSet f2 → Type_ f1 = Type_ f2 →
  is_Ok (setField k val f1) = is_Ok (setField k val f2).
Proof.
  intros Ht Hc Hty. unfold setField, Set_. rewrite Ht, Hc, Hty.
  destruct (negb _); [done|]. destruct (Tag_Lookup _ _); [|done].
  destruct (negb _); [done|]. destruct (negb _); [done|].
  destruct (outputTypeFor _); [|done]. simpl. by destruct (AssignableTo _ _).
Qed.

(** The loops return exactly when every input is a [*constructInput] and
    no turn for it panics on a field of the struct: a condition on the
    entries, whatever their order. *)
Lemma setInput_Ok_iff (order : list (string * inputValue Host))
    (fields : list (StructField Host)) :
  (∃ fields', foldl setInput (Ok fields) order = Ok fields')
  ↔ ∀ k v, (k, v) ∈ order →
      ∃ val, v = IConstructInput val
             ∧ ∀ f, f ∈ fields → is_Ok (setField k val f) = true.
Proof.
  revert fields. induction order as [|[k v] rest IH]; intros fields.
  { split; [|by eauto]. intros _ k v Hin. by inversion Hin. }
  change (foldl setInput (Ok fields) ((k, v) :: rest))
    with (foldl setInput (setInput (Ok fields) (k, v)) rest).
  split.
  - intros [fields' H].
    destruct (setInput (Ok fields) (k, v)) as [fields1| |] eqn:E;
      [|by rewrite setInput_stuck in H..].
    apply setInput_Ok_inv in E as (val & Hval & Hm). simpl in Hval, Hm.
    apply mapM_Ok_Forall2 in Hm.
    pose proof (proj1 (IH fields1) (ex_intro _ fields' H)) as Hrest.
    intros k' v' [[= -> ->]|Hin]%elem_of_cons.
    + exists val. split; [done|]. intros f [i Hi]%list_elem_of_lookup.
      destruct (Forall2_lookup_l _ _ _ _ _ Hm Hi) as (f1 & _ & ->). done.
    + destruct (Hrest k' v' Hin) as (val' & -> & Hall). exists val'.
      split; [done|]. intros f [i Hi]%list_elem_of_lookup.
      destruct (Forall2_lookup_l _ _ _ _ _ Hm Hi) as (f1 & Hf1 & Hset).
      apply setField_attrs in Hset as (Ht & Hc & Hty).
      rewrite <- (setField_is_Ok k' val' f1 f Ht Hc Hty).
      apply Hall. by eapply list_elem_of_lookup_2.
  - intros Hall.
    destruct (Hall k v) as (val & -> & Hhead); [by left|].
    assert (∃ fields1, mapM (setField k val) fields = Ok fields1) as [fields1 Hm].
    { apply deployment_proofs.mapM_Ok_exists. intros i f Hi.
      specialize (Hhead f (list_elem_of_lookup_2 _ _ _ Hi)).
      destruct (setField k val f); [by eauto|done..]. }
    assert (setInput (Ok fields) (k, IConstructInput val) = Ok fields1) as ->
      by done.
    apply IH. intros k' v' Hin.
    destruct (Hall k' v') as (val' & -> & Hrest); [by right|].
    exists val'. split; [done|]. intros f1 [i Hi]%list_elem_of_lookup.
    apply mapM_Ok_Forall2 in Hm.
    destruct (Forall2_lookup_r _ _ _ _ _ Hm Hi) as (f & Hf & Hset).
    apply setField_attrs in Hset as (Ht & Hc & Hty).
    rewrite (setField_is_Ok k' val' f1 f Ht Hc Hty).
    apply Hrest. by eapply list_elem_of_lookup_2.
Qed.

(** X20: the order in which the [range] of [constructInputsSetArgs]
    visits the inputs has no effect.  When it returns [nil] on a pointer
    to a struct in one order, every field is left as bound: populated
    from the input named by its tag when there is one and the field can
    be set, is of an input type and has a fitting output type; unchanged
    otherwise.  And then it returns [nil] in every other order, the order
    of the model among them, with the same fields. *)
Theorem constructInputsSetArgs_bound (inputs : gmap string (inputValue Host))
    (order : list (string * inputValue Host))
    (fields fields' : list (StructField Host)) :
  order ≡ₚ map_to_list inputs →
  constructInputsSetArgsIn order (ArgsPtrToStruct fields) = Ok fields' →
  fields' = bound inputs <$> fields
  ∧ (∀ order', order' ≡ₚ map_to_list inputs →
       constructInputsSetArgsIn order' (ArgsPtrToStruct fields) = Ok fields')
  ∧ constructInputsSetArgs inputs (ArgsPtrToStruct fields) = Ok fields'.
Proof.
  simpl. intros Hperm H.
  assert (∀ order', order' ≡ₚ map_to_list inputs →
            foldl setInput (Ok fields) order' = Ok (bound inputs <$> fields))
    as Hany.
  { intros order' Hperm'.
    destruct (proj2 (setInput_Ok_iff order' fields)) as [fields'' H''].
    - intros k v Hin. apply (proj1 (setInput_Ok_iff order fields)); [by eauto|].
      by rewrite Hperm, <- Hperm'.
    - by rewrite H'', (setInput_bound_in inputs order' fields fields''). }
  apply (setInput_bound_in inputs) in H as ->; [|done].
  split; [done|]. split; [done|]. by apply Hany.
Qed.

Lemma setField_closed (k : string) (val : constructInput Host)
    (field : StructField Host) :
  (∃ f, setField k val field = Ok f)
  ∨ setField k val field
    = Panic "reflect.Set: value is not assignable to the field's type".
Proof.
  unfold setField. destruct (negb _); [by eauto|].
  destruct (Tag_Lookup _ _); [|by eauto].
  destruct (negb _); [by eauto|]. destruct (negb _); [by eauto|].
  destruct (outputTypeFor _); [|by eauto].
  unfold Set_. destruct (AssignableTo _ _); by eauto.
Qed.

Lemma setInput_never_Err (l : list (string * inputValue Host))
    (o : outcome (list (StructField Host))) e :
  (∀ e', o ≠ Err e') → foldl setInput o l ≠ Err e.
Proof.
  revert o. induction l as [|[k v] l IH]; intros o Ho; [by apply Ho|].
  simpl. apply IH. intros e'. destruct o as [fields|e0|msg]; simpl;
    [|by destruct (Ho e0)|done].
  unfold setInput. simpl. destruct v as [val|]; simpl; [|done].
  destruct (mapM_closed (setField k val) fields _
              (λ i x _, setField_closed k val x)) as [[fs ->]| ->]; done.
Qed.

Lemma setInput_other (l : list (string * inputValue Host))
    (o : outcome (list (StructField Host))) k :
  (k, IOther) ∈ l → is_Ok (foldl setInput o l) = false.
Proof.
  revert o. induction l as [|kv l IH]; intros o Hin; [by inversion Hin|].
  apply elem_of_cons in Hin as [<-|Hin]; [|by apply IH].
  simpl. rewrite setInput_stuck; by destruct o.
Qed.

(** X21: [constructInputsSetArgs] returns an error only for [args] that
    is [nil] or not a pointer to a struct, and then whatever the inputs.
    On a pointer to a struct it returns [nil] or panics, and it panics
    when one of the inputs is not a [*constructInput], even on a struct
    without fields. *)
Theorem constructInputsSetArgs_errors (inputs : gmap string (inputValue Host))
    (args : argsValue Host) :
  (∀ e, constructInputsSetArgs inputs args = Err e
        ↔ (args = ArgsNil ∧ e = "args must not be nil")
          ∨ (args = ArgsOther ∧ e = "args must be a pointer to a struct"))
  ∧ (∀ fields k, args = ArgsPtrToStruct fields → inputs !! k = Some IOther →
       ∃ msg, constructInputsSetArgs inputs args = Panic msg).
Proof.
  split.
  - intros e. destruct args as [|fields|]; simpl.
    + split; [intros [= <-]; by left|]. by intros [[_ ->]|[? _]].
    + split; [|by intros [[? _]|[? _]]].
      intros H. by apply setInput_never_Err in H.
    + split; [intros [= <-]; by right|]. by intros [[? _]|[_ ->]].
  - intros fields k -> Hk. simpl.
    pose proof (setInput_other (map_to_list inputs) (Ok fields) k) as Hf.
    pose proof (setInput_never_Err (map_to_list inputs) (Ok fields)) as Hne.
    destruct (foldl setInput (Ok fields) (map_to_list inputs)) as [fs|e|msg].
    + discriminate Hf. by apply elem_of_map_to_list.
    + by destruct (Hne e).
    + by eauto.
Qed.

(** X22: [constructInputsMap] returns a map exactly when every input is a
    [*constructInput]; the map then has the names of the inputs, each
    with an output of type [anyOutputType] that is resolved with the
    value and secret flag of the input, known, with its dependencies.
    Otherwise it panics on the type assertion. *)
Theorem constructInputsMap_outcome (inputs : gmap string (inputValue Host)) :
  constructInputsMap inputs
  = if map_fold (λ _ (b acc : bool), b || acc) false (isOther <$> inputs)
    then Panic "interface conversion: not *pulumi.constructInput"
    else Ok (omap mapEntry inputs).
Proof.
  unfold constructInputsMap.
  set (body := λ (_ : string) (v : inputValue Host),
         val ← assertConstructInput v;
         Ok (resolve (newOutput anyOutputType (deps val)) (value val) true
               (secret val) None)).
  assert (∀ v, body "" v = match mapEntry v with
                          | Some o => Ok o
                          | None => Panic "interface conversion: not *pulumi.constructInput"
                          end) as Hbody by (by intros []).
  destruct (map_fold _ _ _) eqn:R.
  - apply map_fold_orb_true in R as (k & v & Hk & Hv). destruct v; [done|].
    destruct (rangeM_result body inputs) as [[r Hr]|(k' & v' & _ & Hf & ->)].
    + destruct (rangeM_Ok_inv _ _ _ _ _ Hr Hk) as (b & Hb & _). done.
    + by destruct v'.
  - rewrite map_fold_orb_false in R.
    destruct (proj2 (rangeM_Ok_iff body inputs)) as [r Hr].
    { intros k v Hk. specialize (R k v Hk). destruct v; [|done]. simpl. by eauto. }
    rewrite Hr. f_equal. apply map_eq. intros k. rewrite lookup_omap.
    pose proof (rangeM_Ok_lookup _ _ _ k Hr) as Hlook.
    destruct (inputs !! k) as [v|] eqn:Hk; simpl; [|done].
    destruct Hlook as (b & Hb & ->). specialize (R k v Hk).
    destruct v; [|done]. simpl in Hb. by injection Hb as <-.
Qed.
End binder_proofs.
End binder_proofs.

(** ** The state of a construct result *)
Module result_proofs.
Import pulumi pulumi_spec adapter adapter_spec.
Section result_proofs.
Context {Host : Type} `{refl : Reflection}.

Ltac foldl_cons :=
  match goal with
  | |- context [foldl ?f ?a (?x :: ?l)] =>
      change (foldl f a (x :: l)) with (foldl f (f a x) l)
  end.

#[local] Abbreviation unexported :=
  "reflect.Value.Interface: cannot return value obtained from unexported field or method".

Lemma stateField_stuck (isInput : Host → bool)
    (o : outcome (gmap string (fieldValue Host))) (fields : list (StructField Host)) :
  is_Ok o = false → foldl (stateField isInput) o fields = o.
Proof.
  revert o. induction fields as [|f fields IH]; intros o Ho; [done|]. simpl.
  rewrite IH; by destruct o.
Qed.

Lemma stateField_Ok (isInput : Host → bool) (state : gmap string (fieldValue Host))
    (fields : list (StructField Host)) :
  (∀ f, f ∈ fields → is_Some (Tag_Lookup (Tag f) "pulumi") → CanSet f = true) →
  ∃ state', foldl (stateField isInput) (Ok state) fields = Ok state'.
Proof.
  revert state. induction fields as [|f fields IH]; intros state H; [by eauto|].
  foldl_cons. assert (∃ st, stateField isInput (Ok state) f = Ok st) as [st ->].
  { unfold stateField. simpl.
    destruct (Tag_Lookup (Tag f) "pulumi") as [tag|] eqn:Htag; [|by eauto].
    rewrite (H f) by (by left || by eauto). simpl.
    destruct (implementsInput isInput (Value f)); by eauto. }
  apply IH. intros f' Hin. apply H. by right.
Qed.

Lemma stateField_unexported (isInput : Host → bool)
    (state : gmap string (fieldValue Host)) (fields : list (StructField Host))
    (f : StructField Host) :
  f ∈ fields → is_Some (Tag_Lookup (Tag f) "pulumi") → CanSet f = false →
  foldl (stateField isInput) (Ok state) fields = Panic unexported.
Proof.
  revert state. induction fields as [|f' fields IH]; intros state Hin [tag Htag] Hset;
    [by inversion Hin|].
  foldl_cons.
  assert ((∃ st, stateField isInput (Ok state) f' = Ok st)
          ∨ stateField isInput (Ok state) f' = Panic unexported) as [[st Hst]|Hst].
  { unfold stateField. simpl. destruct (Tag_Lookup (Tag f') "pulumi"); [|by eauto].
    destruct (CanSet f'); simpl; [|by right].
    destruct (implementsInput isInput (Value f')); by eauto. }
  - rewrite Hst. apply elem_of_cons in Hin as [->|Hin]; [|by apply IH; eauto].
    unfold stateField in Hst. simpl in Hst. by rewrite Htag, Hset in Hst.
  - rewrite Hst. by apply stateField_stuck.
Qed.

(** X23: [newConstructResult] returns an error exactly for a resource
    that is [nil] or not a pointer to a struct.  On a pointer to an actual
    struct (not a [nil] pointer of a pointer-to-struct type: there
    [reflect.Value.Field] panics, and the model has no such case) it
    returns the URN of the resource and a state when every field tagged
    [pulumi] is exported, and panics when one is not, whether or not the
    value of that field is an input. *)
Theorem newConstructResult_outcome {U : Type} (isInput : Host → bool)
    (resource : argsValue Host) (urn : U) :
  (∀ e, newConstructResult isInput resource urn = Err e
        ↔ (resource = ArgsNil ∧ e = "resource must not be nil")
          ∨ (resource = ArgsOther ∧ e = "resource must be a pointer to a struct"))
  ∧ ∀ fields, resource = ArgsPtrToStruct fields →
      ((∀ f, f ∈ fields → is_Some (Tag_Lookup (Tag f) "pulumi") → CanSet f = true) →
       ∃ state, newConstructResult isInput resource urn = Ok (urn, state))
      ∧ (∀ f, f ∈ fields → is_Some (Tag_Lookup (Tag f) "pulumi") →
           CanSet f = false →
           newConstructResult isInput resource urn = Panic unexported).
Proof.
  split.
  - intros e. destruct resource as [|fields|]; simpl.
    + split; [intros [= <-]; by left|]. by intros [[_ ->]|[? _]].
    + split; [|by intros [[? _]|[? _]]].
      destruct (foldl _ _ _) as [st|e'|msg] eqn:E; simpl; [done| |done].
      exfalso. revert E. generalize (∅ : gmap string (fieldValue Host)).
      induction fields as [|f fields IH]; intros st0; [done|]. foldl_cons.
      destruct (stateField isInput (Ok st0) f) as [st1|e1|msg1] eqn:E1.
      * apply IH.
      * unfold stateField in E1. simpl in E1.
        destruct (Tag_Lookup _ _); [|done]. destruct (CanSet f); simpl in E1; [|done].
        by destruct (implementsInput _ _).
      * by rewrite stateField_stuck.
    + split; [intros [= <-]; by right|]. by intros [[? _]|[_ ->]].
  - intros fields ->. simpl. split.
    + intros H. destruct (stateField_Ok isInput ∅ fields H) as [st ->]. simpl. by eauto.
    + intros f Hin Htag Hset.
      by rewrite (stateField_unexported isInput ∅ fields f Hin Htag Hset).
Qed.

Lemma stateFieldsFor_snoc (isInput : Host → bool) (tag : string)
    (fields : list (StructField Host)) (f : StructField Host) :
  stateFieldsFor isInput tag (fields ++ [f])
  = if decide (Tag_Lookup (Tag f) "pulumi" = Some tag
               ∧ implementsInput isInput (Value f) = true)
    then (stateFieldsFor isInput tag fields ++ [f])%list
    else stateFieldsFor isInput tag fields.
Proof.
  unfold stateFieldsFor. rewrite filter_app, filter_cons, filter_nil.
  destruct (decide _); [done|]. by rewrite app_nil_r.
Qed.

Lemma stateField_lookup (isInput : Host → bool) (fields : list (StructField Host))
    (state : gmap string (fieldValue Host)) (tag : string) :
  foldl (stateField isInput) (Ok ∅) fields = Ok state →
  state !! tag = Value <$> last (stateFieldsFor isInput tag fields).
Proof.
  revert state. induction fields as [|f fields IH] using rev_ind; intros state H.
  { injection H as <-. by rewrite lookup_empty. }
  rewrite foldl_app in H. simpl in H.
  destruct (foldl (stateField isInput) (Ok ∅) fields) as [st0| |]; [|done..].
  specialize (IH st0 eq_refl). rewrite stateFieldsFor_snoc.
  unfold stateField in H. simpl in H.
  destruct (Tag_Lookup (Tag f) "pulumi") as [t|] eqn:Htag; simpl in H.
  - destruct (CanSet f); simpl in H; [|done].
    destruct (implementsInput isInput (Value f)) eqn:Hin; injection H as <-.
    + destruct (decide (t = tag)) as [->|Hne].
      * rewrite decide_True by done. by rewrite lookup_insert_eq, last_snoc.
      * rewrite decide_False by (intros [[= ?] _]; done).
        by rewrite lookup_insert_ne.
    + by rewrite decide_False by (by intros [_ ?]).
  - injection H as <-. by rewrite decide_False by (by intros [? _]).
Qed.

(** X24: the state that [newConstructResult] returns holds, under each
    tag, the value of the last field that carries the tag and whose value
    is an input, and nothing under a name that is the tag of no such
    field; fields without the tag [pulumi] and values that are not inputs
    leave no trace.  The URN is the one of the resource. *)
Theorem newConstructResult_state {U : Type} (isInput : Host → bool)
    (fields : list (StructField Host)) (urn urn' : U)
    (state : gmap string (fieldValue Host)) :
  newConstructResult isInput (ArgsPtrToStruct fields) urn = Ok (urn', state) →
  urn' = urn
  ∧ ∀ tag, state !! tag = Value <$> last (stateFieldsFor isInput tag fields).
Proof.
  simpl. intros H. apply bind_Ok_inv in H as (st & Hst & [= <- <-]).
  split; [done|]. intros tag. by apply stateField_lookup.
Qed.
Lemma bound_Tag (inputs : gmap string (inputValue Host)) (f : StructField Host) :
  Tag (bound inputs f) = Tag f.
Proof.
  unfold bound. destruct (Tag_Lookup _ _); [|done].
  destruct (inputs !! _) as [[val|]|]; try done.
  destruct (_ && _); [|done]. by destruct (outputTypeFor _).
Qed.

(** X25: what the binder writes, the reader of the state finds.  When
    the inputs have been bound to a struct, a field that was populated
    from the input under its tag, with no later field of the same tag,
    is in the state that [newConstructResult] builds from the struct:
    under the tag is the output resolved with the value, secret flag and
    dependencies of the input. *)
Theorem bound_field_read_back {U : Type} (isInput : Host → bool)
    (inputs : gmap string (inputValue Host))
    (pre post fields' : list (StructField Host)) (f : StructField Host)
    (k : string) (val : constructInput Host) (outputType : rtype)
    (urn urn' : U) (state : gmap string (fieldValue Host)) :
  constructInputsSetArgs inputs (ArgsPtrToStruct (pre ++ f :: post)) = Ok fields' →
  Tag_Lookup (Tag f) "pulumi" = Some k →
  inputs !! k = Some (IConstructInput val) →
  CanSet f = true → ImplementsInput (Type_ f) = true →
  outputTypeFor (Type_ f) = Some outputType →
  (∀ g, g ∈ post → Tag_Lookup (Tag g) "pulumi" ≠ Some k) →
  newConstructResult isInput (ArgsPtrToStruct fields') urn = Ok (urn', state) →
  state !! k = Some (VOutput (outputOf outputType val)).
Proof.
  intros Hset Htag Hin Hcs Himpl Hot Hpost Hres. simpl in Hset, Hres.
  apply binder_proofs.setInput_bound in Hset.
  apply Forall2_app_inv_l in Hset as (pre' & rest' & _ & Hrest & ->).
  apply Forall2_cons_inv_l in Hrest as (f' & post' & -> & Hpost' & ->).
  apply bind_Ok_inv in Hres as (st & Hst & [= <- <-]).
  rewrite (stateField_lookup _ _ _ k Hst). unfold stateFieldsFor.
  rewrite filter_app, filter_cons.
  assert (filter (λ g, Tag_Lookup (Tag g) "pulumi" = Some k
                       ∧ implementsInput isInput (Value g) = true) post' = [])
    as ->.
  { apply elem_of_nil_inv. intros g' [[Hk _] Hg']%list_elem_of_filter.
    apply list_elem_of_lookup in Hg' as [i Hi].
    destruct (Forall2_lookup_r _ _ _ _ _ Hpost' Hi) as (g & Hg & ->).
    rewrite bound_Tag in Hk. apply (Hpost g); [|done].
    by eapply list_elem_of_lookup_2. }
  assert (bound inputs f = populated f val outputType) as Hb.
  { unfold bound. by rewrite Htag, Hin, Hcs, Himpl, Hot. }
  rewrite decide_True by (by rewrite Hb).
  by rewrite last_snoc, Hb.
Qed.
End result_proofs.
End result_proofs.

(** ** The further properties on the sample data *)
Module further_examples.
Import stack stack_spec codec_spec deployment pulumi pulumi_spec adapter adapter_spec.
Import codec_proofs deployment_proofs dependencies_proofs response_proofs
  binder_proofs result_proofs.

Lemma SerializeProperties_no_nil_witness :
  SerializeProperties sample.nullAndString = Ok {[ "y" := WStr "v" ]}
  ∧ (WStr "v" : wire string string) ≠ WNil
  ∧ ∃ v, sample.nullAndString !! "y" = Some v
         ∧ SerializePropertyValue v = Ok (WStr "v").
Proof.
  assert (SerializeProperties sample.nullAndString = Ok {[ "y" := WStr "v" ]}) as H1
    by (vm_compute; reflexivity).
  split; [exact H1|].
  apply (SerializeProperties_no_nil sample.nullAndString _ "y" (WStr "v") H1).
  vm_compute; reflexivity.
Defined.

Lemma DeserializeProperties_lookup_witness :
  DeserializeProperties (Some {[ "y" := WStr "v" ]})
  = Ok ({[ "y" := PString "v" ]} : gmap string (PropertyValue string string))
  ∧ ∃ prop, DeserializePropertyValue (WStr "v" : wire string string) = Ok prop
            ∧ ({[ "y" := PString "v" ]} : gmap string (PropertyValue string string))
                !! "y" = Some prop.
Proof.
  assert (DeserializeProperties (Some {[ "y" := WStr "v" ]})
          = Ok ({[ "y" := PString "v" ]} : gmap string (PropertyValue string string)))
    as H1 by (vm_compute; reflexivity).
  split; [exact H1|].
  exact (DeserializeProperties_lookup (Some {[ "y" := WStr "v" ]}) _ "y" H1).
Defined.

Lemma PlainWire_roundtrip_witness :
  PlainWire fixtures.plainTree
  ∧ ∃ prop, DeserializePropertyValue fixtures.plainTree = Ok prop
            ∧ SerializePropertyValue prop = Ok fixtures.plainTree.
Proof.
  assert (PlainWire fixtures.plainTree) as H1.
  { apply PlainWire_map.
    - intros k v [_ <-]%lookup_singleton_Some. apply PlainWire_arr.
      intros [|[|i]] w; simpl; intros [= <-]; constructor.
    - by intros k v [_ <-]%lookup_singleton_Some.
    - vm_compute; reflexivity.
    - vm_compute; reflexivity. }
  split; [exact H1|]. exact (PlainWire_roundtrip fixtures.plainTree H1).
Defined.

Lemma SerializeResource_children_witness :
  SerializeResource (Some (sample.state "urn:x" None ["b"; "a"]))
  = Ok (fixtures.record "urn:x" ["a"; "b"])
  ∧ Sorted string_le ["a"; "b"]
  ∧ ["a"; "b"] ≡ₚ ["b"; "a"]
  ∧ (Sorted string_le ["b"; "a"] → ["a"; "b"] = ["b"; "a"]).
Proof.
  assert (SerializeResource (Some (sample.state "urn:x" None ["b"; "a"]))
          = Ok (fixtures.record "urn:x" ["a"; "b"])) as H1
    by (vm_compute; reflexivity).
  split; [exact H1|].
  exact (SerializeResource_children (sample.state "urn:x" None ["b"; "a"])
           (fixtures.record "urn:x" ["a"; "b"]) H1).
Defined.

Lemma SerializeDeployment_keeps_order_witness :
  SerializeDeployment (Some fixtures.snapshot) = Ok fixtures.deployed
  ∧ Time fixtures.deployed = snapTime fixtures.snapshot
  ∧ Info fixtures.deployed = snapInfo fixtures.snapshot
  ∧ length (Resources fixtures.deployed) = length (snapResources fixtures.snapshot)
  ∧ ∀ i res, snapResources fixtures.snapshot !! i = Some res →
      ∃ r, Resources fixtures.deployed !! i = Some r ∧ SerializeResource res = Ok r.
Proof.
  assert (SerializeDeployment (Some fixtures.snapshot) = Ok fixtures.deployed) as H1
    by (vm_compute; reflexivity).
  split; [exact H1|].
  exact (SerializeDeployment_keeps_order fixtures.snapshot fixtures.deployed H1).
Defined.

Lemma propertyDependencies_sound_witness :
  propertyDependencies ["b"; "a"; "c"] = Ok ["a"; "b"; "c"]
  ∧ NoDup ["a"; "b"; "c"] ∧ Sorted string_le ["a"; "b"; "c"]
  ∧ ∀ x, x ∈ ["a"; "b"; "c"] ↔ x ∈ ["b"; "a"; "c"].
Proof.
  assert (propertyDependencies ["b"; "a"; "c"] = Ok ["a"; "b"; "c"]) as H1
    by (vm_compute; reflexivity).
  split; [exact H1|].
  exact (propertyDependencies_sound ["b"; "a"; "c"] ["a"; "b"; "c"] H1).
Defined.

Lemma propertyDependencies_duplicate_panics_witness :
  ["b"; "a"; "a"; "c"] ≡ₚ ["a"; "a"; "b"; "c"]
  ∧ string_le "a" "b" ∧ "a" ≠ "b"
  ∧ propertyDependencies ["b"; "a"; "a"; "c"] = Panic "index out of range".
Proof.
  assert (["b"; "a"; "a"; "c"] ≡ₚ ["a"; "a"; "b"; "c"]) as H1.
  { etrans; [apply perm_swap|]. apply perm_skip, perm_swap. }
  assert (string_le "a" "b") as H2 by (vm_compute; reflexivity).
  assert ("a" ≠ "b") as H3 by discriminate.
  split; [exact H1|]. split; [exact H2|]. split; [exact H3|].
  exact (propertyDependencies_duplicate_panics ["b"; "a"; "a"; "c"] ["c"] "a" "b"
           H1 H2 H3).
Defined.

Lemma propertyDependencies_trailing_duplicate_witness :
  sortStrings ["b"; "a"; "b"] = ["a"; "b"; "b"]
  ∧ NoDup ["a"; "b"]
  ∧ propertyDependencies ["b"; "a"; "b"] = Ok ["a"; "b"].
Proof.
  assert (sortStrings ["b"; "a"; "b"] = (["a"] ++ ["b"; "b"])%list) as H1
    by (vm_compute; reflexivity).
  assert (NoDup (["a"] ++ ["b"])%list) as H2
    by (repeat constructor; list_mem).
  split; [exact H1|]. split; [exact H2|].
  exact (propertyDependencies_trailing_duplicate ["b"; "a"; "b"] ["a"] "b" H1 H2).
Defined.

Lemma construct_response_witness :
  construct (sample.request true ∅) tt
    (sample.routine {[ "out" := PString "v" ]} {[ "out" := ["b"; "a"; "c"] ]})
  = Ok fixtures.response
  ∧ ∃ pulumiCtx resolvedProps propertyDeps,
      reachesEncode (sample.request true ∅) tt
        (sample.routine {[ "out" := PString "v" ]} {[ "out" := ["b"; "a"; "c"] ]})
        pulumiCtx "urn:comp" resolvedProps propertyDeps
      ∧ MarshalProperties resolvedProps (marshalOptions (sample.request true ∅) pulumiCtx)
        = inl ({[ "out" := PString "v" ]} : gmap string (PropertyValue string string))
      ∧ ∀ k, match propertyDeps !! k with
             | Some deps =>
                 ∃ urns, ({[ "out" := ["a"; "b"; "c"] ]} : gmap string (list string))
                           !! k = Some urns
                         ∧ NoDup urns ∧ Sorted string_le urns
                         ∧ ∀ x, x ∈ urns ↔ x ∈ deps
             | None => ({[ "out" := ["a"; "b"; "c"] ]} : gmap string (list string))
                         !! k = None
             end.
Proof.
  assert (construct (sample.request true ∅) tt
            (sample.routine {[ "out" := PString "v" ]} {[ "out" := ["b"; "a"; "c"] ]})
          = Ok fixtures.response) as H1 by (vm_compute; reflexivity).
  split; [exact H1|].
  exact (construct_response (rt := sample.runtime) (sample.request true ∅) tt
           (sample.routine {[ "out" := PString "v" ]} {[ "out" := ["b"; "a"; "c"] ]})
           fixtures.response H1).
Defined.

Lemma decodePhase_inputs_witness :
  decodePhase (sample.request false ∅) tt
  = Ok (tt, {[ "size" := IConstructInput fixtures.sizeInput ]})
  ∧ ∃ deserializedInputs,
      UnmarshalProperties (GetInputs (sample.request false ∅))
        (unmarshalOptions (sample.request false ∅))
      = inl deserializedInputs
      ∧ ∀ k, match deserializedInputs !! k with
             | Some input =>
                 ∃ val sec,
                   unmarshalPropertyValue tt input = inl (val, sec)
                   ∧ ({[ "size" := IConstructInput fixtures.sizeInput ]}
                        : gmap string (inputValue (PropertyValue string string))) !! k
                     = Some (IConstructInput
                               {| value := val; secret := sec;
                                  deps := newDependencyResource
                                            <$> default []
                                                  (GetInputDependencies
                                                     (sample.request false ∅) !! k) |})
             | None => ({[ "size" := IConstructInput fixtures.sizeInput ]}
                          : gmap string (inputValue (PropertyValue string string))) !! k
                       = None
             end.
Proof.
  assert (decodePhase (sample.request false ∅) tt
          = Ok (tt, {[ "size" := IConstructInput fixtures.sizeInput ]})) as H1
    by (vm_compute; reflexivity).
  split; [exact H1|].
  exact (decodePhase_inputs (rt := sample.runtime) (sample.request false ∅) tt tt
           {[ "size" := IConstructInput fixtures.sizeInput ]} H1).
Defined.

Lemma constructInputsSetArgs_bound_witness :
  reverse (map_to_list fixtures.twoInputs) ≡ₚ map_to_list fixtures.twoInputs
  ∧ reverse (map_to_list fixtures.twoInputs) ≠ map_to_list fixtures.twoInputs
  ∧ constructInputsSetArgsIn (reverse (map_to_list fixtures.twoInputs))
      (ArgsPtrToStruct [sample.taggedField true; sample.untaggedField])
    = Ok [populated (sample.taggedField true) sample.nameInput sample.stringOutputT;
          sample.untaggedField]
  ∧ [populated (sample.taggedField true) sample.nameInput sample.stringOutputT;
     sample.untaggedField]
    = bound fixtures.twoInputs <$> [sample.taggedField true; sample.untaggedField].
Proof.
  assert (reverse (map_to_list fixtures.twoInputs) ≡ₚ map_to_list fixtures.twoInputs)
    as H1 by apply reverse_Permutation.
  assert (constructInputsSetArgsIn (reverse (map_to_list fixtures.twoInputs))
            (ArgsPtrToStruct [sample.taggedField true; sample.untaggedField])
          = Ok [populated (sample.taggedField true) sample.nameInput
                  sample.stringOutputT;
                sample.untaggedField]) as H2 by (vm_compute; reflexivity).
  split; [exact H1|]. split; [vm_compute; discriminate|]. split; [exact H2|].
  exact (proj1 (constructInputsSetArgs_bound fixtures.twoInputs _ _ _ H1 H2)).
Defined.

Lemma newConstructResult_state_witness :
  newConstructResult fixtures.isStringInput (ArgsPtrToStruct fixtures.component)
    "urn:comp"
  = Ok ("urn:comp", {[ "name" := VOutput fixtures.nameOutput ]})
  ∧ "urn:comp" = "urn:comp"
  ∧ ∀ tag, ({[ "name" := VOutput fixtures.nameOutput ]}
              : gmap string (fieldValue (PropertyValue string string))) !! tag
           = Value <$> last (stateFieldsFor fixtures.isStringInput tag
                               fixtures.component).
Proof.
  assert (newConstructResult fixtures.isStringInput
            (ArgsPtrToStruct fixtures.component) "urn:comp"
          = Ok ("urn:comp", {[ "name" := VOutput fixtures.nameOutput ]})) as H1
    by (vm_compute; reflexivity).
  split; [exact H1|].
  exact (newConstructResult_state fixtures.isStringInput fixtures.component
           "urn:comp" "urn:comp" _ H1).
Defined.
Lemma bound_field_read_back_witness :
  constructInputsSetArgs {[ "name" := IConstructInput sample.nameInput ]}
    (ArgsPtrToStruct ([] ++ sample.taggedField true :: [sample.untaggedField]))
  = Ok [populated (sample.taggedField true) sample.nameInput sample.stringOutputT;
        sample.untaggedField]
  ∧ newConstructResult fixtures.isStringInput
      (ArgsPtrToStruct
         [populated (sample.taggedField true) sample.nameInput sample.stringOutputT;
          sample.untaggedField])
      "urn:comp"
    = Ok ("urn:comp", {[ "name" := VOutput fixtures.nameOutput ]})
  ∧ ({[ "name" := VOutput fixtures.nameOutput ]}
       : gmap string (fieldValue (PropertyValue string string))) !! "name"
    = Some (VOutput (outputOf sample.stringOutputT sample.nameInput)).
Proof.
  assert (constructInputsSetArgs {[ "name" := IConstructInput sample.nameInput ]}
            (ArgsPtrToStruct ([] ++ sample.taggedField true :: [sample.untaggedField]))
          = Ok [populated (sample.taggedField true) sample.nameInput
                  sample.stringOutputT;
                sample.untaggedField]) as H1 by (vm_compute; reflexivity).
  assert (newConstructResult fixtures.isStringInput
            (ArgsPtrToStruct
               [populated (sample.taggedField true) sample.nameInput
                  sample.stringOutputT;
                sample.untaggedField])
            "urn:comp"
          = Ok ("urn:comp", {[ "name" := VOutput fixtures.nameOutput ]})) as H2
    by (vm_compute; reflexivity).
  split; [exact H1|]. split; [exact H2|].
  apply (bound_field_read_back fixtures.isStringInput
           {[ "name" := IConstructInput sample.nameInput ]}
           [] [sample.untaggedField] _ (sample.taggedField true) "name"
           sample.nameInput sample.stringOutputT "urn:comp" "urn:comp" _ H1);
    [reflexivity|vm_compute; reflexivity|reflexivity|reflexivity|
     vm_compute; reflexivity| |exact H2].
  intros g Hg. apply list_elem_of_singleton in Hg as ->. discriminate.
Defined.
End further_examples.
